(** * FLORES-200 language identification recipe: data pipeline and loops

    A shallow embedding of [python/mlcroissant/recipes/flores200_datapipes.ipynb]:
    the label space ([classes_to_int], [int_to_classes]), the per-record map
    function ([unpack_row]), the composition of the train and test datapipes,
    the [train] and [test] loops and the epoch driver of the last code cell.

    Conventions.
    - A Python [str] is a [string] (its UTF-8 bytes; byte-wise lexicographic
      order coincides with Python's code-point order).
    - A Python [dict] is a [gmap]; [d[k]] is [getitem], which raises [KeyError].
    - The floats that decide the control flow, the epoch count, the
      evaluation fraction and the step caps computed from them, are IEEE
      754 binary64 numbers: [spec_float] of the Standard Library with its
      operations, which round to nearest, ties to even.  A cap reaches
      [train] and [test] as the rational it stands for: the comparisons of
      the loops ([iteration > max_steps], [max_steps <= 0]) are exact in
      Python, also between [int] and [float].
    - The losses and the figures of the progress lines are rationals [Q];
      the rounding of their sums and quotients is not modelled.
    - An exception is a value of [exn]; fallible code returns a [result].
    - An iterator is a finite lazy sequence that ends by exhaustion or by
      raising. *)

From Stdlib Require Import QArith Qround Qminmax Qpower Lqa SpecFloat.
From stdpp Require Import base option list sorting gmap strings pretty.

Open Scope Z_scope.
Open Scope nat_scope.

(** ** Exceptions, results *)

Module Py.

Inductive exn : Type :=
  | KeyError (key : string)
  | ZeroDivisionError
  | TypeError
  | ValueError
  | OverflowError.

Inductive result (A : Type) : Type :=
  | Ok (a : A)
  | Raise (e : exn).
Arguments Ok {A} a.
Arguments Raise {A} e.

Definition is_ok {A} (r : result A) : bool :=
  match r with Ok _ => true | Raise _ => false end.

Global Instance result_ret : MRet result := fun _ a => Ok a.
Global Instance result_bind : MBind result := fun _ _ f r =>
  match r with Ok a => f a | Raise e => Raise e end.

(** [d[k]] on a dict. *)
Definition getitem `{Countable K} {V} (d : gmap K V) (k : K)
    (err : exn) : result V :=
  match d !! k with Some v => Ok v | None => Raise err end.

(** ** Iterators

    What a consumer observes of a Python iterable when it iterates it once:
    items, then either exhaustion ([Stop]) or an exception ([Throw]). *)
Inductive iterator (A : Type) : Type :=
  | Stop
  | Throw (e : exn)
  | Yield (x : A) (rest : iterator A).
Arguments Stop {A}.
Arguments Throw {A} e.
Arguments Yield {A} x rest.

Fixpoint of_list {A} (l : list A) : iterator A :=
  match l with [] => Stop | x :: l' => Yield x (of_list l') end.

(** The items delivered before the iterator ends. *)
Fixpoint items {A} (it : iterator A) : list A :=
  match it with
  | Yield x rest => x :: items rest
  | _ => []
  end.

(** How the iterator ends. *)
Fixpoint ending {A} (it : iterator A) : option exn :=
  match it with
  | Stop => None
  | Throw e => Some e
  | Yield _ rest => ending rest
  end.

(** A generator expression [(f(x) for x in it)], which is also what a
    [map] stage computes: [f] is applied when the consumer asks for the next
    item, and an exception of [f] ends the iteration there. *)
Fixpoint gen_map {A B} (f : A → result B) (it : iterator A) : iterator B :=
  match it with
  | Stop => Stop
  | Throw e => Throw e
  | Yield x rest =>
      match f x with
      | Ok y => Yield y (gen_map f rest)
      | Raise e => Throw e
      end
  end.

(** [set(it)]. *)
Fixpoint set `{Countable A} (it : iterator A) : result (gset A) :=
  match it with
  | Stop => Ok ∅
  | Throw e => Raise e
  | Yield x rest => s ← set rest; Ok ({[x]} ∪ s)
  end.

(** [sorted(s)] on a set of strings. *)
Definition sorted (s : gset string) : list string :=
  merge_sort String.le (elements s).

(** [enumerate(l, start)]. *)
Fixpoint enumerate {A} (l : list A) (start : nat) : list (nat * A) :=
  match l with
  | [] => []
  | x :: l' => (start, x) :: enumerate l' (S start)
  end.

(** A dict comprehension [{k: v for (k, v) in kvs}]: later pairs overwrite
    earlier ones. *)
Definition dict `{Countable K} {V} (kvs : list (K * V)) : gmap K V :=
  fold_left (fun d kv => <[kv.1 := kv.2]> d) kvs ∅.

End Py.
Export Py.

(** ** Records and the label space *)

(** A record of a record set: field name to value. *)
Abbreviation Record := (gmap string string).

Section label_space.
(** One iteration of [train_data_pipe]. *)
Variable train_data_pipe : iterator Record.

(** [x["language"] for x in train_data_pipe] *)
Definition language_of (x : Record) : result string :=
  getitem x "language" (KeyError "language").

(** [{y: i for i, y in enumerate(sorted(set(...)))}] *)
Definition classes_to_int : result (gmap string nat) :=
  labels ← set (gen_map language_of train_data_pipe);
  Ok (dict ((fun iy => (iy.2, iy.1)) <$> enumerate (sorted labels) 0)).
End label_space.

(** [{i: y for (y, i) in classes_to_int.items()}] *)
Definition int_to_classes (c2i : gmap string nat) : gmap nat string :=
  dict ((fun yi => (yi.2, yi.1)) <$> map_to_list c2i).

(** ** Pipeline stages

    The stages are supplied by the data-loading library; the notebook only
    composes them.  A datapipe is the graph of its stages, and iterating it
    runs them from the source outward. *)

Inductive DataPipe : Type → Type :=
  | IterableWrapper {A} (source : iterator A) : DataPipe A
  | Shuffler {A} (buffer_size : Z) (dp : DataPipe A) : DataPipe A
  | ShardingFilter {A} (dp : DataPipe A) : DataPipe A
  | Mapper {A B} (fn : A → result B) (dp : DataPipe A) : DataPipe B.

(** The method spellings used by the notebook. *)
Definition shuffle {A} (dp : DataPipe A) (buffer_size : Z) := Shuffler buffer_size dp.
Definition sharding_filter {A} (dp : DataPipe A) := ShardingFilter dp.
Definition map {A B} (dp : DataPipe A) (fn : A → result B) := Mapper fn dp.

Inductive stage : Type :=
  | StShuffle (buffer_size : Z)
  | StShardFilter
  | StMap.

(** The stages of a datapipe in the order in which a record of the
    source passes through them. *)
Fixpoint stages {A} (dp : DataPipe A) : list stage :=
  match dp with
  | IterableWrapper _ => []
  | Shuffler n dp' => stages dp' ++ [StShuffle n]
  | ShardingFilter dp' => stages dp' ++ [StShardFilter]
  | Mapper _ dp' => stages dp' ++ [StMap]
  end.

(** What decides one iteration of a datapipe besides its source: how the
    loader has sharded it (number of consumers, this consumer's id, the
    position-to-consumer rule) and the random draws of the shuffle. *)
Record IterEnv : Type := {
  num_of_instances : nat;
  instance_id : nat;
  route : nat → nat;
  rng : nat → nat
}.

(** Modelled from the spec: the shard-filter stage of the pipeline library,
    whose code is not part of the notebook.  "Partitions the sequence across
    parallel consumers (workers) deterministically by position so each
    element is routed to exactly one consumer; with zero or one worker it is
    a no-op pass-through."  The rule [route] sends a position to a consumer;
    consumer [w] keeps the elements at the positions routed to it. *)
Fixpoint shard_from {A} (route : nat → nat) (w : nat) (i : nat)
    (it : iterator A) : iterator A :=
  match it with
  | Stop => Stop
  | Throw e => Throw e
  | Yield x rest =>
      if decide (route i = w)
      then Yield x (shard_from route w (S i) rest)
      else shard_from route w (S i) rest
  end.

(** Modelled from the spec: the shard-filter stage as consumer [w] of
    [num_workers] sees it; "with zero or one worker it is a no-op
    pass-through". *)
Definition shard_filter {A} (route : nat → nat) (num_workers w : nat)
    (it : iterator A) : iterator A :=
  if decide (num_workers ≤ 1) then it else shard_from route w 0 it.

(** Modelled from the spec: a rule that routes "deterministically by
    position"; the spec leaves the rule open, and round-robin, position [i]
    to consumer [i mod n], is the one the loader below uses. *)
Definition round_robin (n i : nat) : nat := i mod n.

(** The consumers of a loader with [num_workers] workers: the workers, or
    the loading process itself when there are none. *)
Definition consumers (num_workers : nat) : list nat :=
  seq 0 (Nat.max 1 num_workers).

(** Modelled from the spec: the shuffle stage of the pipeline library,
    whose code is not part of the notebook.  "Maintains a bounded buffer of
    configurable capacity; fills the buffer, then repeatedly emits one
    pseudo-randomly selected buffered element while pulling one new element
    to refill, until the source is exhausted and the buffer drains."
    [draw k] is the k-th pseudo-random draw; [drain] empties the buffer once
    the source is exhausted. *)
Fixpoint drain {A} (draw : nat → nat) (k : nat) (fuel : nat)
    (buffer : list A) : iterator A :=
  match fuel with
  | O => Stop
  | S fuel' =>
      let idx := draw k mod length buffer in
      match buffer !! idx with
      | Some v => Yield v (drain draw (S k) fuel' (delete idx buffer))
      | None => Stop
      end
  end.

(** Modelled from the spec: the shuffle stage while it pulls from its
    source.  A full buffer emits a drawn element and stores the new one in
    its place; a buffer of capacity 0 holds nothing and passes the element
    on. *)
Fixpoint shuffle_from {A} (buffer_size : Z) (draw : nat → nat) (k : nat)
    (buffer : list A) (it : iterator A) : iterator A :=
  match it with
  | Stop => drain draw k (length buffer) buffer
  | Throw e => Throw e
  | Yield x rest =>
      if decide (Z.of_nat (length buffer) = buffer_size)
      then
        let idx := draw k mod length buffer in
        match buffer !! idx with
        | Some v =>
            Yield v (shuffle_from buffer_size draw (S k) (<[idx := x]> buffer) rest)
        | None => Yield x (shuffle_from buffer_size draw k buffer rest)
        end
      else shuffle_from buffer_size draw k (buffer ++ [x]) rest
  end.

(** One iteration of a datapipe.  Modelled from the spec: the map stage of
    the pipeline library "applies a pure function to each record
    independently; failures inside the function propagate and abort
    iteration", which is [gen_map]. *)
Fixpoint iter {A} (env : IterEnv) (dp : DataPipe A) : iterator A :=
  match dp with
  | IterableWrapper source => source
  | Shuffler n dp' => shuffle_from n (rng env) 0 [] (iter env dp')
  | ShardingFilter dp' =>
      shard_filter (route env) (num_of_instances env) (instance_id env) (iter env dp')
  | Mapper fn dp' => gen_map fn (iter env dp')
  end.

(** ** Hyperparameters *)

Definition NUM_TRAIN_WORKERS : nat := 0.
Definition NUM_TEST_WORKERS : nat := 0.
Definition NUM_TRAIN_SAMPLES : Z := 203388.
Definition NUM_TEST_SAMPLES : Z := 206448.

(** ** Tokenization *)

(** What the tokenizer returns with [return_tensors="np"]: three arrays of
    shape (1, n). *)
Record BatchEncoding : Type := {
  enc_input_ids : list (list Z);
  enc_attention_mask : list (list Z);
  enc_token_type_ids : list (list Z)
}.

Inductive padding_strategy : Type := do_not_pad | max_length.

(** Modelled from the spec: the tokenizer, which the notebook takes from an
    external library ("pretrained model internals, tokenizer ... are
    entirely supplied by external libraries"), as far as [unpack_row]
    depends on it: how a call pads and truncates, over an arbitrary
    word-piece function [pieces] and the ids [cls] and [sep] of the two
    special tokens.  With truncation the pieces are cut so that they and the
    special tokens fit [max_length]; when [max_length] leaves no room for a
    piece beside the special tokens (it is below 3) nothing is cut.  Padding
    to [max_length] appends 0 up to that length and never shortens. *)
Section reference_tokenizer.
Variable pieces : string → list Z.
Variables cls sep : Z.

Definition pad_to (n : nat) (pad : Z) (l : list Z) : list Z :=
  l ++ replicate (n - length l) pad.

Definition reference_tokenizer (text : string) (max_len : Z)
    (padding : padding_strategy) (truncation : bool) : BatchEncoding :=
  let n := Z.to_nat max_len in
  let body :=
    if truncation && bool_decide (3 ≤ max_len)%Z
    then take (n - 2) (pieces text) else pieces text in
  let ids := cls :: body ++ [sep] in
  let real := length ids in
  let width := match padding with max_length => n | do_not_pad => real end in
  {| enc_input_ids := [pad_to width 0%Z ids];
     enc_attention_mask := [pad_to width 0%Z (replicate real 1%Z)];
     enc_token_type_ids := [replicate (Nat.max width real) 0%Z] |}.
End reference_tokenizer.

(** The mapping returned by [unpack_row]. *)
Record Row : Type := {
  input_ids : list Z;
  attention_mask : list Z;
  token_type_ids : list Z;
  targets : nat
}.

(** [a.reshape((-1,))] on a two-dimensional array. *)
Definition reshape_flat (a : list (list Z)) : list Z := concat a.

Section unpack_row.
(** The pretrained tokenizer, called as
    [tokenizer(text, max_length=.., padding=.., truncation=..)]. *)
Variable tokenizer : string → Z → padding_strategy → bool → BatchEncoding.
Variable MAX_LENGTH : Z.
Variable classes_to_int : gmap string nat.

Definition unpack_row (x : Record) : result Row :=
  text ← getitem x "translation" (KeyError "translation");
  let tokenized := tokenizer text MAX_LENGTH max_length true in
  lang ← getitem x "language" (KeyError "language");
  targets ← getitem classes_to_int lang (KeyError lang);
  Ok {| input_ids := reshape_flat (enc_input_ids tokenized);
        attention_mask := reshape_flat (enc_attention_mask tokenized);
        token_type_ids := reshape_flat (enc_token_type_ids tokenized);
        targets := targets |}.

Variables train_data_pipe test_data_pipe : DataPipe Record.

Definition get_train_dataset : DataPipe Row :=
  let train_dataset := train_data_pipe in
  let train_dataset := shuffle train_dataset 10000 in
  let train_dataset := sharding_filter train_dataset in
  let train_dataset := map train_dataset unpack_row in
  train_dataset.

Definition get_test_dataset : DataPipe Row :=
  let test_dataset := test_data_pipe in
  let test_dataset := sharding_filter test_dataset in
  let test_dataset := map test_dataset unpack_row in
  test_dataset.
End unpack_row.

(** ** Batching loader *)

(** A collated batch: one column per key of the rows. *)
Record Batch : Type := {
  b_input_ids : list (list Z);
  b_attention_mask : list (list Z);
  b_token_type_ids : list (list Z);
  b_targets : list nat
}.

Definition collate (rows : list Row) : Batch :=
  {| b_input_ids := input_ids <$> rows;
     b_attention_mask := attention_mask <$> rows;
     b_token_type_ids := token_type_ids <$> rows;
     b_targets := targets <$> rows |}.

(** Modelled from the spec: the batching loader, an external collaborator
    that "groups pipeline output into fixed-size batches".  It pulls
    [batch_size] rows per batch; a shorter last batch is kept, and an
    exception of the pipeline ends the iteration where it occurs. *)
Fixpoint batches_from (batch_size : nat) (pending : list Row)
    (it : iterator Row) : iterator Batch :=
  match it with
  | Stop =>
      match pending with
      | [] => Stop
      | _ => Yield (collate pending) Stop
      end
  | Throw e => Throw e
  | Yield r rest =>
      let pending' := pending ++ [r] in
      if decide (length pending' = batch_size)
      then Yield (collate pending') (batches_from batch_size [] rest)
      else batches_from batch_size pending' rest
  end.

(** A loader is iterated at most once per pass over the data; the number
    of the pass selects the random draws of that iteration. *)
Definition Loader : Type := nat → iterator Batch.

(** Modelled from the spec: [DataLoader(dataset, batch_size=..,
    num_workers=..)] of the loading library, for loading in the calling
    process as the notebook does ([NUM_TRAIN_WORKERS] and [NUM_TEST_WORKERS]
    are 0): the one consumer of the shard filter is consumer 0.  A batch
    size that is not positive is refused. *)
Definition DataLoader (draws : nat → nat → nat) (dataset : DataPipe Row)
    (batch_size : Z) (num_workers : nat) : result Loader :=
  if decide (batch_size ≤ 0)%Z then Raise ValueError
  else Ok (fun k =>
    let env := {| num_of_instances := num_workers; instance_id := 0;
                  route := round_robin num_workers; rng := draws k |} in
    batches_from (Z.to_nat batch_size) [] (iter env dataset)).

(** ** Numbers of the loops *)

Definition Q_of_nat (n : nat) : Q := inject_Z (Z.of_nat n).

(** [a / b] with an [int] divisor. *)
Definition py_div (a : Q) (b : Z) : result Q :=
  if decide (b = 0%Z) then Raise ZeroDivisionError else Ok (a / inject_Z b)%Q.

(** [int(x)] on a float: truncation toward zero. *)
Definition py_int (x : Q) : Z := Z.quot (Qnum x) (Zpos (Qden x)).

(** ** Floats

    A Python [float] is an IEEE 754 binary64 number: a [spec_float] with a
    mantissa of 53 bits. *)
Module Float.

Definition prec : Z := 53.
Definition emax : Z := 1024.

(** The finite floats are the zeros and the numbers [m * 2 ^ e] whose
    mantissa and exponent are in canonical form. *)
Definition valid (x : spec_float) : bool := valid_binary prec emax x.

(** [math.isfinite(x)] *)
Definition isfinite (x : spec_float) : bool :=
  match x with
  | S754_zero _ | S754_finite _ _ _ => true
  | _ => false
  end.

(** [x == 0.0] *)
Definition is_zero (x : spec_float) : bool :=
  match x with
  | S754_zero _ => true
  | _ => false
  end.

(** The truth value of [x] in [if x:]; a NaN is true. *)
Definition truthy (x : spec_float) : bool := negb (is_zero x).

(** [x != y]; a NaN differs from every float. *)
Definition ne (x y : spec_float) : bool := negb (SFeqb x y).

(** [1.0] *)
Definition one : spec_float := S754_finite false 4503599627370496 (-52).

(** The rational a float stands for.  An infinity is given the magnitude
    [2 ^ emax], beyond every float. *)
Definition value (x : spec_float) : Q :=
  match x with
  | S754_finite s m e => (inject_Z (cond_Zopp s (Z.pos m)) * 2 ^ e)%Q
  | S754_infinity s => inject_Z (cond_Zopp s (2 ^ emax))
  | _ => 0%Q
  end.

(** The conversion of an [int] operand of mixed arithmetic: the nearest
    float, ties to even, and [OverflowError] beyond the largest float. *)
Definition of_int (z : Z) : result spec_float :=
  match binary_normalize prec emax z 0 false with
  | S754_infinity _ => Raise OverflowError
  | y => Ok y
  end.

(** [int(x)] *)
Definition to_int (x : spec_float) : result Z :=
  match x with
  | S754_nan => Raise ValueError
  | S754_infinity _ => Raise OverflowError
  | _ => Ok (py_int (value x))
  end.

(** [x - z], [x * z] and [x / z] for a float [x] and an int [z]. *)
Definition sub_int (x : spec_float) (z : Z) : result spec_float :=
  y ← of_int z; Ok (SFsub prec emax x y).

Definition mul_int (x : spec_float) (z : Z) : result spec_float :=
  y ← of_int z; Ok (SFmul prec emax x y).

Definition div_int (x : spec_float) (z : Z) : result spec_float :=
  y ← of_int z;
  if is_zero y then Raise ZeroDivisionError else Ok (SFdiv prec emax x y).

(** What [train] and [test] see of a float passed as [max_steps].  They
    compare it with 0 and with the iteration number only: a NaN or a
    positive infinity is not [<= 0] and is never exceeded, as no cap at
    all; every other float compares as its value. *)
Definition as_cap (x : spec_float) : option Q :=
  match x with
  | S754_nan | S754_infinity false => None
  | _ => Some (value x)
  end.

End Float.

(** [max_steps] once [None] has been replaced by [float("inf")]. *)
Inductive bound : Type :=
  | inf
  | finite (q : Q).

(** The first statement of [train] and of [test],
    [if max_steps is None: max_steps = float("inf")] and
    [elif max_steps <= 0: return]: [None] is the early return, otherwise
    the bound of the loop. *)
Definition active (max_steps : option Q) : option bound :=
  match max_steps with
  | None => Some inf
  | Some q => if Qle_bool q 0 then None else Some (finite q)
  end.

(** [iteration > max_steps] *)
Definition exceeds (iteration : nat) (max_steps : bound) : bool :=
  match max_steps with
  | inf => false
  | finite q => negb (Qle_bool (Q_of_nat iteration) q)
  end.

(** [torch.argmax] of one row: the index of its first maximal value. *)
Fixpoint argmax_from (best : Q) (best_idx idx : nat) (row : list Q) : nat :=
  match row with
  | [] => best_idx
  | v :: row' =>
      if Qle_bool v best
      then argmax_from best best_idx (S idx) row'
      else argmax_from v idx (S idx) row'
  end.

Definition argmax (row : list Q) : nat :=
  match row with
  | [] => 0
  | v :: row' => argmax_from v 0 1 row'
  end.

(** [torch.sum((preds == targets).float()).item()] *)
Definition count_equal (preds targets : list nat) : nat :=
  length (filter (fun pt => pt.1 = pt.2) (zip preds targets)).

(** ** Model, optimizer and the observable world *)

Inductive loop_name : Type := Train | Test.

(** What a progress or summary line shows, before formatting.  The
    throughput figure of the progress lines divides by elapsed wall-clock
    time, which is not modelled. *)
Inductive message : Type :=
  | MsgTrain (progress mean_loss : Q)
  | MsgTest (progress mean_loss accuracy : Q)
  | MsgEpoch (epoch : nat) (train_loss test_loss test_accuracy : Q).

(** The trace of a run, oldest event first: entries into [train] and
    [test], calls of the model, optimizer steps, progress lines (with the
    iteration that prints them and the sample count they divide by) and
    epoch summary lines. *)
Inductive event : Type :=
  | EvEnter (fn : loop_name) (max_steps : option Q)
  | EvForward (fn : loop_name) (iteration : nat) (samples : nat)
  | EvStep (iteration : nat)
  | EvProgress (fn : loop_name) (iteration : nat) (samples : nat) (msg : message)
  | EvPrint (msg : message).

(** The number of loop iterations of [fn] recorded in a trace. *)
Definition is_forward (fn : loop_name) (ev : event) : bool :=
  match ev, fn with
  | EvForward Train _ _, Train | EvForward Test _ _, Test => true
  | _, _ => false
  end.

Definition iterations (fn : loop_name) (tr : list event) : nat :=
  length (filter (fun ev => is_forward fn ev = true) tr).

(** The entries into [train] recorded in a trace. *)
Definition is_train_entry (ev : event) : bool :=
  match ev with EvEnter Train _ => true | _ => false end.

Definition train_entries (tr : list event) : list event :=
  filter (fun ev => is_train_entry ev = true) tr.

(** The number of samples of a collated batch, [len(outputs)]. *)
Definition samples (data : Batch) : nat :=
  length (zip (zip (b_input_ids data) (b_attention_mask data)) (b_token_type_ids data)).

Section loops.
(** The parameters of [BERTClassifier] and the state of Adam. *)
Variables Params OptState : Type.
(** [self.base(...)] on one sample (its pooled output) and [self.fc]. *)
Variable base : Params → bool → list Z * list Z * list Z → list Q.
Variable fc : Params → list Q → list Q.
(** [torch.nn.CrossEntropyLoss()] with its default mean reduction. *)
Variable criterion : list (list Q) → list nat → Q.
(** [optimizer.zero_grad(); loss.backward(); optimizer.step()] for the
    loss of one batch. *)
Variable adam : OptState → Params → Batch → OptState * Params.

Record World : Type := {
  params : Params;
  training : bool;
  opt_state : OptState;
  trace : list event
}.

(** State and exceptions. *)
Definition M (A : Type) : Type := World → result A * World.

Global Instance M_ret : MRet M := fun _ a w => (Ok a, w).
Global Instance M_bind : MBind M := fun _ _ f m w =>
  match m w with
  | (Ok a, w') => f a w'
  | (Raise e, w') => (Raise e, w')
  end.

Definition raise {A} (e : exn) : M A := fun w => (Raise e, w).
Definition lift {A} (r : result A) : M A := fun w => (r, w).
Definition read {A} (f : World → A) : M A := fun w => (Ok (f w), w).

Definition emit (ev : event) : M unit := fun w =>
  (Ok (), {| params := params w; training := training w;
             opt_state := opt_state w; trace := trace w ++ [ev] |}).

(** [model.train()] and [model.eval()] *)
Definition set_mode (mode : bool) : M unit := fun w =>
  (Ok (), {| params := params w; training := mode;
             opt_state := opt_state w; trace := trace w |}).

(** [BERTClassifier.forward] *)
Definition forward (θ : Params) (mode : bool)
    (ids mask types : list (list Z)) : list (list Q) :=
  (fun sample => fc θ (base θ mode sample)) <$> zip (zip ids mask) types.

(** [model(input_ids, attention_mask, token_type_ids)] *)
Definition call_model (fn : loop_name) (iteration : nat) (data : Batch)
    : M (list (list Q)) :=
  θ ← read params;
  mode ← read training;
  let outputs :=
    forward θ mode (b_input_ids data) (b_attention_mask data)
      (b_token_type_ids data) in
  _ ← emit (EvForward fn iteration (length outputs));
  mret outputs.

Definition optimizer_step (iteration : nat) (data : Batch) : M unit := fun w =>
  let '(o, θ) := adam (opt_state w) (params w) data in
  (Ok (), {| params := θ; training := training w; opt_state := o;
             trace := trace w ++ [EvStep iteration] |}).

Record totals : Type := {
  total_loss : Q;
  total_correct : Q;
  total_samples : nat
}.

Definition zero_totals : totals :=
  {| total_loss := 0; total_correct := 0; total_samples := 0 |}.

(** The progress block of [train], run when [iteration % 100 == 0]. *)
Definition train_report (iteration : nat) (t : totals) : M unit :=
  mean_loss ← lift (py_div (total_loss t) (Z.of_nat (total_samples t)));
  progress ← lift (py_div (Q_of_nat (total_samples t)) NUM_TRAIN_SAMPLES);
  emit (EvProgress Train iteration (total_samples t) (MsgTrain progress mean_loss)).

(** The [for] loop of [train]. *)
Fixpoint train_loop (max_steps : bound) (iteration : nat)
    (dataloader : iterator Batch) (t : totals) : M totals :=
  match dataloader with
  | Stop => mret t
  | Throw e => raise e
  | Yield data rest =>
      if exceeds iteration max_steps then mret t
      else
        outputs ← call_model Train iteration data;
        let loss := criterion outputs (b_targets data) in
        let t := {| total_loss := total_loss t + Q_of_nat (length outputs) * loss;
                    total_correct := total_correct t;
                    total_samples := total_samples t + length outputs |} in
        _ ← (if decide (iteration mod 100 = 0) then train_report iteration t
             else mret ());
        _ ← optimizer_step iteration data;
        train_loop max_steps (S iteration) rest t
  end.

(** [train(model, optimizer, dataloader, max_steps)]; [Ok None] is the
    bare [return]. *)
Definition train (dataloader : iterator Batch) (max_steps : option Q)
    : M (option Q) :=
  _ ← emit (EvEnter Train max_steps);
  match active max_steps with
  | None => mret None
  | Some max_steps =>
      _ ← set_mode true;
      t ← train_loop max_steps 1 dataloader zero_totals;
      mean_loss ← lift (py_div (total_loss t) (Z.of_nat (total_samples t)));
      mret (Some mean_loss)
  end.

(** The progress block of [test]. *)
Definition test_report (iteration : nat) (t : totals) : M unit :=
  mean_loss ← lift (py_div (total_loss t) (Z.of_nat (total_samples t)));
  accuracy ← lift (py_div (total_correct t) (Z.of_nat (total_samples t)));
  progress ← lift (py_div (Q_of_nat (total_samples t)) NUM_TEST_SAMPLES);
  emit (EvProgress Test iteration (total_samples t) (MsgTest progress mean_loss accuracy)).

(** The [for] loop of [test]. *)
Fixpoint test_loop (max_steps : bound) (iteration : nat)
    (dataloader : iterator Batch) (t : totals) : M totals :=
  match dataloader with
  | Stop => mret t
  | Throw e => raise e
  | Yield data rest =>
      if exceeds iteration max_steps then mret t
      else
        outputs ← call_model Test iteration data;
        let loss := criterion outputs (b_targets data) in
        let preds := argmax <$> outputs in
        let t := {| total_loss := total_loss t + Q_of_nat (length outputs) * loss;
                    total_correct :=
                      total_correct t + Q_of_nat (count_equal preds (b_targets data));
                    total_samples := total_samples t + length outputs |} in
        _ ← (if decide (iteration mod 100 = 0) then test_report iteration t
             else mret ());
        test_loop max_steps (S iteration) rest t
  end.

(** [test(model, dataloader, max_steps)] *)
Definition test (dataloader : iterator Batch) (max_steps : option Q)
    : M (option (Q * Q)) :=
  _ ← emit (EvEnter Test max_steps);
  match active max_steps with
  | None => mret None
  | Some max_steps =>
      _ ← set_mode false;
      t ← test_loop max_steps 1 dataloader zero_totals;
      mean_loss ← lift (py_div (total_loss t) (Z.of_nat (total_samples t)));
      accuracy ← lift (py_div (total_correct t) (Z.of_nat (total_samples t)));
      mret (Some (mean_loss, accuracy))
  end.

(** ** The epoch driver *)

Variables NUM_EPOCHS FRACTION_TEST : spec_float.
Variables TRAIN_BATCH_SIZE TEST_BATCH_SIZE : Z.
Variables train_dataloader test_dataloader : Loader.

(** [(NUM_EPOCHS - whole_epochs) * NUM_TRAIN_SAMPLES / TRAIN_BATCH_SIZE] *)
Definition remainder_train_steps (whole_epochs : Z) : result spec_float :=
  fraction ← Float.sub_int NUM_EPOCHS whole_epochs;
  scaled ← Float.mul_int fraction NUM_TRAIN_SAMPLES;
  Float.div_int scaled TRAIN_BATCH_SIZE.

(** [max_test_steps = None] and its assignment under
    [if FRACTION_TEST != 1.0]. *)
Definition max_test_steps : result (option spec_float) :=
  if Float.ne FRACTION_TEST Float.one then
    scaled ← Float.mul_int FRACTION_TEST NUM_TEST_SAMPLES;
    steps ← Float.div_int scaled TEST_BATCH_SIZE;
    Ok (Some steps)
  else Ok None.

(** [test_loss, test_accuracy = ...] *)
Definition unpack_pair (r : option (Q * Q)) : M (Q * Q) :=
  match r with Some p => mret p | None => raise TypeError end.

(** [f"{train_loss:.2f}"] *)
Definition format_float (x : option Q) : M Q :=
  match x with Some v => mret v | None => raise TypeError end.

(** The three statements shared by the body of the epoch loop and by the
    remainder branch; [pass] counts the earlier passes over the loaders. *)
Definition run_pass (epoch pass : nat) (max_train_steps max_test_steps : option Q)
    : M unit :=
  train_loss ← train (train_dataloader pass) max_train_steps;
  r ← test (test_dataloader pass) max_test_steps;
  '(test_loss, test_accuracy) ← unpack_pair r;
  train_loss ← format_float train_loss;
  emit (EvPrint (MsgEpoch epoch train_loss test_loss test_accuracy)).

(** [for epoch in range(..)] *)
Fixpoint for_epochs (epochs : list nat) (body : nat → M unit) : M unit :=
  match epochs with
  | [] => mret ()
  | epoch :: epochs' => _ ← body epoch; for_epochs epochs' body
  end.

(** The schedule and the loops of the last training cell. *)
Definition fit : M unit :=
  whole_epochs ← lift (Float.to_int NUM_EPOCHS);
  remainder ← lift (remainder_train_steps whole_epochs);
  test_steps ← lift max_test_steps;
  let test_cap := test_steps ≫= Float.as_cap in
  let n := Z.to_nat whole_epochs in
  _ ← for_epochs (seq 0 n) (fun epoch => run_pass epoch epoch None test_cap);
  if Float.truthy remainder
  then run_pass (pred n) n (Float.as_cap remainder) test_cap
  else mret ().
End loops.

(** The last training cell: the two loaders, then the schedule. *)
Definition training_cell {Params OptState} base fc criterion adam
    (NUM_EPOCHS FRACTION_TEST : spec_float)
    (TRAIN_BATCH_SIZE TEST_BATCH_SIZE : Z)
    (draws : nat → nat → nat) (train_dataset test_dataset : DataPipe Row)
    : M Params OptState unit :=
  train_dataloader ←
    lift _ _ (DataLoader draws train_dataset TRAIN_BATCH_SIZE NUM_TRAIN_WORKERS);
  test_dataloader ←
    lift _ _ (DataLoader draws test_dataset TEST_BATCH_SIZE NUM_TEST_WORKERS);
  fit Params OptState base fc criterion adam NUM_EPOCHS FRACTION_TEST
    TRAIN_BATCH_SIZE TEST_BATCH_SIZE train_dataloader test_dataloader.

Arguments World : clear implicits.
Arguments M : clear implicits.

Arguments params {Params OptState} w.
Arguments training {Params OptState} w.
Arguments opt_state {Params OptState} w.
Arguments trace {Params OptState} w.
Arguments forward {Params} base fc θ mode ids mask types.
Arguments call_model {Params OptState} base fc fn iteration data.
Arguments optimizer_step {Params OptState} adam iteration data.
Arguments train_report {Params OptState} iteration t.
Arguments test_report {Params OptState} iteration t.
Arguments emit {Params OptState} ev.
Arguments set_mode {Params OptState} mode.
Arguments lift {Params OptState A} r.
Arguments raise {Params OptState A} e.
Arguments run_pass {Params OptState} base fc criterion adam train_dataloader
  test_dataloader epoch pass max_train_steps max_test_steps.
Arguments for_epochs {Params OptState} epochs body.
Arguments unpack_pair {Params OptState} r.
Arguments format_float {Params OptState} x.
Arguments train {Params OptState} base fc criterion adam dataloader max_steps.
Arguments test {Params OptState} base fc criterion dataloader max_steps.
Arguments train_loop {Params OptState} base fc criterion adam max_steps iteration dataloader t.
Arguments test_loop {Params OptState} base fc criterion max_steps iteration dataloader t.
Arguments fit {Params OptState} base fc criterion adam NUM_EPOCHS FRACTION_TEST
  TRAIN_BATCH_SIZE TEST_BATCH_SIZE train_dataloader test_dataloader.

(** ** Inference *)

(** [t.item()] on a one-dimensional tensor; a tensor with another number of
    elements is refused (never the case below: the batch has one row). *)
Definition item (t : list nat) : result nat :=
  match t with
  | [y] => Ok y
  | _ => Raise ValueError
  end.

Section inference.
Context {Params : Type}.
Variable base : Params → bool → list Z * list Z * list Z → list Q.
Variable fc : Params → list Q → list Q.
(** [tokenizer(case, return_tensors="pt")] on one string: the one row of
    [input_ids], of [attention_mask] and of [token_type_ids]. *)
Variable tokenize : string → list Z * list Z * list Z.
Variable int_to_classes : gmap nat string.

(** The body of the loop over [sample_cases] up to [pred_lang]. *)
Definition predict_language (θ : Params) (mode : bool) (case : string)
    : result string :=
  let toks := tokenize case in
  let logits := forward base fc θ mode [toks.1.1] [toks.1.2] [toks.2] in
  y_pred ← item (argmax <$> logits);
  getitem int_to_classes y_pred (KeyError (pretty y_pred)).

(** The loop over [sample_cases]: the lines it prints, as pairs of a case
    and its predicted language, until a case raises. *)
Definition predict_cases (θ : Params) (mode : bool) (sample_cases : list string)
    : iterator (string * string) :=
  gen_map (fun case => pred_lang ← predict_language θ mode case; Ok (case, pred_lang))
    (of_list sample_cases).
End inference.

(** ** Vocabulary of the statements *)

(** A record with the two fields the notebook reads. *)
Definition labelled (lang text : string) : Record :=
  {[ "language" := lang; "translation" := text ]}.

(** The number of whole steps a positive cap [q] allows. *)
Definition whole_steps (q : Q) : nat := Z.to_nat (Qfloor q).

(** The number of bodies run by a [for] loop with the guard
    [iteration > max_steps] when no body raises, and how such a loop ends:
    normally, or with the exception of the loader. *)
Fixpoint run_length (max_steps : bound) (iteration : nat)
    (dataloader : iterator Batch) : nat :=
  match dataloader with
  | Yield _ rest =>
      if exceeds iteration max_steps then 0
      else S (run_length max_steps (S iteration) rest)
  | _ => 0
  end.

Fixpoint loop_end (max_steps : bound) (iteration : nat)
    (dataloader : iterator Batch) : option exn :=
  match dataloader with
  | Stop => None
  | Throw e => Some e
  | Yield _ rest =>
      if exceeds iteration max_steps then None
      else loop_end max_steps (S iteration) rest
  end.

(** A progress line of [fn] is printed in an iteration that is a positive
    multiple of the cadence and divides by a positive sample count. *)
Definition progress_ok (fn : loop_name) (ev : event) : Prop :=
  match ev with
  | EvProgress fn' iteration n _ =>
      fn' = fn ∧ iteration mod 100 = 0 ∧ 100 ≤ iteration ∧ 0 < n
  | _ => True
  end.

(** The outputs of the model on a batch, the number of its samples whose
    highest-scoring class is the target, and its loss weighted by its size. *)
Definition batch_outputs {Params} base fc (θ : Params) (mode : bool)
    (data : Batch) : list (list Q) :=
  forward base fc θ mode (b_input_ids data) (b_attention_mask data)
    (b_token_type_ids data).

Definition batch_correct {Params} base fc (θ : Params) (mode : bool)
    (data : Batch) : nat :=
  count_equal (argmax <$> batch_outputs base fc θ mode data) (b_targets data).

Definition batch_loss {Params} base fc (criterion : list (list Q) → list nat → Q)
    (θ : Params) (mode : bool) (data : Batch) : Q :=
  Q_of_nat (samples data) * criterion (batch_outputs base fc θ mode data) (b_targets data).

Definition sumQ (l : list Q) : Q := foldr Qplus 0%Q l.

(** The number of iterations a cap allows on [n] batches. *)
Definition capped (max_steps : option Q) (n : nat) : nat :=
  match max_steps with
  | None => n
  | Some q => if Qle_bool q 0 then 0 else Nat.min (whole_steps q) n
  end.

(** The world after more events, and the world in which the loop of [fn]
    starts. *)
Definition logged {Params OptState} (w : World Params OptState)
    (evs : list event) : World Params OptState :=
  {| params := params w; training := training w; opt_state := opt_state w;
     trace := trace w ++ evs |}.

Definition entered {Params OptState} (fn : loop_name) (max_steps : option Q)
    (mode : bool) (w : World Params OptState) : World Params OptState :=
  {| params := params w; training := mode; opt_state := opt_state w;
     trace := trace w ++ [EvEnter fn max_steps] |}.

(** The samples seen by a call with cap [max_steps]. *)
Definition seen (max_steps : option Q) (dataloader : iterator Batch) : nat :=
  sum_list (samples <$> take (capped max_steps (length (items dataloader)))
                          (items dataloader)).

(** A call with cap [max_steps] on this loader enters its loop, leaves it
    normally and has seen at least one sample. *)
Definition succeeds (max_steps : option Q) (dataloader : iterator Batch) : Prop :=
  ∃ b, active max_steps = Some b ∧ loop_end b 1 dataloader = None ∧
       seen max_steps dataloader ≠ 0.

(** No batch of the loader is empty. *)
Definition nonempty_batches (dataloader : iterator Batch) : Prop :=
  Forall (fun data => 0 < samples data) (items dataloader).

(** A cap that allows at least one whole step. *)
Definition reaches_a_step (max_steps : option Q) : Prop :=
  max_steps = None ∨ ∃ q, max_steps = Some q ∧ (1 <= q)%Q.

(** A float that is not a NaN and is not below zero, and one that is not
    above zero. *)
Definition float_nonneg (x : spec_float) : bool :=
  match x with
  | S754_zero _ => true
  | S754_infinity s | S754_finite s _ _ => negb s
  | S754_nan => false
  end.

Definition float_nonpos (x : spec_float) : bool :=
  match x with
  | S754_zero _ => true
  | S754_infinity s | S754_finite s _ _ => s
  | S754_nan => false
  end.

(** [v] is [x] up to the relative error [r], for a positive [x]. *)
Definition within (r v x : Q) : Prop := (x * (1 - r) <= v ∧ v <= x * (1 + r))%Q.

(** Half the distance between 1 and the next float, 2^-53: the relative
    error of one rounding to nearest. *)
Definition unit_roundoff : Q := 1 # 9007199254740992.

(** What a [location] says of a positive rational [N / D] that is rounded
    to an integer: it is [m] exactly, or lies between [m] and [m + 1],
    below, at or above the middle. *)
Definition located (m : Z) (l : location) (N D : Z) : Prop :=
  match l with
  | loc_Exact => N = (m * D)%Z
  | loc_Inexact Lt => (m * D < N ∧ 2 * N < (2 * m + 1) * D)%Z
  | loc_Inexact Eq => (2 * N = (2 * m + 1) * D)%Z
  | loc_Inexact Gt => ((2 * m + 1) * D < 2 * N ∧ N < (m + 1) * D)%Z
  end.

(** Top-1 accuracy as the spec words it: a prediction is right when the
    highest-scoring class is the true label.  [top1 row target] holds when
    the score at [target] is a highest score of [row] and no earlier score
    equals it; [top1_hits] counts the samples of a batch at which that is
    so. *)
Definition top1 (row : list Q) (target : nat) : bool :=
  match row !! target with
  | Some v =>
      forallb (fun u => Qle_bool u v) row
      && forallb (fun u => negb (Qle_bool v u)) (take target row)
  | None => false
  end.

Fixpoint top1_hits (outputs : list (list Q)) (targets : list nat) : nat :=
  match outputs, targets with
  | row :: outputs', target :: targets' =>
      (if top1 row target then 1 else 0) + top1_hits outputs' targets'
  | _, _ => 0
  end.

Definition batch_top1 {Params} base fc (θ : Params) (mode : bool)
    (data : Batch) : nat :=
  top1_hits (batch_outputs base fc θ mode data) (b_targets data).

(** The optimizer steps and the progress lines of [fn] recorded in a
    trace. *)
Definition is_step (ev : event) : bool :=
  match ev with EvStep _ => true | _ => false end.

Definition steps_taken (tr : list event) : nat :=
  length (filter (fun ev => is_step ev = true) tr).

Definition is_progress (fn : loop_name) (ev : event) : bool :=
  match ev, fn with
  | EvProgress Train _ _ _, Train | EvProgress Test _ _ _, Test => true
  | _, _ => false
  end.

Definition progress_lines (fn : loop_name) (tr : list event) : nat :=
  length (filter (fun ev => is_progress fn ev = true) tr).

(** The epoch numbers of the summary lines of a trace, oldest first. *)
Definition printed_epoch (ev : event) : option nat :=
  match ev with
  | EvPrint (MsgEpoch epoch _ _ _) => Some epoch
  | _ => None
  end.

Definition printed_epochs (evs : list event) : list nat := omap printed_epoch evs.

(** The optimizer state and the parameters after one step per batch, in the
    order of the batches. *)
Definition apply_steps {Params OptState}
    (adam : OptState → Params → Batch → OptState * Params)
    (start : OptState * Params) (batches : list Batch) : OptState * Params :=
  fold_left (fun s data => adam s.1 s.2 data) batches start.

(** The multiples of the cadence among the iterations [i .. i + k - 1]. *)
Definition cadence_hits (i k : nat) : nat := (i + k - 1) / 100 - (i - 1) / 100.

(** The weighted losses of the batches of a training run that starts from
    the optimizer state and parameters [s]: each batch is scored with the
    parameters left by the steps on the batches before it. *)
Fixpoint running_losses {Params OptState} base fc
    (criterion : list (list Q) → list nat → Q)
    (adam : OptState → Params → Batch → OptState * Params) (mode : bool)
    (s : OptState * Params) (batches : list Batch) : list Q :=
  match batches with
  | [] => []
  | data :: rest =>
      batch_loss base fc criterion s.2 mode data
      :: running_losses base fc criterion adam mode (adam s.1 s.2 data) rest
  end.

(** ** A small instance

    One integer weight that every optimizer step increases; the scores of a
    sample are its token ids; the loss of every batch is 1. *)

Definition demo_base (θ : Z) (mode : bool) (sample : list Z * list Z * list Z)
    : list Q := inject_Z <$> sample.1.1.
Definition demo_fc (θ : Z) (pooled : list Q) : list Q := pooled.
Definition demo_criterion (outputs : list (list Q)) (targets : list nat) : Q := 1.
Definition demo_adam (o : unit) (θ : Z) (data : Batch) : unit * Z := (o, (θ + 1)%Z).

Definition demo_world : World Z unit :=
  {| params := 0%Z; training := false; opt_state := (); trace := [] |}.

Definition demo_row (a b : Z) (target : nat) : Row :=
  {| input_ids := [a; b]; attention_mask := [1; 1]%Z; token_type_ids := [0; 0]%Z;
     targets := target |}.

Definition demo_batch : Batch := collate [demo_row 5 3 0; demo_row 2 7 0].

Definition demo_tokenizer : string → Z → padding_strategy → bool → BatchEncoding :=
  reference_tokenizer (fun text => Z.of_nat <$> [String.length text; 7; 8]) 101 102.

Definition demo_env : IterEnv :=
  {| num_of_instances := 0; instance_id := 0; route := round_robin 0;
     rng := fun k => k |}.

(** * Properties *)

(** ** Dict comprehensions, [enumerate], [sorted], [set] *)

Section dict_facts.
Context `{Countable K} {V : Type}.
Implicit Types (kvs : list (K * V)) (d : gmap K V).

Lemma fold_insert_lookup kvs d k v :
  NoDup kvs.*1 →
  fold_left (fun d kv => <[kv.1 := kv.2]> d) kvs d !! k = Some v ↔
  (k, v) ∈ kvs ∨ ((k ∉ kvs.*1) ∧ d !! k = Some v).
Proof.
  revert d. induction kvs as [|[k' v'] kvs IH]; intros d Hnd.
  - simpl. split; [intros ?; right; split; [apply not_elem_of_nil|done]|].
    intros [Hin|[_ ?]]; [by apply elem_of_nil in Hin|done].
  - rewrite fmap_cons in Hnd. apply NoDup_cons in Hnd as [Hk' Hnd].
    cbn [fold_left fst snd]. rewrite IH by done.
    rewrite fmap_cons, !elem_of_cons. cbn [fst].
    assert (Hfst : ∀ u, (k, u) ∈ kvs → k ∈ kvs.*1).
    { intros u Hu. apply list_elem_of_fmap. by exists (k, u). }
    destruct (decide (k' = k)) as [->|Hne].
    + rewrite lookup_insert_eq. cbn [fst] in Hk'. naive_solver.
    + rewrite lookup_insert_ne by done. naive_solver.
Qed.

Lemma dict_lookup kvs k v :
  NoDup kvs.*1 → dict kvs !! k = Some v ↔ (k, v) ∈ kvs.
Proof.
  intros Hnd. unfold dict. rewrite fold_insert_lookup by done.
  rewrite lookup_empty. naive_solver.
Qed.
End dict_facts.

Lemma elem_of_enumerate {A} (l : list A) (start i : nat) (x : A) :
  (i, x) ∈ enumerate l start ↔ start ≤ i ∧ l !! (i - start) = Some x.
Proof.
  revert start. induction l as [|y l IH]; intros start; simpl.
  - split; [by intros ?%elem_of_nil|by intros [_ ?]].
  - rewrite elem_of_cons, IH. split.
    + intros [[= -> ->]|[Hle Hl]].
      * split; [lia|]. by replace (start - start) with 0 by lia.
      * split; [lia|]. by replace (i - start) with (S (i - S start)) by lia.
    + intros [Hle Hl]. destruct (decide (i = start)) as [->|Hne].
      * left. replace (start - start) with 0 in Hl by lia. by simplify_eq/=.
      * right. split; [lia|].
        by replace (i - start) with (S (i - S start)) in Hl by lia.
  Qed.

Lemma fmap_snd_enumerate {A} (l : list A) (start : nat) :
  (enumerate l start).*2 = l.
Proof.
  revert start. induction l as [|y l IH]; intros start; simpl; [done|].
  by rewrite IH.
Qed.

Lemma sorted_elem_of (s : gset string) (y : string) : y ∈ sorted s ↔ y ∈ s.
Proof.
  unfold sorted. rewrite (merge_sort_Permutation String.le (elements s)).
  apply elem_of_elements.
Qed.

Lemma sorted_NoDup (s : gset string) : NoDup (sorted s).
Proof.
  unfold sorted. rewrite (merge_sort_Permutation String.le (elements s)).
  apply NoDup_elements.
Qed.

Lemma sorted_length (s : gset string) : length (sorted s) = size s.
Proof.
  unfold sorted. by rewrite (merge_sort_Permutation String.le (elements s)).
Qed.

Lemma sorted_StronglySorted (s : gset string) :
  StronglySorted String.le (sorted s).
Proof. apply StronglySorted_merge_sort; apply _. Qed.

(** Positions in a sorted duplicate-free list are ordered like its items. *)
Lemma sorted_lookup_lt (l : list string) (i j : nat) (x y : string) :
  StronglySorted String.le l → NoDup l →
  l !! i = Some x → l !! j = Some y →
  (i < j ↔ strict String.le x y).
Proof.
  intros Hs Hnd Hi Hj.
  assert (Hmono : ∀ a b u v, a < b → l !! a = Some u → l !! b = Some v →
                             strict String.le u v).
  { clear i j x y Hi Hj. induction Hs as [|z l Hs IH Hall]; intros a b u v Hab Ha Hb.
    - done.
    - apply NoDup_cons in Hnd as [Hz Hnd].
      destruct b as [|b]; [lia|]. simpl in Hb. destruct a as [|a].
      + simpl in Ha. simplify_eq. rewrite Forall_forall in Hall.
        assert (v ∈ l) as Hv by (by eapply list_elem_of_lookup_2).
        split; [by apply Hall|]. intros Hvu.
        assert (u = v) as -> by (apply (anti_symm String.le); [by apply Hall|done]).
        done.
      + simpl in Ha. apply (IH Hnd a b); [lia|done..]. }
  split; [intros; by eapply Hmono|].
  intros [Hxy Hnyx]. destruct (Nat.lt_trichotomy i j) as [?|[->|Hji]]; [done| |].
  - simplify_eq. by destruct Hnyx.
  - destruct (Hmono _ _ _ _ Hji Hj Hi) as [Hyx _]. by destruct Hnyx.
Qed.

Lemma set_gen_map_ok {A} `{Countable B} (f : A → result B) (it : iterator A)
    (s : gset B) :
  set (gen_map f it) = Ok s →
  ending it = None ∧
  Forall (fun x => is_ok (f x) = true) (items it) ∧
  ∀ y, y ∈ s ↔ ∃ x, x ∈ items it ∧ f x = Ok y.
Proof.
  revert s. induction it as [|e|x rest IH]; intros s; simpl.
  - intros [= <-]. split_and!; [done..|]. intros y.
    split; [by intros ?%elem_of_empty|]. by intros (? & ?%elem_of_nil & _).
  - done.
  - destruct (f x) as [y0|e] eqn:Hfx; simpl; [|done].
    destruct (set (gen_map f rest)) as [s'|e] eqn:Hs'; simpl; [|done].
    intros [= <-]. destruct (IH s' eq_refl) as (Hend & Hall & Hiff).
    split_and!; [done| |].
    { apply Forall_cons. split; [by rewrite Hfx|done]. }
    intros y. rewrite elem_of_union, elem_of_singleton, Hiff. split.
    + intros [->|(x' & Hx' & Hf)]; [exists x|exists x']; rewrite elem_of_cons; auto.
    + intros (x' & [->|Hx']%elem_of_cons & Hf); [left; congruence|right; eauto].
Qed.

Lemma set_gen_map_total {A} `{Countable B} (f : A → result B) (it : iterator A) :
  ending it = None → Forall (fun x => is_ok (f x) = true) (items it) →
  ∃ s, set (gen_map f it) = Ok s.
Proof.
  induction it as [|e|x rest IH]; simpl; intros Hend Hall; [by eexists|done|].
  apply Forall_cons in Hall as [Hx Hall]. destruct (f x) as [y|]; [|done]. simpl.
  destruct (IH Hend Hall) as [s ->]. by eexists.
Qed.

(** The mapping built from a duplicate-free list of labels sends each label
    to its position. *)
Lemma label_index_lookup (l : list string) (y : string) (i : nat) :
  NoDup l →
  dict ((fun iy => (iy.2, iy.1)) <$> enumerate l 0) !! y = Some i ↔ l !! i = Some y.
Proof.
  intros Hnd. rewrite dict_lookup.
  - rewrite list_elem_of_fmap. split.
    + intros ([i' y'] & [= -> ->] & Hin). apply elem_of_enumerate in Hin as [_ Hl].
      by rewrite Nat.sub_0_r in Hl.
    + intros Hl. exists (i, y). split; [done|]. apply elem_of_enumerate.
      split; [lia|]. by rewrite Nat.sub_0_r.
  - rewrite <-list_fmap_compose.
    rewrite <-(fmap_snd_enumerate l 0) in Hnd. exact Hnd.
Qed.

Lemma label_index_size (l : list string) :
  NoDup l → size (dict ((fun iy => (iy.2, iy.1)) <$> enumerate l 0)) = length l.
Proof.
  intros Hnd. rewrite <-size_dom.
  assert (dom (dict ((fun iy => (iy.2, iy.1)) <$> enumerate l 0))
          = (list_to_set l : gset string)) as ->.
  { apply set_eq. intros y. rewrite elem_of_dom, elem_of_list_to_set. split.
    - intros [i Hi]. apply label_index_lookup in Hi; [|done].
      by eapply list_elem_of_lookup_2.
    - intros [i Hi]%list_elem_of_lookup_1. exists i. by apply label_index_lookup. }
  by apply size_list_to_set.
Qed.

(** [sorted] does not depend on the order in which the set is iterated. *)
Lemma sorted_any_order (s : gset string) (order : list string) :
  order ≡ₚ elements s → merge_sort String.le order = sorted s.
Proof.
  intros Hp. apply (Sorted_unique String.le).
  - apply Sorted_merge_sort; apply _.
  - apply Sorted_merge_sort; apply _.
  - unfold sorted. by rewrite !merge_sort_Permutation.
Qed.

(** The inverse dict of an injective dict. *)
Lemma int_to_classes_lookup (c2i : gmap string nat) (i : nat) (y : string) :
  (∀ y1 y2 j, c2i !! y1 = Some j → c2i !! y2 = Some j → y1 = y2) →
  int_to_classes c2i !! i = Some y ↔ c2i !! y = Some i.
Proof.
  intros Hinj. unfold int_to_classes. rewrite dict_lookup.
  - rewrite list_elem_of_fmap. split.
    + intros ([y' i'] & [= -> ->] & Hin). by apply elem_of_map_to_list in Hin.
    + intros Hl. exists (y, i). split; [done|]. by apply elem_of_map_to_list.
  - rewrite <-list_fmap_compose. apply NoDup_fmap_2_strong; [|apply NoDup_map_to_list].
    intros [y1 i1] [y2 i2] H1%elem_of_map_to_list H2%elem_of_map_to_list Heq.
    simpl in Heq. subst i2. f_equal. by eapply Hinj.
Qed.

Lemma language_of_Ok (x : Record) (y : string) :
  language_of x = Ok y ↔ x !! "language" = Some y.
Proof.
  unfold language_of, getitem. destruct (x !! "language"); naive_solver.
Qed.

Lemma language_of_is_ok (x : Record) :
  is_ok (language_of x) = true ↔ is_Some (x !! "language").
Proof.
  unfold language_of, getitem. destruct (x !! "language"); simpl.
  - split; [by eexists|done].
  - split; [done|by intros [? ?]].
Qed.

(** ** The label space *)

(** C2. For every training record sequence (that ends normally and whose
    records carry a language), [classes_to_int] is defined, its keys are
    exactly the distinct languages of the records, its values are exactly
    0..n-1, it orders indices as the sorted order orders labels (so it is
    injective), [int_to_classes] is its exact inverse, and the mapping is
    the same for every reordering of the training records and for every
    iteration order of the label set.  For labels a, b, a it is
    {a: 0, b: 1}, with inverse {0: a, 1: b}. *)
Theorem classes_to_int_sorted_bijection (train : iterator Record) :
  ending train = None →
  Forall (fun x => is_Some (x !! "language")) (items train) →
  (∃ c2i : gmap string nat,
    classes_to_int train = Ok c2i ∧
    (∀ y, y ∈ dom c2i ↔ ∃ x, x ∈ items train ∧ x !! "language" = Some y) ∧
    (∀ y i, c2i !! y = Some i → i < size c2i) ∧
    (∀ i, i < size c2i → ∃ y, c2i !! y = Some i) ∧
    (∀ y1 y2 i1 i2, c2i !! y1 = Some i1 → c2i !! y2 = Some i2 →
       (i1 < i2 ↔ strict String.le y1 y2)) ∧
    (∀ y1 y2 i, c2i !! y1 = Some i → c2i !! y2 = Some i → y1 = y2) ∧
    (∀ i y, int_to_classes c2i !! i = Some y ↔ c2i !! y = Some i) ∧
    (∀ train', ending train' = None → items train' ≡ₚ items train →
       classes_to_int train' = Ok c2i) ∧
    (∀ labels order,
       set (gen_map language_of train) = Ok labels → order ≡ₚ elements labels →
       dict ((fun iy => (iy.2, iy.1)) <$> enumerate (merge_sort String.le order) 0)
       = c2i)) ∧
  classes_to_int (of_list [labelled "a" "x"; labelled "b" "y"; labelled "a" "z"])
    = Ok {[ "a" := 0; "b" := 1 ]} ∧
  int_to_classes {[ "a" := 0; "b" := 1 ]} = {[ 0 := "a"; 1 := "b" ]}.
Proof.
  intros Hend Hall. split; [|split; vm_compute; reflexivity].
  destruct (set_gen_map_total language_of train Hend) as [labels Hlabels].
  { eapply Forall_impl; [exact Hall|]. intros x. by rewrite language_of_is_ok. }
  pose proof (set_gen_map_ok _ _ _ Hlabels) as (_ & _ & Hmem).
  set (l := sorted labels).
  set (c2i := dict ((fun iy => (iy.2, iy.1)) <$> enumerate l 0)).
  assert (Hnd : NoDup l) by apply sorted_NoDup.
  assert (Hlk : ∀ y i, c2i !! y = Some i ↔ l !! i = Some y).
  { intros. by apply label_index_lookup. }
  assert (Hsize : size c2i = length l) by (by apply label_index_size).
  assert (Hord : ∀ y1 y2 i1 i2, c2i !! y1 = Some i1 → c2i !! y2 = Some i2 →
                 (i1 < i2 ↔ strict String.le y1 y2)).
  { intros y1 y2 i1 i2 H1%Hlk H2%Hlk.
    eapply sorted_lookup_lt; eauto. apply sorted_StronglySorted. }
  assert (Hinj : ∀ y1 y2 i, c2i !! y1 = Some i → c2i !! y2 = Some i → y1 = y2).
  { intros y1 y2 i H1%Hlk H2%Hlk. congruence. }
  exists c2i. split_and!.
  - unfold classes_to_int. by rewrite Hlabels.
  - intros y. rewrite elem_of_dom. split.
    + intros [i Hi%Hlk]. apply list_elem_of_lookup_2, sorted_elem_of, Hmem in Hi.
      destruct Hi as (x & Hx & Hf). exists x. by rewrite <-language_of_Ok.
    + intros (x & Hx & Hf%language_of_Ok).
      assert (y ∈ l) as [i Hi]%list_elem_of_lookup_1.
      { apply sorted_elem_of, Hmem. eauto. }
      exists i. by apply Hlk.
  - intros y i Hi%Hlk. rewrite Hsize. by eapply lookup_lt_Some.
  - intros i Hi. rewrite Hsize in Hi.
    destruct (lookup_lt_is_Some_2 l i Hi) as [y Hy]. exists y. by apply Hlk.
  - exact Hord.
  - exact Hinj.
  - intros i y. by apply int_to_classes_lookup.
  - intros train' Hend' Hperm.
    destruct (set_gen_map_total language_of train' Hend') as [labels' Hlabels'].
    { rewrite Hperm. eapply Forall_impl; [exact Hall|].
      intros x. by rewrite language_of_is_ok. }
    pose proof (set_gen_map_ok _ _ _ Hlabels') as (_ & _ & Hmem').
    assert (labels' = labels) as ->.
    { apply set_eq. intros y. rewrite Hmem, Hmem'. by setoid_rewrite Hperm. }
    unfold classes_to_int. by rewrite Hlabels'.
  - intros labels' order Hl' Hperm. rewrite Hlabels in Hl'. simplify_eq.
    by rewrite (sorted_any_order labels' order).
Qed.

(** The label space of three records read in the order b, a, b. *)
Lemma classes_to_int_sorted_bijection_witness :
  ∃ c2i : gmap string nat,
    classes_to_int (of_list [labelled "b" "x"; labelled "a" "y"; labelled "b" "z"])
    = Ok c2i ∧ c2i !! "a" = Some 0 ∧ c2i !! "b" = Some 1.
Proof.
  destruct (classes_to_int_sorted_bijection
    (of_list [labelled "b" "x"; labelled "a" "y"; labelled "b" "z"]))
    as [(c2i & Hc & _) _].
  - reflexivity.
  - repeat constructor; by eexists.
  - exists c2i. split; [exact Hc|]. revert Hc. vm_compute. by intros [= <-].
Defined.

(** ** Composition of the datasets *)

(** C3. The training dataset adds to the adapter's datapipe the stages
    shuffle, shard-filter and per-record map, in this order; the test
    dataset adds shard-filter and per-record map and no shuffle stage.  One
    iteration runs the stages in that order. *)
Theorem dataset_stage_order tokenizer MAX_LENGTH (c2i : gmap string nat)
    (train_data_pipe test_data_pipe : DataPipe Record) :
  let unpack := unpack_row tokenizer MAX_LENGTH c2i in
  let train_dataset := get_train_dataset tokenizer MAX_LENGTH c2i train_data_pipe in
  let test_dataset := get_test_dataset tokenizer MAX_LENGTH c2i test_data_pipe in
  stages train_dataset
    = stages train_data_pipe ++ [StShuffle 10000; StShardFilter; StMap] ∧
  stages test_dataset = stages test_data_pipe ++ [StShardFilter; StMap] ∧
  (∀ n, StShuffle n ∉ [StShardFilter; StMap]) ∧
  (∀ env,
     iter env train_dataset
     = gen_map unpack
         (shard_filter (route env) (num_of_instances env) (instance_id env)
            (shuffle_from 10000 (rng env) 0 [] (iter env train_data_pipe)))) ∧
  (∀ env,
     iter env test_dataset
     = gen_map unpack
         (shard_filter (route env) (num_of_instances env) (instance_id env)
            (iter env test_data_pipe))).
Proof.
  simpl. split_and!.
  - by rewrite <-!app_assoc.
  - by rewrite <-!app_assoc.
  - intros n Hin. repeat (apply elem_of_cons in Hin as [?|Hin]; [done|]).
    by apply elem_of_nil in Hin.
  - done.
  - done.
Qed.

(** ** The shuffle stage *)

Section shuffle_facts.
Context {A : Type}.
Implicit Types (l buffer : list A) (draw : nat → nat).

Lemma insert_Permutation_delete buffer (idx : nat) (v x : A) :
  buffer !! idx = Some v → v :: <[idx := x]> buffer ≡ₚ x :: buffer.
Proof.
  intros Hv. pose proof (lookup_lt_Some _ _ _ Hv) as Hlt.
  rewrite (delete_Permutation (<[idx := x]> buffer) idx x)
    by (by apply list_lookup_insert_eq).
  rewrite (delete_Permutation buffer idx v Hv) at 2.
  rewrite !delete_take_drop, take_insert_ge, drop_insert_lt by lia.
  apply Permutation_swap.
Qed.

(** Draining emits every buffered element once. *)
Lemma drain_items draw (k : nat) buffer :
  items (drain draw k (length buffer) buffer) ≡ₚ buffer ∧
  ending (drain draw k (length buffer) buffer) = None.
Proof.
  remember (length buffer) as fuel eqn:Hfuel. revert k buffer Hfuel.
  induction fuel as [|fuel IH]; intros k buffer Hfuel.
  - destruct buffer; [done|discriminate].
  - cbn [drain].
    destruct (lookup_lt_is_Some_2 buffer (draw k mod length buffer)) as [v Hv].
    { apply Nat.mod_upper_bound. lia. }
    rewrite Hv. simpl.
    destruct (IH (S k) (delete (draw k mod length buffer) buffer)) as [Hperm ->].
    { pose proof (length_delete buffer _ (mk_is_Some _ _ Hv)). lia. }
    split; [|done]. rewrite Hperm. symmetry. by apply delete_Permutation.
Qed.

(** The shuffle stage reorders a source that ends normally: it emits the
    buffered and the incoming elements, each once. *)
Lemma shuffle_from_items (buffer_size : Z) draw (k : nat) buffer l :
  items (shuffle_from buffer_size draw k buffer (of_list l)) ≡ₚ buffer ++ l ∧
  ending (shuffle_from buffer_size draw k buffer (of_list l)) = None.
Proof.
  revert k buffer. induction l as [|x l IH]; intros k buffer.
  - simpl. rewrite app_nil_r. apply drain_items.
  - cbn [of_list shuffle_from]. case_decide as Hfull.
    + destruct (buffer !! (draw k mod length buffer)) as [v|] eqn:Hv; simpl.
      * destruct (IH (S k) (<[draw k mod length buffer := x]> buffer)) as [-> ->].
        split; [|done]. rewrite app_comm_cons, insert_Permutation_delete by done.
        by rewrite <-Permutation_middle.
      * destruct (IH k buffer) as [-> ->]. split; [|done].
        by rewrite <-Permutation_middle.
    + destruct (IH k (buffer ++ [x])) as [-> ->]. split; [|done].
      by rewrite <-app_assoc.
Qed.
End shuffle_facts.

(** ** The shard filter *)

Section shard_facts.
Context {A : Type}.
Implicit Types (l : list A) (route : nat → nat).

Lemma concat_fmap_app_perm {I} (g h : I → list A) (ws : list I) :
  concat ((fun w => g w ++ h w) <$> ws) ≡ₚ concat (g <$> ws) ++ concat (h <$> ws).
Proof.
  induction ws as [|w ws IH]; simpl; [done|].
  rewrite IH, <-!app_assoc. f_equiv. rewrite !app_assoc. f_equiv; [|done].
  apply Permutation_app_comm.
Qed.

Lemma concat_indicator (x : A) (c s n : nat) :
  concat ((fun w => if decide (c = w) then [x] else []) <$> seq s n)
  = if decide (s ≤ c < s + n) then [x] else [].
Proof.
  revert s. induction n as [|n IH]; intros s; simpl.
  - rewrite decide_False by lia. done.
  - rewrite IH. repeat case_decide; simpl; try done; lia.
Qed.

Lemma shard_from_cons route w s x l :
  items (shard_from route w s (of_list (x :: l)))
  = (if decide (route s = w) then [x] else [])
    ++ items (shard_from route w (S s) (of_list l)).
Proof. simpl. by case_decide. Qed.

Lemma shard_from_union route (n s : nat) l :
  (∀ i, route i < n) →
  concat ((fun w => items (shard_from route w s (of_list l))) <$> seq 0 n) ≡ₚ l.
Proof.
  intros Hroute. revert s. induction l as [|x l IH]; intros s.
  - simpl. induction (seq 0 n) as [|? ? IHs]; simpl; [done|]. exact IHs.
  - rewrite (list_fmap_ext _
      (fun w => (if decide (route s = w) then [x] else [])
                ++ items (shard_from route w (S s) (of_list l))))
      by (intros ? w _; apply shard_from_cons).
    rewrite concat_fmap_app_perm, concat_indicator, IH.
    rewrite decide_True; [done|]. specialize (Hroute s). lia.
Qed.

Lemma items_of_list l : items (of_list l) = l.
Proof. induction l; simpl; congruence. Qed.

Lemma ending_of_list l : ending (of_list l) = None.
Proof. induction l; simpl; congruence. Qed.

Lemma elem_of_shard_from route w s l (j : nat) (x : A) :
  (j, x) ∈ items (shard_from route w s (of_list (enumerate l s)))
  ↔ (j, x) ∈ enumerate l s ∧ route j = w.
Proof.
  revert s. induction l as [|y l IH]; intros s; simpl.
  - split; [by intros ?%elem_of_nil|by intros [?%elem_of_nil _]].
  - case_decide as Hw; simpl; rewrite ?elem_of_cons, IH.
    + split; [intros [[= -> ->]|[? ?]]; auto|]. naive_solver.
    + split; [naive_solver|]. intros [[[= -> ->]|?] ?]; [done|auto].
Qed.
End shard_facts.

(** C4. For every input sequence, every worker count and every rule that
    routes positions to workers, the shard filter hands each element (each
    position of the input) to exactly one consumer, the outputs of all
    consumers together are a permutation of the input (equal as multisets),
    and with zero or one worker the stage returns its input unchanged. *)
Theorem shard_filter_partitions {A} (route : nat → nat) (num_workers : nat)
    (input : list A) :
  (∀ i, 2 ≤ num_workers → route i < num_workers) →
  (∀ i x, input !! i = Some x →
     ∃ w, w ∈ consumers num_workers ∧
       (∀ w', w' ∈ consumers num_workers →
          (i, x) ∈ items (shard_filter route num_workers w'
                            (of_list (enumerate input 0)))
          ↔ w' = w)) ∧
  concat ((fun w => items (shard_filter route num_workers w (of_list input)))
            <$> consumers num_workers) ≡ₚ input ∧
  (num_workers ≤ 1 →
     ∀ w (it : iterator A), shard_filter route num_workers w it = it).
Proof.
  intros Hroute. unfold shard_filter, consumers.
  destruct (decide (num_workers ≤ 1)) as [Hle|Hgt].
  - replace (Nat.max 1 num_workers) with 1 by lia. simpl. split_and!.
    + intros i x Hi. exists 0. split; [by left|].
      intros w' ->%list_elem_of_singleton. split; [done|]. intros _.
      rewrite items_of_list. apply elem_of_enumerate.
      split; [lia|]. by rewrite Nat.sub_0_r.
    + by rewrite items_of_list, app_nil_r.
    + done.
  - replace (Nat.max 1 num_workers) with num_workers by lia. split_and!.
    + intros i x Hi. exists (route i). split.
      { apply elem_of_seq. specialize (Hroute i). lia. }
      intros w' _. rewrite elem_of_shard_from, elem_of_enumerate, Nat.sub_0_r.
      split; [by intros [_ ?]|]. intros ->. split; [|done]. split; [lia|done].
    + apply shard_from_union. intros i. apply Hroute. lia.
    + intros ?. lia.
Qed.

(** Three workers, round-robin, five elements. *)
Lemma shard_filter_partitions_witness :
  concat ((fun w => items (shard_filter (round_robin 3) 3 w
                             (of_list ["r0"; "r1"; "r2"; "r3"; "r4"])))
            <$> consumers 3)
  ≡ₚ ["r0"; "r1"; "r2"; "r3"; "r4"].
Proof.
  apply (shard_filter_partitions (round_robin 3) 3 ["r0"; "r1"; "r2"; "r3"; "r4"]).
  intros i _. unfold round_robin. apply Nat.mod_upper_bound. lia.
Defined.

(** ** Caps and loop lengths *)

Lemma py_div_nonzero (a : Q) (b : Z) :
  b ≠ 0%Z → py_div a b = Ok (a / inject_Z b)%Q.
Proof. intros Hb. unfold py_div. by rewrite decide_False. Qed.

(** [iteration > q] holds exactly when the iteration is past the whole
    steps of [q]. *)
Lemma exceeds_finite (i : nat) (q : Q) :
  (0 <= q)%Q → exceeds i (finite q) = true ↔ whole_steps q < i.
Proof.
  intros Hq. unfold exceeds, whole_steps, Q_of_nat.
  rewrite negb_true_iff, <-not_true_iff_false, Qle_bool_iff.
  assert (0 <= Qfloor q)%Z as Hfl.
  { change 0%Z with (Qfloor (inject_Z 0)). by apply Qfloor_resp_le. }
  split.
  - intros Hnle. apply Nat.nlt_ge. intros Hge. apply Hnle.
    apply Qle_trans with (inject_Z (Qfloor q)); [|apply Qfloor_le].
    rewrite <-Zle_Qle. lia.
  - intros Hlt Hle. apply Qfloor_resp_le in Hle. rewrite Qfloor_Z in Hle. lia.
Qed.

Lemma run_length_inf (i : nat) (dl : iterator Batch) :
  run_length inf i dl = length (items dl).
Proof.
  revert i. induction dl as [| |data rest IH]; intros i; simpl; [done..|].
  by rewrite IH.
Qed.

Lemma run_length_finite (q : Q) (i : nat) (dl : iterator Batch) :
  (0 <= q)%Q →
  run_length (finite q) i dl = Nat.min (S (whole_steps q) - i) (length (items dl)).
Proof.
  intros Hq. revert i. induction dl as [| |data rest IH]; intros i.
  - simpl. lia.
  - simpl. lia.
  - cbn [run_length items length].
    destruct (exceeds i (finite q)) eqn:Hex.
    + apply exceeds_finite in Hex; [|done]. lia.
    + apply not_true_iff_false in Hex. rewrite exceeds_finite in Hex by done.
      rewrite IH. lia.
Qed.

(** A loop that is not cut short by its cap ends as the loader ends. *)
Lemma loop_end_run_length (b : bound) (i : nat) (dl : iterator Batch) :
  loop_end b i dl
  = if decide (run_length b i dl < length (items dl)) then None else ending dl.
Proof.
  revert i. induction dl as [| |data rest IH]; intros i; simpl; [done..|].
  destruct (exceeds i b).
  - rewrite decide_True by lia. done.
  - rewrite IH. repeat case_decide; try done; lia.
Qed.

(** ** The loops *)

Lemma iterations_app (fn : loop_name) (tr1 tr2 : list event) :
  iterations fn (tr1 ++ tr2) = iterations fn tr1 + iterations fn tr2.
Proof. unfold iterations. by rewrite filter_app, length_app. Qed.

Lemma train_entries_app (tr1 tr2 : list event) :
  train_entries (tr1 ++ tr2) = train_entries tr1 ++ train_entries tr2.
Proof. unfold train_entries. by rewrite filter_app. Qed.

Section loop_facts.
Context {Params OptState : Type}.
Variable base : Params → bool → list Z * list Z * list Z → list Q.
Variable fc : Params → list Q → list Q.
Variable criterion : list (list Q) → list nat → Q.
Variable adam : OptState → Params → Batch → OptState * Params.
Implicit Types (w : World Params OptState) (dl : iterator Batch) (t : totals).

Local Opaque Nat.modulo.

Lemma logged_nil w : logged w [] = w.
Proof. destruct w. unfold logged. simpl. by rewrite app_nil_r. Qed.

Lemma logged_logged w evs1 evs2 :
  logged (logged w evs1) evs2 = logged w (evs1 ++ evs2).
Proof. unfold logged. simpl. by rewrite app_assoc. Qed.

Lemma length_forward (θ : Params) (mode : bool) (data : Batch) :
  length (forward base fc θ mode (b_input_ids data) (b_attention_mask data)
            (b_token_type_ids data)) = samples data.
Proof. unfold forward, samples. by rewrite length_fmap. Qed.

Lemma call_model_run (fn : loop_name) (i : nat) (data : Batch) w :
  call_model base fc fn i data w
  = (Ok (forward base fc (params w) (training w) (b_input_ids data)
           (b_attention_mask data) (b_token_type_ids data)),
     logged w [EvForward fn i (samples data)]).
Proof.
  unfold call_model, mbind, M_bind, read, emit, mret, M_ret. simpl.
  by rewrite length_forward.
Qed.

Lemma train_report_run (i : nat) t w :
  0 < total_samples t →
  ∃ msg, train_report i t w
         = (Ok (), logged w [EvProgress Train i (total_samples t) msg]).
Proof.
  intros Ht. unfold train_report, mbind, M_bind, lift, emit.
  rewrite !py_div_nonzero by (try done; lia). by eexists.
Qed.

Lemma test_report_run (i : nat) t w :
  0 < total_samples t →
  ∃ msg, test_report i t w
         = (Ok (), logged w [EvProgress Test i (total_samples t) msg]).
Proof.
  intros Ht. unfold test_report, mbind, M_bind, lift, emit.
  rewrite !py_div_nonzero by (try done; lia). by eexists.
Qed.

(** The progress block together with its cadence test. *)
Lemma train_cadence_run (i : nat) t w :
  1 ≤ i → 0 < total_samples t →
  ∃ evs,
    (if decide (i mod 100 = 0) then train_report i t else mret ()) w
    = (Ok (), logged w evs) ∧
    Forall (progress_ok Train) evs ∧
    iterations Train evs = 0 ∧ iterations Test evs = 0 ∧ train_entries evs = [].
Proof.
  intros Hi Ht. case_decide as Hmod.
  - destruct (train_report_run i t w Ht) as [msg ->]. eexists. split; [done|].
    split_and!; [|done..]. apply Forall_singleton. simpl. split_and!; try done.
    destruct (decide (100 ≤ i)); [done|]. rewrite Nat.mod_small in Hmod; lia.
  - exists []. by rewrite logged_nil.
Qed.

Lemma test_cadence_run (i : nat) t w :
  1 ≤ i → 0 < total_samples t →
  ∃ evs,
    (if decide (i mod 100 = 0) then test_report i t else mret ()) w
    = (Ok (), logged w evs) ∧
    Forall (progress_ok Test) evs ∧
    iterations Train evs = 0 ∧ iterations Test evs = 0 ∧ train_entries evs = [].
Proof.
  intros Hi Ht. case_decide as Hmod.
  - destruct (test_report_run i t w Ht) as [msg ->]. eexists. split; [done|].
    split_and!; [|done..]. apply Forall_singleton. simpl. split_and!; try done.
    destruct (decide (100 ≤ i)); [done|]. rewrite Nat.mod_small in Hmod; lia.
  - exists []. by rewrite logged_nil.
Qed.

(** What a run of the [for] loop of [train] leaves behind when no batch is
    empty. *)
Lemma train_loop_run (b : bound) (i : nat) dl t w :
  1 ≤ i → nonempty_batches dl →
  ∃ t' w' evs,
    train_loop base fc criterion adam b i dl t w
    = (match loop_end b i dl with None => Ok t' | Some e => Raise e end, w') ∧
    trace w' = trace w ++ evs ∧
    training w' = training w ∧
    iterations Train evs = run_length b i dl ∧
    iterations Test evs = 0 ∧
    train_entries evs = [] ∧
    total_samples t'
    = total_samples t + sum_list (samples <$> take (run_length b i dl) (items dl)) ∧
    Forall (progress_ok Train) evs.
Proof.
  intros Hi Hne. revert i t w Hi.
  induction dl as [|e|data rest IH]; intros i t w Hi.
  - exists t, w, []. simpl. rewrite app_nil_r. split_and!; try done; lia.
  - exists t, w, []. simpl. rewrite app_nil_r. split_and!; try done; lia.
  - apply Forall_cons in Hne as [Hdata Hne]. specialize (IH Hne).
    cbn [train_loop run_length loop_end]. destruct (exceeds i b) eqn:Hex.
    { exists t, w, []. simpl. rewrite app_nil_r. split_and!; try done; lia. }
    unfold mbind at 1, M_bind at 1. rewrite call_model_run, length_forward.
    set (t1 := {| total_loss := _ |}).
    unfold mbind at 1, M_bind at 1.
    destruct (train_cadence_run i t1 (logged w [EvForward Train i (samples data)]))
      as (evs1 & -> & Hprog1 & Htr1 & Hte1 & Hen1); [done|simpl; lia|].
    rewrite logged_logged.
    unfold mbind at 1, M_bind at 1, optimizer_step.
    destruct (adam _ _ data) as [o θ] eqn:Hadam.
    match goal with |- context [train_loop _ _ _ _ _ _ _ _ ?w1] =>
      destruct (IH (S i) t1 w1) as (t' & w' & evs & -> & Htrace & Hmode & Hit & Hitt & Hent & Hsum & Hprog); [lia|]
    end.
    simpl in Htrace, Hmode.
    exists t', w', ((EvForward Train i (samples data) :: evs1) ++ EvStep i :: evs).
    split_and!.
    + done.
    + rewrite Htrace. by rewrite <-!app_assoc.
    + done.
    + rewrite iterations_app. change (EvForward Train i (samples data) :: evs1)
        with ([EvForward Train i (samples data)] ++ evs1).
      rewrite iterations_app, Htr1.
      change (EvStep i :: evs) with ([EvStep i] ++ evs).
      rewrite iterations_app, Hit. done.
    + change (EvForward Train i (samples data) :: evs1)
        with ([EvForward Train i (samples data)] ++ evs1).
      change (EvStep i :: evs) with ([EvStep i] ++ evs).
      rewrite !iterations_app, Hte1, Hitt. done.
    + change (EvForward Train i (samples data) :: evs1)
        with ([EvForward Train i (samples data)] ++ evs1).
      change (EvStep i :: evs) with ([EvStep i] ++ evs).
      rewrite !train_entries_app, Hen1, Hent. done.
    + rewrite Hsum. subst t1. cbn [total_samples items take].
      rewrite fmap_cons. cbn [sum_list sum_list_with id]. lia.
    + apply Forall_app. split; [by apply Forall_cons|by apply Forall_cons].
Qed.
(** The loop of [test] never touches the parameters, the optimizer or the
    mode, whatever the batches are and however it ends. *)
Lemma test_report_frame (i : nat) t w :
  ∃ evs, (test_report i t w).2 = logged w evs ∧
         Forall (fun ev => ∀ j, ev ≠ EvStep j) evs.
Proof.
  unfold test_report, mbind, M_bind, lift, emit, py_div.
  repeat case_decide; simpl;
    solve [ exists []; by rewrite logged_nil
          | eexists; split; [done|]; by apply Forall_singleton ].
Qed.

Lemma test_loop_frame_cadence (i : nat) t w :
  ∃ evs, ((if decide (i mod 100 = 0) then test_report i t else mret ()) w).2
         = logged w evs.
Proof.
  case_decide.
  - destruct (test_report_frame i t w) as (evs & ? & _). by exists evs.
  - exists []. by rewrite logged_nil.
Qed.

Lemma test_loop_frame (b : bound) (i : nat) dl t w :
  ∃ evs, (test_loop base fc criterion b i dl t w).2 = logged w evs ∧
         Forall (fun ev => ∀ j, ev ≠ EvStep j) evs.
Proof.
  revert i t w. induction dl as [|e|data rest IH]; intros i t w.
  - exists []. by rewrite logged_nil.
  - exists []. by rewrite logged_nil.
  - cbn [test_loop]. destruct (exceeds i b).
    { exists []. by rewrite logged_nil. }
    unfold mbind at 1, M_bind at 1. rewrite call_model_run, length_forward.
    set (t1 := {| total_loss := _ |}).
    unfold mbind at 1, M_bind at 1.
    set (w1 := logged w [EvForward Test i (samples data)]).
    assert (∃ evs1, ((if decide (i mod 100 = 0) then test_report i t1 else mret ()) w1).2
                    = logged w1 evs1 ∧ Forall (fun ev => ∀ j, ev ≠ EvStep j) evs1)
      as (evs1 & Hw2 & Hevs1).
    { case_decide; [apply test_report_frame|]. exists []. by rewrite logged_nil. }
    destruct ((if decide (i mod 100 = 0) then test_report i t1 else mret ()) w1)
      as [[[]|e] w2]; simpl in Hw2; subst w2.
    + destruct (IH (S i) t1 (logged w1 evs1)) as (evs & -> & Hevs).
      subst w1. rewrite !logged_logged. eexists. split; [done|].
      simpl. apply Forall_cons. split; [done|]. by apply Forall_app.
    + subst w1. rewrite logged_logged. eexists. split; [done|].
      simpl. by apply Forall_cons.
Qed.

(** The totals of a loop of [test] that ends normally. *)
Lemma Q_of_nat_add (a b : nat) : (Q_of_nat (a + b) == Q_of_nat a + Q_of_nat b)%Q.
Proof. unfold Q_of_nat. by rewrite Nat2Z.inj_add, inject_Z_plus. Qed.

Lemma test_loop_totals (b : bound) (i : nat) dl t w t' w' :
  test_loop base fc criterion b i dl t w = (Ok t', w') →
  let done_ := take (run_length b i dl) (items dl) in
  total_samples t' = total_samples t + sum_list (samples <$> done_) ∧
  (total_correct t'
   == total_correct t
      + Q_of_nat (sum_list (batch_correct base fc (params w) (training w) <$> done_)))%Q ∧
  (total_loss t'
   == total_loss t
      + sumQ (batch_loss base fc criterion (params w) (training w) <$> done_))%Q.
Proof.
  revert i t w. induction dl as [|e|data rest IH]; intros i t w.
  - simpl. intros [= <- <-]. split_and!; [lia|unfold Q_of_nat; simpl; ring..].
  - done.
  - cbn [test_loop run_length items]. destruct (exceeds i b).
    { simpl. intros [= <- <-]. split_and!; [lia|unfold Q_of_nat; simpl; ring..]. }
    unfold mbind at 1, M_bind at 1. rewrite call_model_run, length_forward.
    set (t1 := {| total_loss := _ |}).
    unfold mbind at 1, M_bind at 1.
    set (w1 := logged w [EvForward Test i (samples data)]).
    destruct (test_loop_frame_cadence i t1 w1) as [evs1 Hw2].
    destruct ((if decide (i mod 100 = 0) then test_report i t1 else mret ()) w1)
      as [[[]|e] w2]; simpl in Hw2; subst w2; [|done].
    intros Hrun. apply IH in Hrun as (Hs & Hc & Hl). cbn zeta.
    cbn [firstn]. rewrite !fmap_cons.
    cbn [sum_list sum_list_with sumQ foldr id].
    subst t1 w1. cbn [total_samples total_correct total_loss logged params training] in *.
    split_and!.
    + lia.
    + rewrite Hc, Q_of_nat_add. unfold batch_correct, batch_outputs. ring.
    + rewrite Hl. unfold batch_loss, batch_outputs, sumQ. ring.
Qed.
(** What a run of the [for] loop of [test] leaves behind when no batch is
    empty. *)
Lemma test_loop_run (b : bound) (i : nat) dl t w :
  1 ≤ i → nonempty_batches dl →
  ∃ t' evs,
    test_loop base fc criterion b i dl t w
    = (match loop_end b i dl with None => Ok t' | Some e => Raise e end,
       logged w evs) ∧
    iterations Test evs = run_length b i dl ∧
    iterations Train evs = 0 ∧
    train_entries evs = [] ∧
    total_samples t'
    = total_samples t + sum_list (samples <$> take (run_length b i dl) (items dl)) ∧
    Forall (progress_ok Test) evs.
Proof.
  intros Hi Hne. revert i t w Hi.
  induction dl as [|e|data rest IH]; intros i t w Hi.
  - exists t, []. simpl. rewrite logged_nil. split_and!; try done; lia.
  - exists t, []. simpl. rewrite logged_nil. split_and!; try done; lia.
  - apply Forall_cons in Hne as [Hdata Hne]. specialize (IH Hne).
    cbn [test_loop run_length loop_end]. destruct (exceeds i b) eqn:Hex.
    { exists t, []. simpl. rewrite logged_nil. split_and!; try done; lia. }
    unfold mbind at 1, M_bind at 1. rewrite call_model_run, length_forward.
    set (t1 := {| total_loss := _ |}).
    unfold mbind at 1, M_bind at 1.
    destruct (test_cadence_run i t1 (logged w [EvForward Test i (samples data)]))
      as (evs1 & -> & Hprog1 & Htr1 & Hte1 & Hen1); [done|simpl; lia|].
    rewrite logged_logged.
    destruct (IH (S i) t1 (logged w ([EvForward Test i (samples data)] ++ evs1)))
      as (t' & evs & -> & Hit & Hitt & Hent & Hsum & Hprog); [lia|].
    rewrite logged_logged.
    exists t', (([EvForward Test i (samples data)] ++ evs1) ++ evs).
    split_and!.
    + done.
    + rewrite !iterations_app, Hte1, Hit. done.
    + rewrite !iterations_app, Htr1, Hitt. done.
    + rewrite !train_entries_app, Hen1, Hent. done.
    + rewrite Hsum. subst t1. cbn [total_samples items firstn].
      rewrite fmap_cons. cbn [sum_list sum_list_with id]. lia.
    + apply Forall_app. split; [by apply Forall_cons|done].
Qed.

(** The samples of the first batches of a loader without empty batches. *)
Lemma sum_samples_pos (k : nat) dl :
  nonempty_batches dl → 1 ≤ k → 1 ≤ length (items dl) →
  0 < sum_list (samples <$> take k (items dl)).
Proof.
  unfold nonempty_batches. destruct (items dl) as [|data l]; simpl; [lia|].
  intros [Hdata _]%Forall_cons Hk _. destruct k as [|k]; [lia|].
  simpl. lia.
Qed.
(** ** [train] and [test] as wholes *)

Lemma train_inactive dl (q : Q) w :
  (q <= 0)%Q →
  train base fc criterion adam dl (Some q) w
  = (Ok None, logged w [EvEnter Train (Some q)]).
Proof.
  intros Hq. apply Qle_bool_iff in Hq. unfold train, active, mbind, M_bind, emit.
  by rewrite Hq.
Qed.

Lemma test_inactive dl (q : Q) w :
  (q <= 0)%Q →
  test base fc criterion dl (Some q) w
  = (Ok None, logged w [EvEnter Test (Some q)]).
Proof.
  intros Hq. apply Qle_bool_iff in Hq. unfold test, active, mbind, M_bind, emit.
  by rewrite Hq.
Qed.

Lemma train_active dl (max_steps : option Q) (b : bound) w :
  active max_steps = Some b →
  train base fc criterion adam dl max_steps w
  = match train_loop base fc criterion adam b 1 dl zero_totals
            (entered Train max_steps true w) with
    | (Ok t, w') =>
        (match py_div (total_loss t) (Z.of_nat (total_samples t)) with
         | Ok mean_loss => Ok (Some mean_loss)
         | Raise e => Raise e
         end, w')
    | (Raise e, w') => (Raise e, w')
    end.
Proof.
  unfold train. intros ->.
  unfold mbind, M_bind, emit, set_mode, lift, mret, M_ret, entered. simpl.
  destruct (train_loop _ _ _ _ _ _ _ _ _) as [[t'|e] w']; [|done].
  by destruct (py_div _ _).
Qed.

Lemma test_active dl (max_steps : option Q) (b : bound) w :
  active max_steps = Some b →
  test base fc criterion dl max_steps w
  = match test_loop base fc criterion b 1 dl zero_totals
            (entered Test max_steps false w) with
    | (Ok t, w') =>
        (match py_div (total_loss t) (Z.of_nat (total_samples t)) with
         | Ok mean_loss =>
             match py_div (total_correct t) (Z.of_nat (total_samples t)) with
             | Ok accuracy => Ok (Some (mean_loss, accuracy))
             | Raise e => Raise e
             end
         | Raise e => Raise e
         end, w')
    | (Raise e, w') => (Raise e, w')
    end.
Proof.
  unfold test. intros ->.
  unfold mbind, M_bind, emit, set_mode, lift, mret, M_ret, entered. simpl.
  destruct (test_loop _ _ _ _ _ _ _ _) as [[t'|e] w']; [|done].
  destruct (py_div (total_loss _) _); [|done]. by destruct (py_div _ _).
Qed.

Lemma active_run_length (max_steps : option Q) (b : bound) dl :
  active max_steps = Some b →
  run_length b 1 dl = capped max_steps (length (items dl)).
Proof.
  unfold active, capped. destruct max_steps as [q|].
  - destruct (Qle_bool q 0) eqn:Hq; [done|]. intros [= <-].
    rewrite run_length_finite.
    + f_equal. lia.
    + apply Qlt_le_weak, Qnot_le_lt. intros Hle. apply Qle_bool_iff in Hle. congruence.
  - intros [= <-]. apply run_length_inf.
Qed.

Lemma train_run dl (max_steps : option Q) w :
  nonempty_batches dl →
  ∃ r w' evs,
    train base fc criterion adam dl max_steps w = (r, w') ∧
    trace w' = trace w ++ EvEnter Train max_steps :: evs ∧
    iterations Train evs = capped max_steps (length (items dl)) ∧
    iterations Test evs = 0 ∧
    train_entries evs = [] ∧
    Forall (progress_ok Train) evs ∧
    (active max_steps = None → r = Ok None) ∧
    (∀ b e, active max_steps = Some b → loop_end b 1 dl = Some e → r = Raise e) ∧
    (∀ b, active max_steps = Some b → loop_end b 1 dl = None →
       if decide (seen max_steps dl = 0) then r = Raise ZeroDivisionError
       else ∃ mean_loss, r = Ok (Some mean_loss)).
Proof.
  intros Hne. destruct (active max_steps) as [b|] eqn:Hact.
  - rewrite (train_active dl max_steps b w Hact).
    destruct (train_loop_run b 1 dl zero_totals (entered Train max_steps true w))
      as (t' & w' & evs & -> & Htrace & _ & Hit & Hitt & Hent & Hsum & Hprog);
      [lia|done|].
    rewrite (active_run_length _ _ _ Hact) in Hit, Hsum. simpl in Hsum, Htrace.
    destruct (loop_end b 1 dl) as [e|] eqn:Hend.
    + exists (Raise e), w', evs. rewrite Htrace, <-app_assoc.
      split_and!; try done; intros; simplify_eq; congruence.
    + eexists _, w', evs. split; [done|]. rewrite Htrace, <-app_assoc.
      split_and!; try done; [intros; simplify_eq; congruence|].
      intros ? _ _. fold (seen max_steps dl) in Hsum.
      rewrite Hsum. case_decide as Hz.
      * by rewrite Hz.
      * rewrite py_div_nonzero by lia. by eexists.
  - destruct max_steps as [q|]; [|done]. simpl in Hact.
    destruct (Qle_bool q 0) eqn:Hq; [|done]. apply Qle_bool_iff in Hq.
    rewrite train_inactive by done. eexists (Ok None), _, [].
    split_and!; try done. unfold capped. apply Qle_bool_iff in Hq. by rewrite Hq.
Qed.

Lemma test_run dl (max_steps : option Q) w :
  nonempty_batches dl →
  ∃ r evs,
    test base fc criterion dl max_steps w
    = (r, logged (if active max_steps then entered Test max_steps false w
                  else logged w [EvEnter Test max_steps]) evs) ∧
    iterations Test evs = capped max_steps (length (items dl)) ∧
    iterations Train evs = 0 ∧
    train_entries evs = [] ∧
    Forall (progress_ok Test) evs ∧
    (active max_steps = None → r = Ok None) ∧
    (∀ b e, active max_steps = Some b → loop_end b 1 dl = Some e → r = Raise e) ∧
    (∀ b, active max_steps = Some b → loop_end b 1 dl = None →
       if decide (seen max_steps dl = 0) then r = Raise ZeroDivisionError
       else ∃ mean_loss accuracy, r = Ok (Some (mean_loss, accuracy))).
Proof.
  intros Hne. destruct (active max_steps) as [b|] eqn:Hact.
  - rewrite (test_active dl max_steps b w Hact).
    destruct (test_loop_run b 1 dl zero_totals (entered Test max_steps false w))
      as (t' & evs & -> & Hit & Hitt & Hent & Hsum & Hprog); [lia|done|].
    rewrite (active_run_length _ _ _ Hact) in Hit, Hsum. simpl in Hsum.
    destruct (loop_end b 1 dl) as [e|] eqn:Hend.
    + exists (Raise e), evs.
      split_and!; try done; intros; simplify_eq; congruence.
    + eexists _, evs. split; [done|].
      split_and!; try done; [intros; simplify_eq; congruence|].
      intros ? _ _. fold (seen max_steps dl) in Hsum.
      rewrite Hsum. case_decide as Hz.
      * by rewrite Hz.
      * rewrite !py_div_nonzero by lia. by eexists _, _.
  - destruct max_steps as [q|]; [|done]. simpl in Hact.
    destruct (Qle_bool q 0) eqn:Hq; [|done]. apply Qle_bool_iff in Hq.
    rewrite test_inactive by done. exists (Ok None), [].
    rewrite logged_nil. split_and!; try done.
    unfold capped. apply Qle_bool_iff in Hq. by rewrite Hq.
Qed.
End loop_facts.

(** ** Step caps *)

Lemma whole_steps_ge_1 (q : Q) : (1 <= q)%Q → 1 ≤ whole_steps q.
Proof.
  intros Hq. unfold whole_steps. apply Qfloor_resp_le in Hq.
  change (Qfloor 1) with 1%Z in Hq. lia.
Qed.

Lemma whole_steps_lt (q : Q) (n : nat) :
  (0 <= q)%Q → (q < Q_of_nat n)%Q → whole_steps q < n.
Proof.
  intros Hq0 Hq. unfold whole_steps, Q_of_nat in *.
  apply Qfloor_resp_le in Hq0. change (Qfloor 0) with 0%Z in Hq0.
  assert (Qfloor q < Z.of_nat n)%Z; [|lia].
  rewrite Zlt_Qlt. eapply Qle_lt_trans; [apply Qfloor_le|done].
Qed.

Lemma capped_positive (q : Q) (n : nat) :
  (0 < q)%Q → capped (Some q) n = Nat.min (whole_steps q) n ∧
              active (Some q) = Some (finite q).
Proof.
  intros Hq. unfold capped, active. destruct (Qle_bool q 0) eqn:Hle; [|done].
  apply Qle_bool_iff in Hle. exfalso. by apply (Qlt_not_le _ _ Hq).
Qed.

Lemma capped_nonpositive (q : Q) (n : nat) :
  (q <= 0)%Q → capped (Some q) n = 0 ∧ active (Some q) = None.
Proof.
  intros Hq. apply Qle_bool_iff in Hq. unfold capped, active. by rewrite Hq.
Qed.

Lemma iterations_enter (fn fn' : loop_name) (max_steps : option Q) (evs : list event) :
  iterations fn (EvEnter fn' max_steps :: evs) = iterations fn evs.
Proof. unfold iterations. by destruct fn. Qed.

(** C1 (amended). For every loader without empty batches and every step
    cap: without a cap the loops of [train] and [test] run once per
    available batch; with a cap [q <= 0] they run zero iterations and return
    at once without error; with a cap [q > 0] they run exactly
    min(floor(q), available batches) iterations; and a cap of at least 1
    below the number of available batches ends the pass after floor(q)
    iterations without error. *)
Theorem step_cap_iterations {Params OptState} base fc criterion adam
    (dl : iterator Batch) (max_steps : option Q) (w : World Params OptState) :
  nonempty_batches dl →
  let n := length (items dl) in
  let trained := train base fc criterion adam dl max_steps w in
  let tested := test base fc criterion dl max_steps w in
  let train_steps k :=
    iterations Train (trace trained.2) = iterations Train (trace w) + k in
  let test_steps k :=
    iterations Test (trace tested.2) = iterations Test (trace w) + k in
  (max_steps = None → train_steps n ∧ test_steps n) ∧
  (∀ q, max_steps = Some q → (q <= 0)%Q →
     train_steps 0 ∧ test_steps 0 ∧ trained.1 = Ok None ∧ tested.1 = Ok None) ∧
  (∀ q, max_steps = Some q → (0 < q)%Q →
     train_steps (Nat.min (whole_steps q) n) ∧
     test_steps (Nat.min (whole_steps q) n)) ∧
  (∀ q, max_steps = Some q → (1 <= q)%Q → (q < Q_of_nat n)%Q →
     whole_steps q < n ∧
     train_steps (whole_steps q) ∧ test_steps (whole_steps q) ∧
     is_ok trained.1 = true ∧ is_ok tested.1 = true).
Proof.
  intros Hne n trained tested train_steps test_steps. subst n.
  set (n := length (items dl)) in *.
  destruct (train_run base fc criterion adam dl max_steps w Hne)
    as (r1 & w1 & evs1 & Htrain & Htr1 & Hit1 & _ & _ & _ & Hnone1 & _ & Hok1).
  destruct (test_run base fc criterion dl max_steps w Hne)
    as (r2 & evs2 & Htest & Hit2 & _ & _ & _ & Hnone2 & _ & Hok2).
  assert (Hcount1 : train_steps (capped max_steps n)).
  { subst train_steps trained. cbv beta. rewrite Htrain. simpl.
    by rewrite Htr1, iterations_app, iterations_enter, Hit1. }
  assert (Hcount2 : test_steps (capped max_steps n)).
  { subst test_steps tested. cbv beta. rewrite Htest.
    destruct (active max_steps); simpl;
      by rewrite !iterations_app, Hit2, Nat.add_0_r. }
  split_and!.
  - intros ->. done.
  - intros q -> Hq. destruct (capped_nonpositive q n Hq) as [Hc Ha].
    rewrite Hc in Hcount1, Hcount2. subst trained tested.
    rewrite Htrain, Htest. simpl. auto.
  - intros q -> Hq. destruct (capped_positive q n Hq) as [Hc _].
    by rewrite Hc in Hcount1, Hcount2.
  - intros q -> Hq1 Hqn.
    assert (0 < q)%Q as Hq0 by (eapply Qlt_le_trans; [|exact Hq1]; done).
    destruct (capped_positive q n Hq0) as [Hc Ha].
    pose proof (whole_steps_ge_1 q Hq1) as Hge.
    pose proof (whole_steps_lt q n (Qlt_le_weak _ _ Hq0) Hqn) as Hlt.
    rewrite Nat.min_l in Hc by lia. rewrite Hc in Hcount1, Hcount2.
    assert (loop_end (finite q) 1 dl = None) as Hend.
    { rewrite loop_end_run_length, (active_run_length _ _ _ Ha).
      fold n. rewrite Hc. by rewrite decide_True. }
    assert (seen (Some q) dl ≠ 0) as Hseen.
    { unfold seen. fold n. rewrite Hc.
      pose proof (sum_samples_pos (whole_steps q) dl Hne Hge) as Hpos.
      fold n in Hpos. lia. }
    specialize (Hok1 _ Ha Hend). specialize (Hok2 _ Ha Hend).
    rewrite decide_False in Hok1, Hok2 by done.
    destruct Hok1 as [m ->]. destruct Hok2 as (m' & a' & ->).
    subst trained tested. rewrite Htrain, Htest. by split_and!.
Qed.

(** A cap of 5/2 on three batches: two iterations. *)
Lemma step_cap_iterations_witness :
  let dl := of_list [demo_batch; demo_batch; demo_batch] in
  nonempty_batches dl ∧
  iterations Train
    (trace (train demo_base demo_fc demo_criterion demo_adam dl (Some (5 # 2))
              demo_world).2)
  = 0 + Nat.min (whole_steps (5 # 2)) 3.
Proof.
  intros dl.
  assert (Hne : nonempty_batches dl).
  { unfold nonempty_batches. simpl. repeat constructor. }
  split; [exact Hne|].
  destruct (step_cap_iterations demo_base demo_fc demo_criterion demo_adam dl
              (Some (5 # 2)) demo_world Hne) as (_ & _ & Hpos & _).
  exact (proj1 (Hpos (5 # 2) eq_refl eq_refl)).
Defined.

(** C1 as worded fails for a cap of 1/2 on a loader with one batch: the cap
    is below the number of available batches, yet [train] runs no iteration,
    which is not min(1/2, 1), and ends with [ZeroDivisionError]. *)
Lemma step_cap_counterexample :
  let dl := of_list [demo_batch] in
  let trained :=
    train demo_base demo_fc demo_criterion demo_adam dl (Some (1 # 2)) demo_world in
  nonempty_batches dl ∧
  ((1 # 2) < Q_of_nat (length (items dl)))%Q ∧
  trained.1 = Raise ZeroDivisionError ∧
  iterations Train (trace trained.2) = 0 ∧
  ¬ (Q_of_nat (iterations Train (trace trained.2))
     == Qmin (1 # 2) (Q_of_nat (length (items dl))))%Q.
Proof.
  split_and!.
  - unfold nonempty_batches. simpl. repeat constructor.
  - reflexivity.
  - vm_compute. reflexivity.
  - vm_compute. reflexivity.
  - vm_compute. discriminate.
Qed.

(** ** Progress lines *)

Lemma capped_le (max_steps : option Q) (n : nat) : capped max_steps n ≤ n.
Proof.
  unfold capped. destruct max_steps as [q|]; [|done].
  destruct (Qle_bool q 0); lia.
Qed.

Lemma capped_active (max_steps : option Q) (n : nat) :
  1 ≤ capped max_steps n → ∃ b, active max_steps = Some b.
Proof.
  unfold capped, active. destruct max_steps as [q|]; [|by eexists].
  destruct (Qle_bool q 0); [lia|by eexists].
Qed.

(** C6. In [train] and in [test], on every loader without empty batches,
    each progress line is printed in an iteration that is a positive
    multiple of the cadence of 100, so after at least one batch, and the
    sample count it divides by is positive; the [for] loops, where the
    running mean loss and the running accuracy are computed, raise nothing
    but what the loader raises; and so does the whole call once at least
    one batch has been processed. *)
Theorem progress_divisions_safe {Params OptState} base fc criterion adam
    (dl : iterator Batch) (max_steps : option Q) (w : World Params OptState) :
  nonempty_batches dl →
  (∃ evs,
     trace (train base fc criterion adam dl max_steps w).2 = trace w ++ evs ∧
     Forall (progress_ok Train) evs) ∧
  (∃ evs,
     trace (test base fc criterion dl max_steps w).2 = trace w ++ evs ∧
     Forall (progress_ok Test) evs) ∧
  (∀ b i t e, 1 ≤ i →
     (train_loop base fc criterion adam b i dl t w).1 = Raise e →
     ending dl = Some e) ∧
  (∀ b i t e, 1 ≤ i →
     (test_loop base fc criterion b i dl t w).1 = Raise e →
     ending dl = Some e) ∧
  (1 ≤ capped max_steps (length (items dl)) →
   ∀ e, (train base fc criterion adam dl max_steps w).1 = Raise e
        ∨ (test base fc criterion dl max_steps w).1 = Raise e →
        ending dl = Some e).
Proof.
  intros Hne. split_and!.
  - destruct (train_run base fc criterion adam dl max_steps w Hne)
      as (r & w' & evs & -> & Htr & _ & _ & _ & Hprog & _).
    eexists. split; [exact Htr|]. by apply Forall_cons.
  - destruct (test_run base fc criterion dl max_steps w Hne)
      as (r & evs & -> & _ & _ & _ & Hprog & _).
    destruct (active max_steps); simpl.
    + rewrite <-app_assoc. eexists. split; [done|]. by apply Forall_cons.
    + rewrite <-app_assoc. eexists. split; [done|]. by apply Forall_cons.
  - intros b i t e Hi.
    destruct (train_loop_run base fc criterion adam b i dl t w Hi Hne)
      as (t' & w' & evs & -> & _). simpl. rewrite loop_end_run_length.
    case_decide; [done|]. destruct (ending dl); [|done]. by intros [= ->].
  - intros b i t e Hi.
    destruct (test_loop_run base fc criterion b i dl t w Hi Hne)
      as (t' & evs & -> & _). simpl. rewrite loop_end_run_length.
    case_decide; [done|]. destruct (ending dl); [|done]. by intros [= ->].
  - intros Hk e Hraise.
    destruct (capped_active _ _ Hk) as [b Hact].
    pose proof (capped_le max_steps (length (items dl))) as Hle.
    assert (seen max_steps dl ≠ 0) as Hseen.
    { unfold seen. pose proof (sum_samples_pos _ dl Hne Hk). lia. }
    destruct (train_run base fc criterion adam dl max_steps w Hne)
      as (r1 & w1 & evs1 & Htrain & _ & _ & _ & _ & _ & _ & Hr1 & Hok1).
    destruct (test_run base fc criterion dl max_steps w Hne)
      as (r2 & evs2 & Htest & _ & _ & _ & _ & _ & Hr2 & Hok2).
    rewrite Htrain, Htest in Hraise. simpl in Hraise.
    specialize (Hr1 b). specialize (Hr2 b). specialize (Hok1 b Hact).
    specialize (Hok2 b Hact). rewrite loop_end_run_length in *.
    case_decide.
    + rewrite decide_False in Hok1, Hok2 by done.
      destruct (Hok1 eq_refl) as [m ->]. destruct (Hok2 eq_refl) as (m' & a' & ->).
      by destruct Hraise.
    + destruct (ending dl) as [e'|].
      * rewrite (Hr1 e' Hact eq_refl), (Hr2 e' Hact eq_refl) in Hraise.
        destruct Hraise as [[= ->]|[= ->]]; done.
      * rewrite decide_False in Hok1, Hok2 by done.
        destruct (Hok1 eq_refl) as [m ->]. destruct (Hok2 eq_refl) as (m' & a' & ->).
        by destruct Hraise.
Qed.

(** One hundred batches: [test] prints one progress line, in iteration 100,
    dividing by 200 samples. *)
Lemma progress_divisions_safe_witness :
  let dl := of_list (replicate 100 demo_batch) in
  nonempty_batches dl ∧
  ∃ evs,
    trace (test demo_base demo_fc demo_criterion dl None demo_world).2
    = trace demo_world ++ evs ∧
    Forall (progress_ok Test) evs.
Proof.
  intros dl.
  assert (Hne : nonempty_batches dl).
  { unfold nonempty_batches, dl. rewrite items_of_list.
    apply Forall_replicate. vm_compute. repeat constructor. }
  split; [exact Hne|].
  exact (proj1 (proj2 (progress_divisions_safe demo_base demo_fc demo_criterion
                         demo_adam dl None demo_world Hne))).
Defined.

(** ** Evaluation *)

(** [argmax] returns the first position of a maximal score. *)
Lemma argmax_from_spec (row : list Q) (best : Q) (bi idx : nat) :
  bi < idx →
  let c := argmax_from best bi idx row in
  (c = bi ∧ Forall (fun u => (u <= best)%Q) row) ∨
  (idx ≤ c ∧ ∃ v, row !! (c - idx) = Some v ∧ (best < v)%Q ∧
     Forall (fun u => (u <= v)%Q) row ∧
     ∀ j u, j < c - idx → row !! j = Some u → (u < v)%Q).
Proof.
  revert best bi idx. induction row as [|x row IH]; intros best bi idx Hlt.
  - left. by split.
  - cbn [argmax_from]. destruct (Qle_bool x best) eqn:Hx.
    + apply Qle_bool_iff in Hx.
      destruct (IH best bi (S idx)) as [[Hc Hall]|(Hc & v & Hv & Hbv & Hall & Hfirst)];
        [lia| |].
      * left. split; [done|]. by apply Forall_cons.
      * right. split; [lia|]. exists v.
        replace (argmax_from best bi (S idx) row - idx)
          with (S (argmax_from best bi (S idx) row - S idx)) by lia.
        split_and!; [done|done| |].
        -- apply Forall_cons. split; [|done].
           apply Qlt_le_weak. by eapply Qle_lt_trans.
        -- intros [|j] u Hj; simpl.
           ++ intros [= <-]. by eapply Qle_lt_trans.
           ++ apply Hfirst. lia.
    + assert (best < x)%Q as Hbx.
      { apply Qnot_le_lt. intros Hle. apply Qle_bool_iff in Hle. congruence. }
      destruct (IH x idx (S idx)) as [[Hc Hall]|(Hc & v & Hv & Hxv & Hall & Hfirst)];
        [lia| |].
      * right. rewrite Hc. split; [lia|]. exists x. rewrite Nat.sub_diag.
        split_and!; [done|done| |].
        -- apply Forall_cons. split; [apply Qle_refl|done].
        -- intros j u Hj. lia.
      * right. split; [lia|]. exists v.
        replace (argmax_from x idx (S idx) row - idx)
          with (S (argmax_from x idx (S idx) row - S idx)) by lia.
        split_and!; [done| | |].
        -- by eapply Qlt_trans.
        -- apply Forall_cons. split; [by apply Qlt_le_weak|done].
        -- intros [|j] u Hj; simpl.
           ++ by intros [= <-].
           ++ apply Hfirst. lia.
Qed.

Lemma argmax_spec (row : list Q) :
  row ≠ [] →
  ∃ v, row !! argmax row = Some v ∧
       Forall (fun u => (u <= v)%Q) row ∧
       ∀ j u, j < argmax row → row !! j = Some u → (u < v)%Q.
Proof.
  destruct row as [|x row]; [done|]. intros _. unfold argmax.
  destruct (argmax_from_spec row x 0 1) as [[Hc Hall]|(Hc & v & Hv & Hxv & Hall & Hfirst)];
    [lia| |].
  - rewrite Hc. exists x. split_and!; [done| |intros; lia].
    apply Forall_cons. split; [apply Qle_refl|done].
  - exists v. destruct (argmax_from x 0 1 row) as [|c]; [lia|].
    simpl in *. rewrite Nat.sub_0_r in *. split_and!; [done| |].
    + apply Forall_cons. split; [by apply Qlt_le_weak|done].
    + intros [|j] u Hj; simpl; [by intros [= <-]|]. apply Hfirst. lia.
Qed.

(** The class [argmax] picks is the one that [top1] describes. *)
Lemma top1_argmax (row : list Q) (target : nat) :
  row ≠ [] → top1 row target = true ↔ argmax row = target.
Proof.
  intros Hrow. destruct (argmax_spec row Hrow) as (va & Ha & Hmax & Hfirst).
  unfold top1. split.
  - destruct (row !! target) as [v|] eqn:Ht; [|done].
    intros [Hall Hbefore]%andb_true_iff.
    rewrite forallb_forall in Hall, Hbefore.
    destruct (lt_eq_lt_dec (argmax row) target) as [[Hlt|Heq]|Hgt]; [|done|].
    + assert (In va (take target row)) as Hin.
      { apply list_elem_of_In, list_elem_of_lookup. exists (argmax row).
        by rewrite lookup_take_lt. }
      apply Hbefore in Hin. apply negb_true_iff in Hin.
      rewrite Forall_forall in Hmax.
      assert (v <= va)%Q as Hle by (apply Hmax; by eapply list_elem_of_lookup_2).
      apply Qle_bool_iff in Hle. congruence.
    + pose proof (Hfirst target v Hgt Ht) as Hlt.
      assert (In va row) as Hin
        by (apply list_elem_of_In; by eapply list_elem_of_lookup_2).
      apply Hall, Qle_bool_iff in Hin. by destruct (Qlt_not_le _ _ Hlt).
  - intros <-. rewrite Ha. apply andb_true_iff. split; apply forallb_forall.
    + intros u Hu%list_elem_of_In. rewrite Forall_forall in Hmax.
      by apply Qle_bool_iff, Hmax.
    + intros u [j Hj]%list_elem_of_In%list_elem_of_lookup.
      apply lookup_take_Some in Hj as [Hj Hlt].
      apply negb_true_iff, not_true_iff_false. rewrite Qle_bool_iff.
      apply Qlt_not_le. by eapply Hfirst.
Qed.

Lemma count_equal_top1 (outputs : list (list Q)) (targets : list nat) :
  Forall (fun row => row ≠ []) outputs →
  count_equal (argmax <$> outputs) targets = top1_hits outputs targets.
Proof.
  unfold count_equal. intros Hrows. revert targets.
  induction Hrows as [|row outputs Hrow _ IH]; intros [|target targets]; try done.
  rewrite fmap_cons. cbn [zip zip_with top1_hits]. rewrite filter_cons. simpl.
  pose proof (top1_argmax row target Hrow) as Htop.
  case_decide as Heq.
  - rewrite (proj2 Htop Heq). simpl. f_equal. apply IH.
  - destruct (top1 row target); [by destruct Heq; apply Htop|]. apply IH.
Qed.

Section test_facts.
Context {Params OptState : Type}.
Variable base : Params → bool → list Z * list Z * list Z → list Q.
Variable fc : Params → list Q → list Q.
Variable criterion : list (list Q) → list nat → Q.
Implicit Types (w : World Params OptState) (dl : iterator Batch).

(** On batches whose output rows are not empty, the count of [test] is the
    count of the top-1 hits. *)
Lemma batch_correct_top1 (θ : Params) (mode : bool) (batches : list Batch) :
  Forall (fun data => Forall (fun row => row ≠ [])
                        (batch_outputs base fc θ mode data)) batches →
  sum_list (batch_correct base fc θ mode <$> batches)
  = sum_list (batch_top1 base fc θ mode <$> batches).
Proof.
  induction 1 as [|data batches Hdata _ IH]; [done|].
  rewrite !fmap_cons. cbn [sum_list sum_list_with]. rewrite IH. f_equal.
  by apply count_equal_top1.
Qed.

Lemma test_frame dl (max_steps : option Q) w :
  let tested := test base fc criterion dl max_steps w in
  params tested.2 = params w ∧ opt_state tested.2 = opt_state w ∧
  ∃ evs, trace tested.2 = trace w ++ evs ∧
         Forall (fun ev => ∀ j, ev ≠ EvStep j) evs.
Proof.
  destruct (active max_steps) as [b|] eqn:Hact.
  - cbv zeta. rewrite (test_active base fc criterion dl max_steps b w Hact).
    destruct (test_loop_frame base fc criterion b 1 dl zero_totals
                (entered Test max_steps false w)) as (evs & Hw' & Hevs).
    destruct (test_loop _ _ _ _ _ _ _ _) as [[t'|e] w']; simpl in *; subst w';
      simpl; (split_and!; [done..|]); rewrite <-app_assoc;
      (eexists; split; [done|]); by apply Forall_cons.
  - destruct max_steps as [q|]; [|done]. simpl in Hact.
    destruct (Qle_bool q 0) eqn:Hq; [|done]. apply Qle_bool_iff in Hq.
    cbv zeta. rewrite test_inactive by done. simpl. split_and!; [done..|].
    eexists. split; [done|]. by apply Forall_singleton.
Qed.

Lemma test_returns_pair dl (max_steps : option Q) w (mean_loss accuracy : Q) :
  (test base fc criterion dl max_steps w).1 = Ok (Some (mean_loss, accuracy)) →
  let done_ := take (capped max_steps (length (items dl))) (items dl) in
  let n := sum_list (samples <$> done_) in
  0 < n ∧
  (accuracy
   == Q_of_nat (sum_list (batch_correct base fc (params w) false <$> done_))
      / Q_of_nat n)%Q ∧
  (mean_loss
   == sumQ (batch_loss base fc criterion (params w) false <$> done_) / Q_of_nat n)%Q.
Proof.
  destruct (active max_steps) as [b|] eqn:Hact.
  - rewrite (test_active base fc criterion dl max_steps b w Hact).
    destruct (test_loop _ _ _ _ _ _ _ _) as [[t'|e] w'] eqn:Hloop; [|done].
    apply test_loop_totals in Hloop as (Hs & Hc & Hl).
    rewrite (active_run_length _ _ _ Hact) in Hs, Hc, Hl. simpl in Hs, Hc, Hl.
    unfold py_div. case_decide as Hz; [done|]. simpl.
    intros [= <- <-]. cbv zeta. rewrite <-Hs. split; [lia|].
    change (inject_Z (Z.of_nat (total_samples t'))) with (Q_of_nat (total_samples t')).
    split.
    + rewrite Hc. by rewrite Qplus_0_l.
    + rewrite Hl. by rewrite Qplus_0_l.
  - destruct max_steps as [q|]; [|done]. simpl in Hact.
    destruct (Qle_bool q 0) eqn:Hq; [|done]. apply Qle_bool_iff in Hq.
    by rewrite test_inactive.
Qed.

Lemma test_total dl (max_steps : option Q) w :
  nonempty_batches dl → ending dl = None → items dl ≠ [] →
  (max_steps = None ∨ ∃ q, max_steps = Some q ∧ (1 <= q)%Q) →
  ∃ mean_loss accuracy,
    (test base fc criterion dl max_steps w).1 = Ok (Some (mean_loss, accuracy)).
Proof.
  intros Hne Hend Hitems Hcap.
  assert (1 ≤ length (items dl)) as Hn.
  { destruct (items dl); [done|simpl; lia]. }
  assert (∃ b, active max_steps = Some b ∧ 1 ≤ capped max_steps (length (items dl)))
    as (b & Hact & Hk).
  { destruct Hcap as [->|(q & -> & Hq)]; [by exists inf|].
    assert (0 < q)%Q as Hq0 by (eapply Qlt_le_trans; [|exact Hq]; done).
    destruct (capped_positive q (length (items dl)) Hq0) as [-> ->].
    exists (finite q). split; [done|]. pose proof (whole_steps_ge_1 q Hq). lia. }
  destruct (test_run base fc criterion dl max_steps w Hne)
    as (r & evs & -> & _ & _ & _ & _ & _ & _ & Hok).
  specialize (Hok b Hact). rewrite loop_end_run_length, Hend in Hok.
  assert (seen max_steps dl ≠ 0) as Hseen.
  { unfold seen. pose proof (sum_samples_pos _ dl Hne Hk Hn). lia. }
  destruct (decide (seen max_steps dl = 0)); [done|].
  simpl. apply Hok. by case_decide.
Qed.
End test_facts.

(** C7. For every model state, loader and cap, [test] leaves the
    parameters and the optimizer state as they were and takes no optimizer
    step, however it ends.  When it returns a pair, the accuracy is the
    number of processed samples whose first highest-scoring class equals the
    target divided by the number of processed samples, and the loss is the
    size-weighted mean of the batch losses; [argmax] is the first position
    of a maximal score, so on output rows with at least one class the
    samples counted are the top-1 hits: those whose score at the target is
    a highest score with no earlier equal.  On a loader that ends normally
    with at least one batch and no empty batch, with no cap or a cap of at
    least 1, it does return a pair. *)
Theorem test_keeps_parameters {Params OptState} base fc criterion
    (dl : iterator Batch) (max_steps : option Q) (w : World Params OptState) :
  let tested := test base fc criterion dl max_steps w in
  let done_ := take (capped max_steps (length (items dl))) (items dl) in
  let n := sum_list (samples <$> done_) in
  (params tested.2 = params w ∧ opt_state tested.2 = opt_state w ∧
   ∃ evs, trace tested.2 = trace w ++ evs ∧
          Forall (fun ev => ∀ j, ev ≠ EvStep j) evs) ∧
  (∀ mean_loss accuracy,
     tested.1 = Ok (Some (mean_loss, accuracy)) →
     0 < n ∧
     (accuracy
      == Q_of_nat (sum_list (batch_correct base fc (params w) false <$> done_))
         / Q_of_nat n)%Q ∧
     (mean_loss
      == sumQ (batch_loss base fc criterion (params w) false <$> done_)
         / Q_of_nat n)%Q) ∧
  (∀ row : list Q, row ≠ [] →
     ∃ v, row !! argmax row = Some v ∧
          Forall (fun u => (u <= v)%Q) row ∧
          ∀ j u, j < argmax row → row !! j = Some u → (u < v)%Q) ∧
  (nonempty_batches dl → ending dl = None → items dl ≠ [] →
   (max_steps = None ∨ ∃ q, max_steps = Some q ∧ (1 <= q)%Q) →
   ∃ mean_loss accuracy, tested.1 = Ok (Some (mean_loss, accuracy))) ∧
  (∀ mean_loss accuracy,
     tested.1 = Ok (Some (mean_loss, accuracy)) →
     Forall (fun data => Forall (fun row => row ≠ [])
                           (batch_outputs base fc (params w) false data)) done_ →
     (accuracy
      == Q_of_nat (sum_list (batch_top1 base fc (params w) false <$> done_))
         / Q_of_nat n)%Q).
Proof.
  cbv zeta. split; [|split; [|split; [|split]]].
  - apply test_frame.
  - intros mean_loss accuracy Hr. by apply test_returns_pair.
  - apply argmax_spec.
  - apply test_total.
  - intros mean_loss accuracy Hr Hrows.
    rewrite <-(batch_correct_top1 base fc (params w) false _ Hrows).
    by apply (test_returns_pair base fc criterion dl max_steps w mean_loss accuracy).
Qed.

(** Two batches of two samples each: one sample of each batch is a top-1
    hit, and the weight is still 0 afterwards. *)
Lemma test_keeps_parameters_witness :
  let dl := of_list [demo_batch; demo_batch] in
  let tested := test demo_base demo_fc demo_criterion dl None demo_world in
  tested.1 = Ok (Some (4 # 4, 2 # 4)) ∧ params tested.2 = 0%Z ∧
  (2 # 4 == Q_of_nat 2 / Q_of_nat 4)%Q ∧
  sum_list (batch_top1 demo_base demo_fc 0%Z false <$> [demo_batch; demo_batch]) = 2.
Proof.
  intros dl tested.
  assert (Hr : tested.1 = Ok (Some (4 # 4, 2 # 4))) by (vm_compute; reflexivity).
  destruct (test_keeps_parameters demo_base demo_fc demo_criterion dl None demo_world)
    as ((Hp & _) & _ & _ & _ & Hacc).
  split; [exact Hr|]. split; [exact Hp|]. split; [|reflexivity].
  apply (Hacc _ _ Hr). vm_compute. repeat constructor; discriminate.
Defined.

(** ** The per-record map function *)

Lemma classes_to_int_inv (train : iterator Record) (c2i : gmap string nat) :
  classes_to_int train = Ok c2i →
  ∃ labels,
    set (gen_map language_of train) = Ok labels ∧
    c2i = dict ((fun iy => (iy.2, iy.1)) <$> enumerate (sorted labels) 0).
Proof.
  unfold classes_to_int.
  destruct (set (gen_map language_of train)) as [labels|e]; simpl; [|done].
  intros [= <-]. by exists labels.
Qed.

(** The lengths of what the tokenizer returns for the call of
    [unpack_row]. *)
Lemma reference_tokenizer_lengths (pieces : string → list Z) (cls sep : Z)
    (text : string) (L : Z) :
  ∃ ids mask types,
    reference_tokenizer pieces cls sep text L max_length true
    = {| enc_input_ids := [ids]; enc_attention_mask := [mask];
         enc_token_type_ids := [types] |} ∧
    length mask = length ids ∧ length types = length ids ∧
    length ids
    = (if decide (3 ≤ L)%Z then Z.to_nat L
       else Nat.max (length (pieces text) + 2) (Z.to_nat L)).
Proof.
  unfold reference_tokenizer. eexists _, _, _. split; [done|].
  unfold pad_to. rewrite !length_app, !length_replicate. cbn [andb length].
  rewrite !length_app. cbn [length].
  case_bool_decide; case_decide; try lia; rewrite ?length_take; lia.
Qed.

(** C10 (amended). For every record with a translation whose language is a
    key of [classes_to_int], [unpack_row] returns a row whose
    [input_ids], [attention_mask] and [token_type_ids] have one common
    length and whose target is the index of the language, a number below
    the number of distinct training labels.  The common length is
    [MAX_LENGTH] when [MAX_LENGTH] is at least 3, with room for a word
    piece beside the two special tokens; below 3 the tokenizer cuts nothing
    and the length is that of the whole text with its special tokens, or
    [MAX_LENGTH] when that is larger. *)
Theorem unpack_row_shape (pieces : string → list Z) (cls sep : Z)
    (MAX_LENGTH : Z) (train : iterator Record) (c2i : gmap string nat)
    (x : Record) (lang text : string) :
  classes_to_int train = Ok c2i →
  x !! "translation" = Some text →
  x !! "language" = Some lang →
  lang ∈ dom c2i →
  ∃ row,
    unpack_row (reference_tokenizer pieces cls sep) MAX_LENGTH c2i x = Ok row ∧
    length (attention_mask row) = length (input_ids row) ∧
    length (token_type_ids row) = length (input_ids row) ∧
    ((3 ≤ MAX_LENGTH)%Z → Z.of_nat (length (input_ids row)) = MAX_LENGTH) ∧
    ((MAX_LENGTH < 3)%Z →
     length (input_ids row)
     = Nat.max (length (pieces text) + 2) (Z.to_nat MAX_LENGTH)) ∧
    c2i !! lang = Some (targets row) ∧
    0 ≤ targets row < size c2i ∧
    ∀ labels, set (gen_map language_of train) = Ok labels → size c2i = size labels.
Proof.
  intros Hc2i Htext Hlang [i Hi]%elem_of_dom.
  destruct (reference_tokenizer_lengths pieces cls sep text MAX_LENGTH)
    as (ids & mask & types & Henc & Hmask & Htypes & Hids).
  destruct (classes_to_int_inv _ _ Hc2i) as (labels & Hlabels & ->).
  eexists. unfold unpack_row, getitem. rewrite Htext, Hlang.
  cbn [mbind result_bind]. rewrite Henc, Hi.
  cbn [mbind result_bind enc_input_ids enc_attention_mask enc_token_type_ids
       reshape_flat concat input_ids attention_mask token_type_ids targets].
  rewrite !app_nil_r. split; [done|].
  cbn [input_ids attention_mask token_type_ids targets].
  split_and!; try done.
  - intros HL. rewrite Hids, decide_True by done. lia.
  - intros HL. rewrite Hids, decide_False by lia. done.
  - lia.
  - apply label_index_lookup in Hi; [|apply sorted_NoDup].
    rewrite label_index_size by apply sorted_NoDup. by eapply lookup_lt_Some.
  - intros labels' Hl'. rewrite Hlabels in Hl'. simplify_eq.
    rewrite label_index_size by apply sorted_NoDup. apply sorted_length.
Qed.

(** A record of language b, with the labels a and b and a length of 6. *)
Lemma unpack_row_shape_witness :
  ∃ row,
    unpack_row demo_tokenizer 6 {[ "a" := 0; "b" := 1 ]} (labelled "b" "bonjour")
    = Ok row ∧
    Z.of_nat (length (input_ids row)) = 6%Z ∧ targets row = 1.
Proof.
  destruct (unpack_row_shape (fun text => Z.of_nat <$> [String.length text; 7; 8])
              101 102 6
              (of_list [labelled "a" "x"; labelled "b" "y"; labelled "a" "z"])
              {[ "a" := 0; "b" := 1 ]} (labelled "b" "bonjour") "b" "bonjour")
    as (row & Hrow & _ & _ & Hids & _ & Htarget & _).
  - vm_compute. reflexivity.
  - reflexivity.
  - reflexivity.
  - apply elem_of_dom. by eexists.
  - exists row. split; [exact Hrow|]. split; [apply Hids; lia|].
    change ({[ "a" := 0; "b" := 1 ]} !! "b") with (Some 1) in Htarget.
    by injection Htarget.
Defined.

(** C10 as worded fails for a maximal length of 1: the text of the record
    has three word pieces, the tokenizer cannot cut them so that the two
    special tokens still fit, and the row has five ids. *)
Lemma unpack_row_shape_counterexample :
  ∃ row,
    unpack_row demo_tokenizer 1 {[ "a" := 0; "b" := 1 ]} (labelled "b" "bonjour")
    = Ok row ∧
    length (input_ids row) = 5 ∧ Z.of_nat (length (input_ids row)) ≠ 1%Z.
Proof.
  eexists. split; [vm_compute; reflexivity|]. split; [reflexivity|discriminate].
Qed.

(** ** Failures of the map function *)

Lemma gen_map_raises {A B} (f : A → result B) (it : iterator A)
    (pre post : list A) (x : A) (e : exn) (rows : list B) :
  items it = pre ++ x :: post →
  Forall2 (fun a r => f a = Ok r) pre rows →
  f x = Raise e →
  items (gen_map f it) = rows ∧ ending (gen_map f it) = Some e.
Proof.
  intros Hit Hpre Hx. revert it Hit.
  induction Hpre as [|a r pre rows Ha Hpre IH]; intros it Hit.
  - destruct it as [| |y rest]; simpl in Hit; [done..|]. simplify_eq.
    simpl. by rewrite Hx.
  - destruct it as [| |y rest]; simpl in Hit; [done..|]. simplify_eq.
    simpl. rewrite Ha. simpl. destruct (IH rest) as [-> ->]; done.
Qed.

Lemma samples_collate (rows : list Row) : samples (collate rows) = length rows.
Proof.
  unfold samples, collate. simpl. rewrite !length_zip, !length_fmap. lia.
Qed.

Lemma batches_from_nonempty (batch_size : nat) (pending : list Row)
    (it : iterator Row) :
  nonempty_batches (batches_from batch_size pending it).
Proof.
  unfold nonempty_batches. revert pending.
  induction it as [|e|r rest IH]; intros pending; simpl.
  - destruct pending as [|p pending]; simpl; [done|].
    apply Forall_singleton. rewrite samples_collate. simpl. lia.
  - done.
  - case_decide; [|apply IH]. simpl. apply Forall_cons. split; [|apply IH].
    rewrite samples_collate, length_app. simpl. lia.
Qed.

Lemma batches_from_ending (batch_size : nat) (pending : list Row)
    (it : iterator Row) (e : exn) :
  ending it = Some e → ending (batches_from batch_size pending it) = Some e.
Proof.
  revert pending. induction it as [|e'|r rest IH]; intros pending; simpl;
    [done|done|].
  intros Hend. case_decide; simpl; by apply IH.
Qed.

(** Every loader built by [DataLoader] is free of empty batches, in every
    pass. *)
Lemma DataLoader_nonempty (draws : nat → nat → nat) (dataset : DataPipe Row)
    (batch_size : Z) (num_workers : nat) (loader : Loader) :
  DataLoader draws dataset batch_size num_workers = Ok loader →
  ∀ k, nonempty_batches (loader k).
Proof.
  unfold DataLoader. case_decide; [done|]. intros [= <-] k.
  apply batches_from_nonempty.
Qed.

(** C8. When [unpack_row] raises on a record that reaches the map stage,
    the dataset delivers exactly the rows of the records before it and then
    raises the same exception: no row of a later record is delivered.  The
    loader built on the dataset ends with that exception, and a pass of
    [train] or of [test] over it ends with that exception instead of a
    result.  Both datasets of the notebook end in such a map stage. *)
Theorem unpack_row_failure_propagates {Params OptState} base fc criterion adam
    tokenizer (MAX_LENGTH : Z) (c2i : gmap string nat)
    (dp : DataPipe Record) (env : IterEnv) (pre post : list Record)
    (x : Record) (e : exn) (rows : list Row) (batch_size : nat)
    (w : World Params OptState) :
  let unpack := unpack_row tokenizer MAX_LENGTH c2i in
  let dataset := map dp unpack in
  let dl := batches_from batch_size [] (iter env dataset) in
  items (iter env dp) = pre ++ x :: post →
  Forall2 (fun a r => unpack a = Ok r) pre rows →
  unpack x = Raise e →
  (items (iter env dataset) = rows ∧ ending (iter env dataset) = Some e) ∧
  ending dl = Some e ∧
  (train base fc criterion adam dl None w).1 = Raise e ∧
  (test base fc criterion dl None w).1 = Raise e ∧
  (∀ train_data_pipe,
     get_train_dataset tokenizer MAX_LENGTH c2i train_data_pipe
     = map (sharding_filter (shuffle train_data_pipe 10000)) unpack) ∧
  (∀ test_data_pipe,
     get_test_dataset tokenizer MAX_LENGTH c2i test_data_pipe
     = map (sharding_filter test_data_pipe) unpack).
Proof.
  intros unpack dataset dl Hit Hpre Hx.
  destruct (gen_map_raises unpack (iter env dp) pre post x e rows Hit Hpre Hx)
    as [Hrows Hend].
  assert (Hdl : ending dl = Some e) by (by apply batches_from_ending).
  assert (Hne : nonempty_batches dl) by apply batches_from_nonempty.
  assert (Hloop : loop_end inf 1 dl = Some e).
  { rewrite loop_end_run_length, run_length_inf. by rewrite decide_False by lia. }
  split_and!; try done.
  - destruct (train_run base fc criterion adam dl None w Hne)
      as (r & w' & evs & -> & _ & _ & _ & _ & _ & _ & Hraise & _).
    simpl. by apply (Hraise inf).
  - destruct (test_run base fc criterion dl None w Hne)
      as (r & evs & -> & _ & _ & _ & _ & _ & Hraise & _).
    simpl. by apply (Hraise inf).
Qed.

(** Three test records; the language of the second is not a training
    label, so its row and the row of the third are never delivered. *)
Lemma unpack_row_failure_propagates_witness :
  let c2i : gmap string nat := {[ "a" := 0 ]} in
  let unpack := unpack_row demo_tokenizer 4 c2i in
  let source :=
    IterableWrapper
      (of_list [labelled "a" "x"; labelled "zz" "y"; labelled "a" "z"]) in
  let dataset := get_test_dataset demo_tokenizer 4 c2i source in
  unpack (labelled "zz" "y") = Raise (KeyError "zz") ∧
  length (items (iter demo_env dataset)) = 1 ∧
  ending (iter demo_env dataset) = Some (KeyError "zz") ∧
  (test demo_base demo_fc demo_criterion
     (batches_from 2 [] (iter demo_env dataset)) None demo_world).1
  = Raise (KeyError "zz").
Proof.
  intros c2i unpack source dataset.
  assert (Hx : unpack (labelled "zz" "y") = Raise (KeyError "zz"))
    by (vm_compute; reflexivity).
  destruct (unpack_row (demo_tokenizer) 4 c2i (labelled "a" "x")) as [r|] eqn:Hr;
    [|by vm_compute in Hr].
  destruct (unpack_row_failure_propagates demo_base demo_fc demo_criterion
              demo_adam demo_tokenizer 4 c2i (sharding_filter source) demo_env
              [labelled "a" "x"] [labelled "a" "z"] (labelled "zz" "y")
              (KeyError "zz") [r] 2 demo_world)
    as ((Hrows & Hend) & _ & _ & Htest & _).
  - reflexivity.
  - repeat constructor. exact Hr.
  - exact Hx.
  - split; [exact Hx|]. split; [|split; [exact Hend|exact Htest]].
    exact (f_equal length Hrows).
Defined.

(** ** Floats *)

Lemma iter_pos_invariant {A} (P : A → Prop) (f : A → A) :
  (∀ x, P x → P (f x)) → ∀ p x, P x → P (SpecFloat.iter_pos f p x).
Proof. intros Hf. induction p; simpl; auto. Qed.

Lemma shr_1_nonneg (mrs : shr_record) :
  (0 ≤ shr_m mrs)%Z → (0 ≤ shr_m (shr_1 mrs))%Z.
Proof. destruct mrs as [m r s]. simpl. destruct m as [|[p|p|]|[p|p|]]; simpl; lia. Qed.

Lemma shr_nonneg (mrs : shr_record) (e n : Z) :
  (0 ≤ shr_m mrs)%Z → (0 ≤ shr_m (shr mrs e n).1)%Z.
Proof.
  intros Hm. destruct n as [|p|p]; simpl; [done| |done].
  by apply (iter_pos_invariant (fun r => 0 ≤ shr_m r)%Z); [apply shr_1_nonneg|].
Qed.

Lemma shr_fexp_nonneg (m e : Z) (l : location) :
  (0 ≤ m)%Z → (0 ≤ shr_m (shr_fexp Float.prec Float.emax m e l).1)%Z.
Proof.
  intros Hm. unfold shr_fexp. apply shr_nonneg. by destruct l as [|[]].
Qed.

Lemma round_nearest_even_nonneg (m : Z) (l : location) :
  (0 ≤ m)%Z → (0 ≤ round_nearest_even m l)%Z.
Proof. intros Hm. destruct l as [|[]]; simpl; [done| |done|lia]. destruct (Z.even m); lia. Qed.

Lemma binary_round_aux_sign (s : bool) (m e : Z) (l : location) :
  (0 ≤ m)%Z →
  match binary_round_aux Float.prec Float.emax s m e l with
  | S754_zero s' | S754_infinity s' | S754_finite s' _ _ => s' = s
  | S754_nan => False
  end.
Proof.
  intros Hm. unfold binary_round_aux.
  pose proof (shr_fexp_nonneg m e l Hm) as H1.
  destruct (shr_fexp Float.prec Float.emax m e l) as [mrs' e']. simpl in H1.
  pose proof (shr_fexp_nonneg _ e' loc_Exact
                (round_nearest_even_nonneg _ (loc_of_shr_record mrs') H1)) as H2.
  destruct (shr_fexp Float.prec Float.emax _ e' loc_Exact) as [mrs'' e'']. simpl in H2.
  destruct (shr_m mrs'') as [|p|p]; [done| |lia]. by destruct (Z.leb _ _).
Qed.

Lemma binary_normalize_nonneg (z e : Z) :
  (0 ≤ z)%Z → float_nonneg (binary_normalize Float.prec Float.emax z e false) = true.
Proof.
  intros Hz. destruct z as [|p|p]; [done| |lia]. simpl. unfold binary_round.
  destruct (shl_align _ _ _) as [mz ez].
  pose proof (binary_round_aux_sign false (Zpos mz) ez loc_Exact) as Hs.
  destruct (binary_round_aux _ _ _ _ _ _); simpl; try rewrite Hs; done.
Qed.

Lemma binary_normalize_nonpos (z e : Z) :
  (z ≤ 0)%Z → float_nonpos (binary_normalize Float.prec Float.emax z e false) = true.
Proof.
  intros Hz. destruct z as [|p|p]; [done|lia|]. simpl. unfold binary_round.
  destruct (shl_align _ _ _) as [mz ez].
  pose proof (binary_round_aux_sign true (Zpos mz) ez loc_Exact) as Hs.
  destruct (binary_round_aux _ _ _ _ _ _); simpl; try rewrite Hs; done.
Qed.

(** *** The Float.value of a float *)
Lemma two_power_pos (e : Z) : (0 < 2 ^ e)%Q.
Proof. by apply Qpower_0_lt. Qed.

Lemma value_finite_pos (m : positive) (e : Z) : (0 < Float.value (S754_finite false m e))%Q.
Proof.
  simpl. apply Qmult_lt_0_compat; [|apply two_power_pos]. done.
Qed.

Lemma value_finite_neg (m : positive) (e : Z) : (Float.value (S754_finite true m e) < 0)%Q.
Proof.
  simpl. change (inject_Z (Z.neg m)) with (- inject_Z (Z.pos m))%Q.
  assert (- inject_Z (Z.pos m) * 2 ^ e == - (inject_Z (Z.pos m) * 2 ^ e))%Q as ->
    by ring.
  apply (Qopp_lt_compat 0). apply Qmult_lt_0_compat; [done|apply two_power_pos].
Qed.

Lemma pos_iter_xO (m d : positive) :
  Z.pos (Pos.iter xO m d) = (Z.pos m * 2 ^ Z.pos d)%Z.
Proof.
  induction d as [|d IH] using Pos.peano_ind.
  - simpl. lia.
  - rewrite Pos.iter_succ, Pos2Z.inj_xO, IH, Pos2Z.inj_succ, Z.pow_succ_r by lia. lia.
Qed.

Lemma shl_align_value (m : positive) (e e' : Z) :
  (e' ≤ e)%Z →
  (inject_Z (Z.pos (shl_align m e e').1) * 2 ^ e' == inject_Z (Z.pos m) * 2 ^ e)%Q.
Proof.
  intros Hle. unfold shl_align. destruct (e' - e)%Z as [|d|d] eqn:Hd; simpl.
  - by replace e' with e by lia.
  - lia.
  - rewrite pos_iter_xO. replace e with (Z.pos d + e')%Z by lia.
    rewrite Qpower_plus by done. rewrite inject_Z_mult, Zpower_Qpower by done.
    change (inject_Z 2) with 2%Q. ring.
Qed.

Lemma scaled_sign (D e : Z) (v : Q) :
  (inject_Z D * 2 ^ e == v)%Q →
  ((v <= 0)%Q → (D ≤ 0)%Z) ∧ ((0 <= v)%Q → (0 ≤ D)%Z).
Proof.
  intros Hv. pose proof (two_power_pos e) as Hp. split; intros Hs.
  - destruct (Z_le_gt_dec D 0) as [|Hgt]; [done|]. exfalso.
    assert (0 < inject_Z D)%Q as HD by (rewrite <-(Zlt_Qlt 0); lia).
    pose proof (Qmult_lt_0_compat _ _ HD Hp) as Hprod. rewrite Hv in Hprod.
    by apply (Qlt_not_le _ _ Hprod).
  - destruct (Z_le_gt_dec 0 D) as [|Hgt]; [done|]. exfalso.
    assert (0 < inject_Z (- D))%Q as HD by (rewrite <-(Zlt_Qlt 0); lia).
    pose proof (Qmult_lt_0_compat _ _ HD Hp) as Hprod.
    rewrite inject_Z_opp in Hprod.
    assert (- inject_Z D * 2 ^ e == - v)%Q as Hneg by (rewrite <-Hv; ring).
    rewrite Hneg in Hprod. apply (Qlt_not_le _ _ Hprod).
    apply (Qopp_le_compat 0) in Hs. exact Hs.
Qed.

Lemma inject_cond_Zopp (s : bool) (a : Z) :
  (inject_Z (cond_Zopp s a) == (if s then - (1) else 1) * inject_Z a)%Q.
Proof. destruct s; simpl; [rewrite inject_Z_opp|]; ring. Qed.

Lemma aligned_difference (sx sy : bool) (mx my : positive) (ex ey : Z) :
  let ez := Z.min ex ey in
  (inject_Z (cond_Zopp sx (Z.pos (shl_align mx ex ez).1)
             - cond_Zopp sy (Z.pos (shl_align my ey ez).1)) * 2 ^ ez
   == Float.value (S754_finite sx mx ex) - Float.value (S754_finite sy my ey))%Q.
Proof.
  intros ez. unfold Float.value.
  pose proof (shl_align_value mx ex ez ltac:(lia)) as Hx.
  pose proof (shl_align_value my ey ez ltac:(lia)) as Hy.
  unfold Z.sub. rewrite inject_Z_plus, inject_Z_opp, !inject_cond_Zopp.
  set (A := inject_Z (Z.pos (shl_align mx ex ez).1)) in *.
  set (B := inject_Z (Z.pos (shl_align my ey ez).1)) in *.
  transitivity ((if sx then - (1) else 1) * (A * 2 ^ ez)
                - (if sy then - (1) else 1) * (B * 2 ^ ez))%Q;
    [ring|].
  rewrite Hx, Hy. ring.
Qed.

Lemma SFsub_sign (x y : spec_float) :
  Float.isfinite x = true → Float.isfinite y = true →
  ((Float.value x <= Float.value y)%Q → float_nonpos (SFsub Float.prec Float.emax x y) = true) ∧
  ((Float.value y <= Float.value x)%Q → float_nonneg (SFsub Float.prec Float.emax x y) = true).
Proof.
  intros Hx Hy.
  destruct x as [sx|sx| |sx mx ex], y as [sy|sy| |sy my ey]; try done.
  - simpl. by destruct sx, sy.
  - simpl. destruct sy.
    + pose proof (value_finite_neg my ey) as Hneg. split; [|done].
      intros Hle. simpl in Hle, Hneg. by destruct (Qlt_not_le _ _ Hneg).
    + pose proof (value_finite_pos my ey) as Hpos. split; [done|].
      intros Hle. simpl in Hle, Hpos. by destruct (Qlt_not_le _ _ Hpos).
  - simpl SFsub. destruct sx.
    + pose proof (value_finite_neg mx ex) as Hneg. split; [done|].
      intros Hle. simpl in Hle, Hneg. by destruct (Qlt_not_le _ _ Hneg).
    + pose proof (value_finite_pos mx ex) as Hpos. split; [|done].
      intros Hle. simpl in Hle, Hpos. by destruct (Qlt_not_le _ _ Hpos).
  - pose proof (aligned_difference sx sy mx my ex ey) as Hdiff. cbv zeta in Hdiff.
    apply scaled_sign in Hdiff as [Hnp Hnn]. cbn [SFsub]. cbv zeta. split; intros Hle.
    + apply binary_normalize_nonpos, Hnp.
      apply (Qplus_le_l _ _ (Float.value (S754_finite sy my ey))). ring_simplify. exact Hle.
    + apply binary_normalize_nonneg, Hnn.
      apply (Qplus_le_l _ _ (Float.value (S754_finite sy my ey))). ring_simplify. exact Hle.
Qed.

Lemma both_signs_zero (x : spec_float) :
  float_nonneg x = true → float_nonpos x = true → Float.is_zero x = true.
Proof. destruct x as [s|s| |s m e]; simpl; try done; by destruct s. Qed.

Lemma SFmul_sign (x : spec_float) (my : positive) (ey : Z) :
  let z := SFmul Float.prec Float.emax x (S754_finite false my ey) in
  (float_nonneg x = true → float_nonneg z = true) ∧
  (float_nonpos x = true → float_nonpos z = true) ∧
  (Float.is_zero x = true → Float.is_zero z = true).
Proof.
  destruct x as [s|s| |s m e]; simpl; try done.
  - by destruct s.
  - pose proof (binary_round_aux_sign (xorb s false) (Z.pos (m * my)) (e + ey)
                  loc_Exact ltac:(lia)) as Hs.
    destruct (binary_round_aux _ _ _ _ _ _) as [s'|s'| |s' m' e']; simpl;
      try done; subst s'; by destruct s.
Qed.

Lemma SFdiv_core_nonneg (mx my : positive) (ex ey : Z) :
  (0 ≤ (SFdiv_core_binary Float.prec Float.emax (Z.pos mx) ex (Z.pos my) ey).1.1)%Z.
Proof.
  unfold SFdiv_core_binary.
  set (s := (ex - ey - _)%Z).
  set (m' := match s with Z.pos _ => Z.shiftl (Z.pos mx) s | 0%Z => Z.pos mx
             | Z.neg _ => 0%Z end).
  assert (0 ≤ m')%Z as Hm'.
  { subst m'. destruct s; [lia| |lia]. by apply Z.shiftl_nonneg. }
  destruct (Z.div_eucl m' (Z.pos my)) as [q r] eqn:Hdiv. simpl.
  assert (q = (m' / Z.pos my)%Z) as -> by (unfold Z.div; by rewrite Hdiv).
  apply Z.div_pos; lia.
Qed.

Lemma SFdiv_sign (x : spec_float) (my : positive) (ey : Z) :
  let z := SFdiv Float.prec Float.emax x (S754_finite false my ey) in
  (float_nonneg x = true → float_nonneg z = true) ∧
  (float_nonpos x = true → float_nonpos z = true) ∧
  (Float.is_zero x = true → Float.is_zero z = true).
Proof.
  destruct x as [s|s| |s m e]; simpl; try done.
  - by destruct s.
  - pose proof (SFdiv_core_nonneg m my e ey) as Hq.
    destruct (SFdiv_core_binary _ _ _ _ _ _) as [[mz ez] lz]. simpl in Hq.
    pose proof (binary_round_aux_sign (xorb s false) mz ez lz Hq) as Hs.
    destruct (binary_round_aux _ _ _ _ _ _) as [s'|s'| |s' m' e']; simpl;
      try done; subst s'; by destruct s.
Qed.

(** *** Integers that convert exactly *)
Lemma digits2_pos_size (p : positive) : digits2_pos p = Pos.size p.
Proof. induction p; simpl; congruence. Qed.

Lemma digits2_pos_bound (p : positive) (n : Z) :
  (Z.pos p < 2 ^ n)%Z → (0 ≤ n)%Z → (Z.pos (digits2_pos p) ≤ n)%Z.
Proof.
  intros Hp Hn. rewrite digits2_pos_size.
  pose proof (Pos.size_le p) as Hsize.
  apply Pos2Z.pos_le_pos in Hsize. rewrite Pos2Z.inj_pow, (Pos2Z.inj_xO p) in Hsize.
  assert (2 ^ Z.pos (Pos.size p) < 2 ^ (n + 1))%Z as Hlt.
  { rewrite Z.pow_add_r, Z.pow_1_r by lia. lia. }
  apply Z.pow_lt_mono_r_iff in Hlt; lia.
Qed.

Lemma digits2_pos_iter_xO (p k : positive) :
  digits2_pos (Pos.iter xO p k) = (digits2_pos p + k)%positive.
Proof.
  induction k as [|k IH] using Pos.peano_ind.
  - simpl. lia.
  - rewrite Pos.iter_succ. simpl. rewrite IH. lia.
Qed.

Lemma binary_round_aux_canonical (s : bool) (m : positive) (e : Z) :
  Z.pos (digits2_pos m) = Float.prec → (emin Float.prec Float.emax ≤ e)%Z →
  (e ≤ Float.emax - Float.prec)%Z →
  binary_round_aux Float.prec Float.emax s (Z.pos m) e loc_Exact = S754_finite s m e.
Proof.
  intros Hd Hlo Hhi. unfold binary_round_aux, shr_fexp, fexp. cbn [Zdigits2].
  rewrite Hd. unfold emin, Float.prec, Float.emax in *.
  replace (Z.max (53 + e - 53) (3 - 1024 - 53) - e)%Z with 0%Z by lia.
  cbn [shr shr_record_of_loc shr_m loc_of_shr_record round_nearest_even Zdigits2].
  rewrite Hd.
  replace (Z.max (53 + e - 53) (3 - 1024 - 53) - e)%Z with 0%Z by lia.
  cbn [shr shr_record_of_loc shr_m].
  by rewrite (proj2 (Z.leb_le e (1024 - 53)) Hhi).
Qed.

Lemma binary_round_small (s : bool) (p : positive) :
  (Z.pos p < 2 ^ 53)%Z →
  ∃ m e, binary_round Float.prec Float.emax s p 0 = S754_finite s m e ∧
         (inject_Z (Z.pos m) * 2 ^ e == inject_Z (Z.pos p))%Q.
Proof.
  intros Hp. pose proof (digits2_pos_bound p 53 Hp ltac:(lia)) as Hd.
  unfold binary_round, shl_align, fexp.
  unfold emin, Float.prec, Float.emax in *.
  destruct (Z.max (Z.pos (digits2_pos p) + 0 - 53) (3 - 1024 - 53) - 0)%Z
    as [|k|k] eqn:Hk; [| lia |].
  - exists p, 0%Z. split.
    + apply binary_round_aux_canonical; unfold emin, Float.prec, Float.emax; lia.
    + simpl. ring.
  - exists (Pos.iter xO p k), (Z.max (Z.pos (digits2_pos p) + 0 - 53) (3 - 1024 - 53)).
    split.
    + apply binary_round_aux_canonical; unfold emin, Float.prec, Float.emax;
        rewrite ?digits2_pos_iter_xO; lia.
    + rewrite pos_iter_xO, inject_Z_mult, Zpower_Qpower by done.
      replace (Z.max (Z.pos (digits2_pos p) + 0 - 53) (3 - 1024 - 53))
        with (- Z.pos k)%Z by lia.
      rewrite Qpower_opp. change (inject_Z 2) with 2%Q. field.
      apply Qpower_not_0. done.
Qed.

(** *** Truncation toward zero *)
Lemma py_int_floor (x : Q) : (0 <= x)%Q → py_int x = Qfloor x.
Proof.
  destruct x as [a b]. unfold Qle, py_int, Qfloor. simpl. intros Ha.
  apply Z.quot_div_nonneg; lia.
Qed.

Lemma py_int_negative (x : Q) : (x < 0)%Q → (py_int x <= 0)%Z.
Proof.
  destruct x as [a b]. unfold Qlt, py_int. simpl. intros Ha.
  pose proof (Z.quot_opp_l a (Z.pos b)) as Hopp.
  pose proof (Z.quot_pos (- a) (Z.pos b)) as Hpos. lia.
Qed.

Lemma py_int_inject (q : Q) (z : Z) : (q == inject_Z z)%Q → py_int q = z.
Proof.
  unfold Qeq, py_int. simpl. intros Hq. rewrite Z.mul_1_r in Hq. rewrite Hq.
  apply Z.quot_mul. done.
Qed.

Lemma py_int_opp (q : Q) : py_int (- q) = (- py_int q)%Z.
Proof. unfold py_int. simpl. by rewrite Z.quot_opp_l. Qed.

Lemma py_int_toward_zero (q : Q) :
  ((0 <= q)%Q → (0 ≤ py_int q)%Z ∧ (inject_Z (py_int q) <= q)%Q ∧
                (q < inject_Z (py_int q) + 1)%Q) ∧
  ((q <= 0)%Q → (py_int q ≤ 0)%Z ∧ (q <= inject_Z (py_int q))%Q ∧
                (inject_Z (py_int q) - 1 < q)%Q).
Proof.
  assert (∀ x, (0 <= x)%Q → (0 ≤ py_int x)%Z ∧ (inject_Z (py_int x) <= x)%Q ∧
                             (x < inject_Z (py_int x) + 1)%Q) as Hpos.
  { intros x Hx. rewrite py_int_floor by done. split_and!.
    - apply Qfloor_resp_le in Hx. by change (Qfloor 0) with 0%Z in Hx.
    - apply Qfloor_le.
    - pose proof (Qlt_floor x) as Hlt. by rewrite inject_Z_plus in Hlt. }
  split; [apply Hpos|]. intros Hq.
  destruct (Hpos (- q)%Q) as (H0 & Hle & Hlt).
  { by apply (Qopp_le_compat q 0). }
  rewrite py_int_opp in H0, Hle, Hlt. rewrite inject_Z_opp in Hle, Hlt.
  split_and!.
  - lia.
  - apply Qopp_le_compat in Hle. by rewrite !Qopp_involutive in Hle.
  - apply Qopp_lt_compat in Hlt. rewrite Qopp_involutive in Hlt.
    eapply Qle_lt_trans; [|exact Hlt]. apply Qle_lteq. right. ring.
Qed.

(** *** The whole part of a float converts back exactly *)
Lemma iter_pos_Pos_iter {A} (f : A → A) (p : positive) (x : A) :
  SpecFloat.iter_pos f p x = Pos.iter f x p.
Proof.
  revert x. induction p as [p IH|p IH|]; intros x; simpl; [|by rewrite !IH|done].
  by rewrite !IH, <-!Pos.iter_swap.
Qed.

Lemma shr_shifted (m k : positive) :
  Pos.iter shr_1 {| shr_m := Z.pos (Pos.iter xO m k); shr_r := false; shr_s := false |} k
  = {| shr_m := Z.pos m; shr_r := false; shr_s := false |}.
Proof.
  induction k as [|k IH] using Pos.peano_ind; [done|].
  by rewrite Pos.iter_succ_r, Pos.iter_succ.
Qed.

Lemma canonical_digits (m : positive) (e : Z) :
  bounded Float.prec Float.emax m e = true →
  (Z.pos (digits2_pos m) ≤ 53)%Z ∧ (e ≤ 971)%Z ∧
  ((0 < e)%Z → Z.pos (digits2_pos m) = 53%Z).
Proof.
  unfold bounded, canonical_mantissa, fexp, emin, Float.prec, Float.emax.
  intros [Hc He]%andb_true_iff. apply Z.eqb_eq in Hc. apply Z.leb_le in He. lia.
Qed.

Lemma binary_round_shifted (s : bool) (m k : positive) :
  Z.pos (digits2_pos m) = 53%Z → (Z.pos k ≤ 971)%Z →
  binary_round Float.prec Float.emax s (Pos.iter xO m k) 0 = S754_finite s m (Z.pos k).
Proof.
  intros Hd Hk. unfold binary_round, shl_align, fexp.
  rewrite digits2_pos_iter_xO, Pos2Z.inj_add, Hd. unfold emin, Float.prec, Float.emax.
  replace (Z.max (53 + Z.pos k + 0 - 53) (3 - 1024 - 53) - 0)%Z with (Z.pos k) by lia.
  unfold binary_round_aux, shr_fexp, fexp. cbn [Zdigits2].
  rewrite digits2_pos_iter_xO, Pos2Z.inj_add, Hd. unfold emin.
  replace (Z.max (53 + Z.pos k + 0 - 53) (3 - 1024 - 53) - 0)%Z with (Z.pos k) by lia.
  cbn [shr shr_record_of_loc]. rewrite iter_pos_Pos_iter, shr_shifted.
  cbn [shr_m loc_of_shr_record round_nearest_even Zdigits2]. rewrite Hd.
  replace (Z.max (53 + (0 + Z.pos k) - 53) (3 - 1024 - 53) - (0 + Z.pos k))%Z
    with 0%Z by lia.
  cbn [shr shr_record_of_loc shr_m].
  by rewrite (proj2 (Z.leb_le (0 + Z.pos k) (1024 - 53)) ltac:(lia)).
Qed.

Lemma two_power_le_1 (e : Z) : (e ≤ 0)%Z → (2 ^ e <= 1)%Q.
Proof.
  intros He. change 1%Q with (2 ^ 0)%Q. by apply Qpower_le_compat_l.
Qed.

Lemma value_small (s : bool) (m : positive) (e : Z) :
  (Z.pos (digits2_pos m) ≤ 53)%Z → (e ≤ 0)%Z →
  (- inject_Z (2 ^ 53) < Float.value (S754_finite s m e))%Q ∧
  (Float.value (S754_finite s m e) < inject_Z (2 ^ 53))%Q.
Proof.
  intros Hd He.
  assert (Z.pos m < 2 ^ 53)%Z as Hm.
  { pose proof (Pos.size_gt m) as Hgt. rewrite <-digits2_pos_size in Hgt.
    apply Pos2Z.pos_lt_pos in Hgt. rewrite Pos2Z.inj_pow in Hgt.
    eapply Z.lt_le_trans; [exact Hgt|]. apply Z.pow_le_mono_r; lia. }
  assert (0 < inject_Z (Z.pos m) * 2 ^ e)%Q as Hpos.
  { apply Qmult_lt_0_compat; [done|apply two_power_pos]. }
  assert (inject_Z (Z.pos m) * 2 ^ e < inject_Z (2 ^ 53))%Q as Hlt.
  { eapply Qle_lt_trans; [|rewrite <-Zlt_Qlt; exact Hm].
    rewrite <-(Qmult_1_r (inject_Z (Z.pos m))) at 2.
    apply Qmult_le_l; [done|by apply two_power_le_1]. }
  assert (0 < inject_Z (2 ^ 53))%Q as H53 by done.
  unfold Float.value. destruct s; simpl cond_Zopp.
  - change (inject_Z (- Z.pos m)) with (- inject_Z (Z.pos m))%Q.
    assert (- inject_Z (Z.pos m) * 2 ^ e == - (inject_Z (Z.pos m) * 2 ^ e))%Q as ->
      by ring.
    split.
    + by apply Qopp_lt_compat.
    + eapply Qlt_trans; [|exact H53]. by apply (Qopp_lt_compat 0).
  - split; [|done]. eapply Qlt_trans; [|exact Hpos]. by apply (Qopp_lt_compat 0).
Qed.

(** *** Conversions between [int] and [float] *)

Lemma of_int_sign (z : Z) (y : spec_float) :
  Float.of_int z = Ok y →
  Float.isfinite y = true ∧
  ((0 ≤ z)%Z → float_nonneg y = true) ∧ ((z ≤ 0)%Z → float_nonpos y = true).
Proof.
  unfold Float.of_int. intros Hy.
  pose proof (binary_normalize_nonneg z 0) as Hnn.
  pose proof (binary_normalize_nonpos z 0) as Hnp.
  destruct (binary_normalize _ _ z 0 false) as [s|s| |s m e]; simplify_eq;
    [done| |done].
  exfalso. destruct (Z_le_gt_dec 0 z) as [Hz|Hz].
  - by specialize (Hnn Hz).
  - by specialize (Hnp ltac:(lia)).
Qed.

Lemma of_int_small (z : Z) :
  (- 2 ^ 53 < z < 2 ^ 53)%Z →
  ∃ y, Float.of_int z = Ok y ∧ Float.isfinite y = true ∧
       (Float.value y == inject_Z z)%Q ∧
       (z ≠ 0%Z → Float.is_zero y = false).
Proof.
  intros Hz. unfold Float.of_int.
  destruct z as [|p|p]; cbn [binary_normalize].
  - by exists (S754_zero false).
  - destruct (binary_round_small false p ltac:(lia)) as (m & e & -> & Hv).
    by eexists.
  - destruct (binary_round_small true p ltac:(lia)) as (m & e & -> & Hv).
    eexists. split; [done|]. split; [done|]. split; [|done]. simpl.
    change (inject_Z (Z.neg p)) with (- inject_Z (Z.pos p))%Q.
    rewrite inject_Z_opp, <-Hv. ring.
Qed.

(** [whole_epochs], the whole part of a float, is a float. *)
Lemma of_int_to_int (x : spec_float) :
  Float.valid x = true → Float.isfinite x = true →
  ∃ y, Float.of_int (py_int (Float.value x)) = Ok y ∧
       Float.isfinite y = true ∧
       (Float.value y == inject_Z (py_int (Float.value x)))%Q.
Proof.
  intros Hvalid Hfin. destruct x as [s|s| |s m e]; try done.
  - by exists (S754_zero false).
  - destruct (canonical_digits m e Hvalid) as (Hd & He & Hnormal).
    destruct (Z_le_gt_dec e 0) as [Hle|Hgt].
    + destruct (value_small s m e Hd Hle) as [Hlo Hhi].
      set (v := Float.value (S754_finite s m e)) in *.
      destruct (of_int_small (py_int v)) as (y & Hy & Hfy & Hvy & _);
        [|by exists y].
      destruct (py_int_toward_zero v) as [Hpos Hneg].
      destruct (Qlt_le_dec v 0) as [Hv|Hv].
      * destruct (Hneg (Qlt_le_weak _ _ Hv)) as (H0 & Hge & _).
        split; [|lia]. rewrite Zlt_Qlt, inject_Z_opp.
        eapply Qlt_le_trans; [exact Hlo|exact Hge].
      * destruct (Hpos Hv) as (H0 & Hle' & _).
        split; [lia|]. rewrite Zlt_Qlt.
        eapply Qle_lt_trans; [exact Hle'|exact Hhi].
    + destruct e as [|k|k]; [lia| |lia].
      assert (Float.value (S754_finite s m (Z.pos k))
              == inject_Z (cond_Zopp s (Z.pos (Pos.iter xO m k))))%Q as Hv.
      { unfold Float.value. rewrite !inject_cond_Zopp, pos_iter_xO, inject_Z_mult.
        rewrite Zpower_Qpower by done. change (inject_Z 2) with 2%Q. ring. }
      rewrite (py_int_inject _ _ Hv).
      exists (S754_finite s m (Z.pos k)). split; [|split; [done|exact Hv]].
      unfold Float.of_int.
      assert (binary_normalize Float.prec Float.emax
                (cond_Zopp s (Z.pos (Pos.iter xO m k))) 0 false
              = S754_finite s m (Z.pos k)) as ->; [|done].
      destruct s; simpl; apply binary_round_shifted; lia.
Qed.

(** *** Rounding

    One rounding to nearest changes a value in the normal range by at most
    the relative error [unit_roundoff]; so do a subtraction, a
    multiplication and a division of floats. *)
Section rounding.
Open Scope Z_scope.

Lemma located_record (m : Z) (l : location) :
  shr_m (shr_record_of_loc m l) = m ∧
  loc_of_shr_record (shr_record_of_loc m l) = l.
Proof. by destruct l as [|[]]. Qed.

Lemma shr_1_half (mrs : shr_record) :
  0 ≤ shr_m mrs → shr_m (shr_1 mrs) = shr_m mrs / 2.
Proof.
  destruct mrs as [m r s]. simpl. intros Hm.
  destruct m as [|[p|p|]|p]; simpl; [done| | |done|lia].
  - rewrite (Pos2Z.inj_xI p). apply (Z.div_unique _ _ _ 1); lia.
  - rewrite (Pos2Z.inj_xO p). apply (Z.div_unique _ _ _ 0); lia.
Qed.

Lemma shr_1_located (mrs : shr_record) (N D : Z) :
  0 ≤ shr_m mrs → 0 < D →
  located (shr_m mrs) (loc_of_shr_record mrs) N D →
  located (shr_m (shr_1 mrs)) (loc_of_shr_record (shr_1 mrs)) N (2 * D).
Proof.
  destruct mrs as [m r s]. simpl. intros Hm HD.
  destruct m as [|[p|p|]|p]; [| | | |lia].
  - destruct r, s; simpl; lia.
  - rewrite (Pos2Z.inj_xI p). destruct r, s; simpl; lia.
  - rewrite (Pos2Z.inj_xO p). destruct r, s; simpl; lia.
  - destruct r, s; simpl; lia.
Qed.

Lemma shr_iter_located (n : positive) (mrs : shr_record) (N D : Z) :
  0 ≤ shr_m mrs → 0 < D →
  located (shr_m mrs) (loc_of_shr_record mrs) N D →
  let mrs' := Pos.iter shr_1 mrs n in
  shr_m mrs' = shr_m mrs / 2 ^ Z.pos n ∧
  located (shr_m mrs') (loc_of_shr_record mrs') N (2 ^ Z.pos n * D).
Proof.
  intros Hm HD Hloc. cbv zeta.
  induction n as [|n IH] using Pos.peano_ind.
  - change (Pos.iter shr_1 mrs 1) with (shr_1 mrs). change (2 ^ 1) with 2.
    split; [by apply shr_1_half|by apply shr_1_located].
  - rewrite Pos.iter_succ. destruct IH as [IHm IHl].
    assert (0 ≤ shr_m (Pos.iter shr_1 mrs n)) as Hnn.
    { rewrite IHm. apply Z.div_pos; lia. }
    rewrite Pos2Z.inj_succ, Z.pow_succ_r by lia.
    split.
    + rewrite shr_1_half, IHm by done. rewrite Z.div_div by lia. f_equal. lia.
    + rewrite <-Z.mul_assoc. apply shr_1_located; [done|lia|done].
Qed.

Lemma round_nearest_even_located (m : Z) (l : location) (N D : Z) :
  0 < D → located m l N D →
  let m1 := round_nearest_even m l in
  m ≤ m1 ≤ m + 1 ∧ Z.abs (2 * (m1 * D - N)) ≤ D ∧ (l = loc_Exact → m1 * D = N).
Proof.
  intros HD Hloc. cbv zeta. destruct l as [|[]]; simpl in *.
  - split; [lia|]. split; [lia|done].
  - split; [destruct (Z.even m); lia|]. split; [|done]. destruct (Z.even m); lia.
  - split; [lia|]. split; [lia|done].
  - split; [lia|]. split; [lia|done].
Qed.

Lemma digits_bounds (p : positive) :
  2 ^ (Z.pos (digits2_pos p) - 1) ≤ Z.pos p < 2 ^ Z.pos (digits2_pos p).
Proof.
  rewrite digits2_pos_size. split.
  - pose proof (Pos.size_le p) as Hle. apply Pos2Z.pos_le_pos in Hle.
    rewrite Pos2Z.inj_pow, (Pos2Z.inj_xO p) in Hle.
    replace (Z.pos (Pos.size p)) with (Z.succ (Z.pos (Pos.size p) - 1)) in Hle by lia.
    rewrite Z.pow_succ_r in Hle by lia. lia.
  - pose proof (Pos.size_gt p) as Hgt. apply Pos2Z.pos_lt_pos in Hgt.
    by rewrite Pos2Z.inj_pow in Hgt.
Qed.

Lemma digits_le (p : positive) (n : Z) :
  Z.pos p < 2 ^ n → Z.pos (digits2_pos p) ≤ n.
Proof.
  intros Hp. destruct (Z_le_gt_dec (Z.pos (digits2_pos p)) n) as [|Hgt]; [done|].
  exfalso. pose proof (digits_bounds p) as [Hlo _].
  destruct (Z_le_gt_dec 0 n) as [Hn|Hn].
  - assert (2 ^ n ≤ 2 ^ (Z.pos (digits2_pos p) - 1)) by (apply Z.pow_le_mono_r; lia).
    lia.
  - rewrite Z.pow_neg_r in Hp by lia. lia.
Qed.

Lemma digits_ge (p : positive) (n : Z) :
  2 ^ n ≤ Z.pos p → n + 1 ≤ Z.pos (digits2_pos p).
Proof.
  intros Hp. destruct (Z_le_gt_dec (n + 1) (Z.pos (digits2_pos p))) as [|Hgt]; [done|].
  exfalso. pose proof (digits_bounds p) as [_ Hhi].
  assert (2 ^ Z.pos (digits2_pos p) ≤ 2 ^ n) by (apply Z.pow_le_mono_r; lia).
  lia.
Qed.

Lemma round_tail (s : bool) (m' e' : Z) (l' : location) (N D' : Z) :
  0 < D' → located m' l' N D' → 0 < m' < 2 ^ 53 →
  l' = loc_Exact ∨ 2 ^ 52 ≤ m' → -1074 ≤ e' ≤ 970 →
  ∃ mf j,
    (let '(mrs'', e'') :=
       shr_fexp Float.prec Float.emax (round_nearest_even m' l') e' loc_Exact in
     match shr_m mrs'' with
     | 0 => S754_zero s
     | Z.pos m => if e'' <=? Float.emax - Float.prec
                  then S754_finite s m e'' else S754_infinity s
     | Z.neg _ => S754_nan
     end) = S754_finite s mf (e' + j) ∧
    0 ≤ j ∧ Z.pos mf < 2 ^ 53 ∧
    Z.abs (Z.pos mf * 2 ^ j * D' - N) * 2 ^ 53 ≤ N.
Proof.
  intros HD Hloc Hm Hnormal He.
  destruct (round_nearest_even_located m' l' N D' HD Hloc) as (Hm1 & Herr & Hexact).
  set (m1 := round_nearest_even m' l') in *.
  assert (Z.abs (m1 * D' - N) * 2 ^ 53 ≤ N) as Hrel.
  { assert (m' * D' ≤ N) as Hlow by (destruct l' as [|[]]; simpl in Hloc; nia).
    assert (0 ≤ m' * D') as Hpos by nia.
    destruct Hnormal as [->|Hbig].
    { rewrite Hexact by done. replace (N - N) with 0 by lia. simpl. lia. }
    assert (2 ^ 52 * D' ≤ m' * D') by nia.
    change (2 ^ 53) with (2 * 2 ^ 52). lia. }
  destruct m1 as [|q|q] eqn:Hq; [lia| |lia].
  destruct (Z_lt_ge_dec (Z.pos q) (2 ^ 53)) as [Hlt|Hge].
  - exists q, 0. unfold shr_fexp, fexp, emin, Float.prec, Float.emax. cbn [Zdigits2].
    pose proof (digits_le q 53 Hlt) as Hd.
    destruct (Z.max (Z.pos (digits2_pos q) + e' - 53) (3 - 1024 - 53) - e')
      as [|n|n] eqn:Hn; [|lia|];
      cbn [shr shr_record_of_loc shr_m];
      rewrite (proj2 (Z.leb_le e' (1024 - 53)) ltac:(lia)), Z.add_0_r, Z.mul_1_r;
      (split; [done|split; [done|split; [done|exact Hrel]]]).
  - assert (q = 9007199254740992%positive) as -> by lia.
    exists 4503599627370496%positive, 1.
    unfold shr_fexp, fexp, emin, Float.prec, Float.emax. cbn [Zdigits2].
    change (Z.pos (digits2_pos 9007199254740992)) with 54.
    replace (Z.max (54 + e' - 53) (3 - 1024 - 53) - e') with 1 by lia.
    cbn [shr shr_record_of_loc shr_m iter_pos shr_1].
    rewrite (proj2 (Z.leb_le (e' + 1) (1024 - 53)) ltac:(lia)).
    split; [done|split; [done|split; [done|exact Hrel]]].
Qed.

Lemma binary_round_aux_close (s : bool) (m : positive) (e : Z) (l : location)
    (N D : Z) :
  0 < D → located (Z.pos m) l N D →
  l = loc_Exact ∨ 53 ≤ Z.pos (digits2_pos m) →
  -1074 ≤ Z.pos (digits2_pos m) + e - 53 →
  Z.max (Z.pos (digits2_pos m)) 53 + e ≤ 1023 →
  ∃ mf k,
    binary_round_aux Float.prec Float.emax s (Z.pos m) e l
    = S754_finite s mf (e + k) ∧
    0 ≤ k ∧ Z.pos mf < 2 ^ 53 ∧
    Z.abs (Z.pos mf * 2 ^ k * D - N) * 2 ^ 53 ≤ N.
Proof.
  intros HD Hloc Hdigits Hlow Hhigh. pose proof (digits_bounds m) as [Hlo Hhi].
  set (d := Z.pos (digits2_pos m)) in *.
  unfold binary_round_aux, shr_fexp at 1, fexp, emin, Float.prec, Float.emax.
  cbn [Zdigits2]. fold d.
  destruct (located_record (Z.pos m) l) as [Hrm Hrl].
  destruct (Z.max (d + e - 53) (3 - 1024 - 53) - e) as [|n|n] eqn:Hn;
    cbn [shr].
  - rewrite Hrm, Hrl.
    destruct (round_tail s (Z.pos m) e l N D HD Hloc) as (mf & j & Hres & ?);
      [| |lia|by exists mf, j].
    + split; [done|]. eapply Z.lt_le_trans; [exact Hhi|].
      apply Z.pow_le_mono_r; lia.
    + destruct Hdigits as [?|Hd]; [by left|right].
      eapply Z.le_trans; [|exact Hlo]. apply Z.pow_le_mono_r; lia.
  - rewrite iter_pos_Pos_iter.
    destruct (shr_iter_located n (shr_record_of_loc (Z.pos m) l) N D)
      as [Hm' Hloc']; [by rewrite Hrm|done|by rewrite Hrm, Hrl|].
    rewrite Hrm in Hm'.
    set (mrs' := Pos.iter shr_1 (shr_record_of_loc (Z.pos m) l) n) in *.
    assert (Z.pos n = d - 53) as Hnd by lia.
    assert (2 ^ 52 ≤ shr_m mrs' < 2 ^ 53) as [Hm52 Hm53].
    { rewrite Hm'. split.
      - apply Z.div_le_lower_bound; [lia|].
        rewrite <-Z.pow_add_r by lia. by replace (Z.pos n + 52) with (d - 1) by lia.
      - apply Z.div_lt_upper_bound; [lia|].
        rewrite <-Z.pow_add_r by lia. by replace (Z.pos n + 53) with d by lia. }
    destruct (round_tail s (shr_m mrs') (e + Z.pos n) (loc_of_shr_record mrs') N
                (2 ^ Z.pos n * D)) as (mf & j & Hres & Hj & Hmf & Herr);
      [lia|done|lia|by right|lia|].
    exists mf, (Z.pos n + j). split.
    { replace (e + (Z.pos n + j)) with (e + Z.pos n + j) by lia. exact Hres. }
    split; [lia|]. split; [done|].
    rewrite Z.pow_add_r by lia.
    replace (Z.pos mf * (2 ^ Z.pos n * 2 ^ j) * D)
      with (Z.pos mf * 2 ^ j * (2 ^ Z.pos n * D)) by ring.
    exact Herr.
  - rewrite Hrm, Hrl.
    destruct (round_tail s (Z.pos m) e l N D HD Hloc) as (mf & j & Hres & ?);
      [| |lia|by exists mf, j].
    + split; [done|]. eapply Z.lt_le_trans; [exact Hhi|].
      apply Z.pow_le_mono_r; lia.
    + destruct Hdigits as [?|Hd]; [by left|right].
      eapply Z.le_trans; [|exact Hlo]. apply Z.pow_le_mono_r; lia.
Qed.

Lemma within_of_error (mf : positive) (k e N D : Z) :
  0 ≤ k → 0 < D →
  Z.abs (Z.pos mf * 2 ^ k * D - N) * 2 ^ 53 ≤ N →
  within unit_roundoff (inject_Z (Z.pos mf) * 2 ^ (e + k))
    (inject_Z N / inject_Z D * 2 ^ e).
Proof.
  intros Hk HD Herr. set (A := Z.pos mf * 2 ^ k) in *. unfold within.
  assert (inject_Z (Z.pos mf) * 2 ^ (e + k) == inject_Z A * 2 ^ e)%Q as ->.
  { unfold A. rewrite Qpower_plus by done.
    rewrite inject_Z_mult, Zpower_Qpower by done. change (inject_Z 2) with 2%Q. ring. }
  pose proof (two_power_pos e) as He.
  assert (0 < inject_Z D)%Q as HDq by (rewrite <-(Zlt_Qlt 0); done).
  assert (inject_Z N * (1 - unit_roundoff) <= inject_Z A * inject_Z D)%Q as Hlo.
  { unfold Qle. simpl. lia. }
  assert (inject_Z A * inject_Z D <= inject_Z N * (1 + unit_roundoff))%Q as Hhi.
  { unfold Qle. simpl. lia. }
  split.
  - assert (inject_Z N / inject_Z D * 2 ^ e * (1 - unit_roundoff)
            == inject_Z N * (1 - unit_roundoff) / inject_Z D * 2 ^ e)%Q as ->.
    { field. lra. }
    apply Qmult_le_compat_r; [|lra]. apply Qle_shift_div_r; done.
  - assert (inject_Z N / inject_Z D * 2 ^ e * (1 + unit_roundoff)
            == inject_Z N * (1 + unit_roundoff) / inject_Z D * 2 ^ e)%Q as ->.
    { field. lra. }
    apply Qmult_le_compat_r; [|lra]. apply Qle_shift_div_l; done.
Qed.

Lemma magnitude_bounds (m : positive) (e a : Z) :
  let v := (inject_Z (Z.pos m) * 2 ^ e)%Q in
  ((2 ^ a <= v)%Q → a + 1 ≤ Z.pos (digits2_pos m) + e) ∧
  ((v < 2 ^ a)%Q → Z.pos (digits2_pos m) + e ≤ a).
Proof.
  cbv zeta. pose proof (digits_bounds m) as [Hlo Hhi].
  set (d := Z.pos (digits2_pos m)) in *.
  pose proof (two_power_pos e) as He.
  assert (2 ^ (d - 1 + e) <= inject_Z (Z.pos m) * 2 ^ e)%Q as Hlow.
  { rewrite Qpower_plus by done. apply Qmult_le_compat_r; [|lra].
    rewrite Zle_Qle, Zpower_Qpower in Hlo by lia. exact Hlo. }
  assert (inject_Z (Z.pos m) * 2 ^ e < 2 ^ (d + e))%Q as Hhigh.
  { rewrite Qpower_plus by done. apply Qmult_lt_compat_r; [done|].
    rewrite Zlt_Qlt, Zpower_Qpower in Hhi by lia. exact Hhi. }
  split; intros Hv.
  - destruct (Z_le_gt_dec (a + 1) (d + e)) as [|Hgt]; [done|]. exfalso.
    assert (2 ^ (d + e) <= 2 ^ a)%Q by (apply Qpower_le_compat_l; [lia|done]).
    lra.
  - destruct (Z_le_gt_dec (d + e) a) as [|Hgt]; [done|]. exfalso.
    assert (2 ^ a <= 2 ^ (d - 1 + e))%Q by (apply Qpower_le_compat_l; [lia|done]).
    lra.
Qed.

Lemma Qdiv_one (q : Q) : (q / inject_Z 1 == q)%Q.
Proof. change (inject_Z 1) with 1%Q. field. Qed.

Lemma binary_round_close (m : positive) (e : Z) :
  -1021 ≤ Z.pos (digits2_pos m) + e ≤ 1023 →
  ∃ mf ef,
    binary_round Float.prec Float.emax false m e = S754_finite false mf ef ∧
    Z.pos mf < 2 ^ 53 ∧
    within unit_roundoff (inject_Z (Z.pos mf) * 2 ^ ef) (inject_Z (Z.pos m) * 2 ^ e).
Proof.
  intros Hmag. unfold binary_round.
  pose proof (shl_align_value m e (fexp Float.prec Float.emax (Z.pos (digits2_pos m) + e))) as Hv.
  unfold shl_align, fexp, emin, Float.prec, Float.emax in *.
  set (d := Z.pos (digits2_pos m)) in *.
  replace (Z.max (d + e - 53) (3 - 1024 - 53)) with (d + e - 53) in * by lia.
  destruct (d + e - 53 - e) as [|n|n] eqn:Hn.
  - destruct (binary_round_aux_close false m e loc_Exact (Z.pos m) 1)
      as (mf & k & Hres & Hk & Hmf & Herr); [done|simpl; lia|by left|fold d; lia..|].
    exists mf, (e + k). split; [done|]. split; [done|].
    pose proof (within_of_error mf k e (Z.pos m) 1 Hk ltac:(done) Herr) as Hw.
    unfold within in *. by rewrite Qdiv_one in Hw.
  - destruct (binary_round_aux_close false m e loc_Exact (Z.pos m) 1)
      as (mf & k & Hres & Hk & Hmf & Herr); [done|simpl; lia|by left|fold d; lia..|].
    exists mf, (e + k). split; [done|]. split; [done|].
    pose proof (within_of_error mf k e (Z.pos m) 1 Hk ltac:(done) Herr) as Hw.
    unfold within in *. by rewrite Qdiv_one in Hw.
  - specialize (Hv ltac:(lia)). simpl in Hv.
    set (m0 := Pos.iter xO m n) in *.
    assert (Z.pos (digits2_pos m0) = 53) as Hd0.
    { unfold m0. rewrite digits2_pos_iter_xO. fold d. lia. }
    destruct (binary_round_aux_close false m0 (d + e - 53) loc_Exact (Z.pos m0) 1)
      as (mf & k & Hres & Hk & Hmf & Herr);
      [done|simpl; lia|by left|rewrite Hd0; lia..|].
    exists mf, (d + e - 53 + k). split; [done|]. split; [done|].
    pose proof (within_of_error mf k (d + e - 53) (Z.pos m0) 1 Hk ltac:(done) Herr) as Hw.
    unfold within in *. by rewrite Qdiv_one, Hv in Hw.
Qed.

Lemma SFmul_close (mx my : positive) (ex ey : Z) :
  53 ≤ Z.pos (digits2_pos (mx * my)) →
  -1021 ≤ Z.pos (digits2_pos (mx * my)) + (ex + ey) ≤ 1023 →
  ∃ mf ef,
    SFmul Float.prec Float.emax (S754_finite false mx ex) (S754_finite false my ey)
    = S754_finite false mf ef ∧
    Z.pos mf < 2 ^ 53 ∧
    within unit_roundoff (inject_Z (Z.pos mf) * 2 ^ ef)
      (inject_Z (Z.pos (mx * my)) * 2 ^ (ex + ey)).
Proof.
  intros Hd Hmag. cbn [SFmul xorb].
  destruct (binary_round_aux_close false (mx * my) (ex + ey) loc_Exact
              (Z.pos (mx * my)) 1)
    as (mf & k & Hres & Hk & Hmf & Herr); [done|simpl; lia|by left|lia..|].
  exists mf, (ex + ey + k). split; [done|]. split; [done|].
  pose proof (within_of_error mf k (ex + ey) (Z.pos (mx * my)) 1 Hk ltac:(done) Herr)
    as Hw.
  unfold within in *. by rewrite Qdiv_one in Hw.
Qed.

Lemma new_location_located (m' my : Z) :
  0 ≤ m' → 0 < my →
  located (m' / my) (new_location my (m' mod my)) m' my.
Proof.
  intros Hm Hmy. pose proof (Z.div_mod m' my ltac:(lia)) as Heq.
  pose proof (Z.mod_pos_bound m' my Hmy) as Hr.
  set (q := m' / my) in *. set (r := m' mod my) in *.
  unfold new_location, new_location_even, new_location_odd.
  destruct (Z.even my) eqn:Heven.
  - destruct (Z.eqb_spec r 0) as [Hr0|Hr0]; [simpl; lia|].
    destruct (Z.compare_spec (2 * r) my); simpl; lia.
  - destruct (Z.eqb_spec r 0) as [Hr0|Hr0]; [simpl; lia|].
    assert (Z.odd my = true) as [k Hk]%Z.odd_spec
      by (by rewrite <-Z.negb_even, Heven).
    destruct (Z.compare_spec (2 * r + 1) my); simpl; lia.
Qed.

Lemma SFdiv_close (mx my : positive) (ex ey : Z) :
  Z.pos mx < 2 ^ 53 →
  -1021 ≤ Z.pos (digits2_pos mx) + ex - (Z.pos (digits2_pos my) + ey) ≤ 1022 →
  ∃ mf ef,
    SFdiv Float.prec Float.emax (S754_finite false mx ex) (S754_finite false my ey)
    = S754_finite false mf ef ∧
    Z.pos mf < 2 ^ 53 ∧
    within unit_roundoff (inject_Z (Z.pos mf) * 2 ^ ef)
      (inject_Z (Z.pos mx) * 2 ^ ex / (inject_Z (Z.pos my) * 2 ^ ey)).
Proof.
  intros Hmx Hmag. pose proof (digits_le mx 53 Hmx) as Hdx.
  pose proof (digits_bounds mx) as [Hxlo Hxhi].
  pose proof (digits_bounds my) as [Hylo Hyhi].
  cbn [SFdiv xorb]. unfold SFdiv_core_binary, fexp, emin, Float.prec, Float.emax.
  cbn [Zdigits2].
  set (dx := Z.pos (digits2_pos mx)) in *. set (dy := Z.pos (digits2_pos my)) in *.
  set (e' := dx + ex - dy - ey - 53).
  replace (Z.min (Z.max (dx + ex - (dy + ey) - 53) (3 - 1024 - 53)) (ex - ey))
    with e' by lia.
  destruct (ex - ey - e') as [|s|s] eqn:Hs; [lia| |lia].
  rewrite Z.shiftl_mul_pow2 by lia.
  set (m' := Z.pos mx * 2 ^ Z.pos s).
  assert (0 < 2 ^ Z.pos s) as Hpow by (apply Z.pow_pos_nonneg; lia).
  assert (0 ≤ m') as Hm' by (unfold m'; lia).
  pose proof (new_location_located m' (Z.pos my) Hm' ltac:(done)) as Hloc.
  unfold Z.div, Z.modulo in Hloc.
  assert (2 ^ 52 ≤ m' / Z.pos my < 2 ^ 54) as Hq.
  { split.
    - apply Z.div_le_lower_bound; [done|].
      transitivity (2 ^ dy * 2 ^ 52); [nia|].
      rewrite <-Z.pow_add_r by lia. unfold m'.
      transitivity (2 ^ (dx - 1) * 2 ^ Z.pos s); [|nia].
      rewrite <-Z.pow_add_r by lia. apply Z.pow_le_mono_r; lia.
    - apply Z.div_lt_upper_bound; [done|].
      apply Z.lt_le_trans with (2 ^ (dy - 1) * 2 ^ 54); [|nia].
      rewrite <-Z.pow_add_r by lia. unfold m'.
      apply Z.lt_le_trans with (2 ^ dx * 2 ^ Z.pos s); [nia|].
      rewrite <-Z.pow_add_r by lia. apply Z.pow_le_mono_r; lia. }
  unfold Z.div in Hq.
  destruct (Z.div_eucl m' (Z.pos my)) as [q r]. destruct q as [|q|q]; [lia| |lia].
  pose proof (digits_ge q 52 ltac:(lia)) as Hq53.
  pose proof (digits_le q 54 ltac:(lia)) as Hq54.
  destruct (binary_round_aux_close false q e' (new_location (Z.pos my) r) m'
              (Z.pos my))
    as (mf & k & Hres & Hk & Hmf & Herr); [done|done|right; lia|lia|lia|].
  exists mf, (e' + k). split; [done|]. split; [done|].
  pose proof (within_of_error mf k e' m' (Z.pos my) Hk ltac:(done) Herr) as Hw.
  unfold within in *.
  assert (inject_Z m' / inject_Z (Z.pos my) * 2 ^ e'
          == inject_Z (Z.pos mx) * 2 ^ ex / (inject_Z (Z.pos my) * 2 ^ ey))%Q as Hx;
    [|by rewrite Hx in Hw].
  unfold m'. rewrite inject_Z_mult, Zpower_Qpower by done.
  change (inject_Z 2) with 2%Q.
  replace ex with (Z.pos s + e' + ey) by lia.
  rewrite !Qpower_plus by done.
  pose proof (two_power_pos ey). pose proof (two_power_pos e').
  field. split; [lra|done].
Qed.

Lemma within_refl (r x : Q) : (0 <= r)%Q → (0 <= x)%Q → within r x x.
Proof. intros Hr Hx. unfold within. split; nra. Qed.

Lemma within_scale (r v x c : Q) :
  (0 <= c)%Q → within r v x → within r (v * c) (x * c).
Proof. unfold within. intros Hc [Hlo Hhi]. split; nra. Qed.

Lemma within_trans (r1 r2 r y z x : Q) :
  (0 <= x)%Q → (0 <= r1)%Q → (0 <= r2)%Q → (r2 <= 1)%Q →
  (r1 + r2 + r1 * r2 <= r)%Q →
  within r1 y x → within r2 z y → within r z x.
Proof.
  unfold within. intros Hx Hr1 Hr2 Hr2' Hr [Hlo1 Hhi1] [Hlo2 Hhi2]. split.
  - apply Qle_trans with (y * (1 - r2))%Q; [|done].
    apply Qle_trans with (x * (1 - r1) * (1 - r2))%Q; [nra|].
    apply Qmult_le_compat_r; [done|lra].
  - apply Qle_trans with (y * (1 + r2))%Q; [done|].
    apply Qle_trans with (x * (1 + r1) * (1 + r2))%Q; [|nra].
    apply Qmult_le_compat_r; [done|lra].
Qed.

Lemma SFsub_close (sx : bool) (mx : positive) (ex : Z) (y : spec_float) :
  let x := S754_finite sx mx ex in
  Z.pos mx < 2 ^ 53 → Float.isfinite y = true →
  (2 ^ (-1022) <= Float.value x - Float.value y)%Q →
  (Float.value x - Float.value y < 2 ^ 1023)%Q →
  ∃ mf ef,
    SFsub Float.prec Float.emax x y = S754_finite false mf ef ∧
    Z.pos mf < 2 ^ 53 ∧
    within unit_roundoff (inject_Z (Z.pos mf) * 2 ^ ef)
      (Float.value x - Float.value y).
Proof.
  cbv zeta. intros Hmx Hy Hlo Hhi. pose proof (two_power_pos (-1022)) as Hpos.
  destruct y as [sy|sy| |sy my ey]; try done.
  - change (Float.value (S754_zero sy)) with 0%Q in *.
    destruct sx.
    { pose proof (value_finite_neg mx ex). lra. }
    exists mx, ex. split; [done|]. split; [done|].
    change (inject_Z (Z.pos mx) * 2 ^ ex)%Q with (Float.value (S754_finite false mx ex)).
    unfold within. unfold unit_roundoff. split; nra.
  - cbn [SFsub]. cbv zeta.
    pose proof (aligned_difference sx sy mx my ex ey) as Hdiff. cbv zeta in Hdiff.
    set (D := cond_Zopp sx _ - cond_Zopp sy _) in *.
    set (ez := Z.min ex ey) in *.
    set (v := (Float.value _ - Float.value _)%Q) in *.
    destruct (scaled_sign D ez v Hdiff) as [Hnp Hnn].
    destruct D as [|p|p].
    + exfalso. assert (v == 0)%Q by (rewrite <-Hdiff; ring). lra.
    + cbn [binary_normalize].
      destruct (magnitude_bounds p ez (-1022)) as [Hmlo _].
      destruct (magnitude_bounds p ez 1023) as [_ Hmhi].
      cbv zeta in Hmlo, Hmhi. rewrite Hdiff in Hmlo, Hmhi.
      destruct (binary_round_close p ez ltac:(split; [apply Hmlo|apply Hmhi]; done))
        as (mf & ef & Hres & Hmf & Hw).
      exists mf, ef. split; [done|]. split; [done|].
      unfold within in *. by rewrite Hdiff in Hw.
    + exfalso. specialize (Hnn ltac:(lra)). lia.
Qed.

Lemma valid_mantissa (s : bool) (m : positive) (e : Z) :
  Float.valid (S754_finite s m e) = true → Z.pos m < 2 ^ 53.
Proof.
  intros Hvalid. destruct (canonical_digits m e Hvalid) as (Hd & _).
  pose proof (digits_bounds m) as [_ Hhi].
  eapply Z.lt_le_trans; [exact Hhi|]. apply Z.pow_le_mono_r; lia.
Qed.

Lemma product_value (mx my : positive) (ex ey : Z) :
  (inject_Z (Z.pos (mx * my)) * 2 ^ (ex + ey)
   == inject_Z (Z.pos mx) * 2 ^ ex * (inject_Z (Z.pos my) * 2 ^ ey))%Q.
Proof. rewrite Pos2Z.inj_mul, inject_Z_mult, Qpower_plus by done. ring. Qed.
End rounding.

(** *** Floats as step caps *)

Lemma as_cap_nonpos (x : spec_float) :
  float_nonpos x = true →
  Float.is_zero x = true ∨ ∃ q, Float.as_cap x = Some q ∧ (q < 0)%Q.
Proof.
  destruct x as [s|s| |s m e]; simpl; try done; [by left| |]; intros ->; right.
  - eexists. split; [done|]. vm_compute. reflexivity.
  - eexists. split; [done|]. apply value_finite_neg.
Qed.

Lemma as_cap_nonneg (x : spec_float) (q : Q) :
  float_nonneg x = true → Float.as_cap x = Some q → (0 <= q)%Q.
Proof.
  destruct x as [s|s| |s m e]; simpl; try done.
  - by intros _ [= <-].
  - by destruct s.
  - destruct s; [done|]. intros _ [= <-]. apply Qlt_le_weak.
    apply (value_finite_pos m e).
Qed.

(** ** The epoch driver *)

Lemma good_loader_succeeds (dl : iterator Batch) (max_steps : option Q) :
  nonempty_batches dl → ending dl = None → items dl ≠ [] →
  (max_steps = None ∨ ∃ q, max_steps = Some q ∧ (1 <= q)%Q) →
  succeeds max_steps dl.
Proof.
  intros Hne Hend Hitems Hcap.
  assert (1 ≤ length (items dl)) as Hn.
  { destruct (items dl); [done|simpl; lia]. }
  assert (∃ b, active max_steps = Some b ∧ 1 ≤ capped max_steps (length (items dl)))
    as (b & Hact & Hk).
  { destruct Hcap as [->|(q & -> & Hq)]; [by exists inf|].
    assert (0 < q)%Q as Hq0 by (eapply Qlt_le_trans; [|exact Hq]; done).
    destruct (capped_positive q (length (items dl)) Hq0) as [-> ->].
    exists (finite q). split; [done|]. pose proof (whole_steps_ge_1 q Hq). lia. }
  exists b. split_and!; [done| |].
  - rewrite loop_end_run_length, Hend. by case_decide.
  - unfold seen. pose proof (sum_samples_pos _ dl Hne Hk Hn). lia.
Qed.

Section driver_facts.
Context {Params OptState : Type}.
Variable base : Params → bool → list Z * list Z * list Z → list Q.
Variable fc : Params → list Q → list Q.
Variable criterion : list (list Q) → list nat → Q.
Variable adam : OptState → Params → Batch → OptState * Params.
Variables train_dataloader test_dataloader : Loader.
Implicit Types (w : World Params OptState).

Local Notation run_pass' :=
  (run_pass base fc criterion adam train_dataloader test_dataloader).

Lemma train_succeeds (dl : iterator Batch) (max_steps : option Q) w :
  nonempty_batches dl → succeeds max_steps dl →
  ∃ mean_loss, (train base fc criterion adam dl max_steps w).1 = Ok (Some mean_loss).
Proof.
  intros Hne (b & Hact & Hend & Hseen).
  destruct (train_run base fc criterion adam dl max_steps w Hne)
    as (r & w' & evs & -> & _ & _ & _ & _ & _ & _ & _ & Hok).
  specialize (Hok b Hact Hend). by rewrite decide_False in Hok.
Qed.

Lemma test_succeeds (dl : iterator Batch) (max_steps : option Q) w :
  nonempty_batches dl → succeeds max_steps dl →
  ∃ mean_loss accuracy,
    (test base fc criterion dl max_steps w).1 = Ok (Some (mean_loss, accuracy)).
Proof.
  intros Hne (b & Hact & Hend & Hseen).
  destruct (test_run base fc criterion dl max_steps w Hne)
    as (r & evs & -> & _ & _ & _ & _ & _ & _ & Hok).
  specialize (Hok b Hact Hend). by rewrite decide_False in Hok.
Qed.

(** One pass: its trace whatever its outcome, and its success. *)
Lemma run_pass_run (epoch pass : nat) (ms_train ms_test : option Q) w :
  nonempty_batches (train_dataloader pass) →
  nonempty_batches (test_dataloader pass) →
  ∃ r w' evs,
    run_pass' epoch pass ms_train ms_test w = (r, w') ∧
    trace w' = trace w ++ evs ∧
    train_entries evs = [EvEnter Train ms_train] ∧
    iterations Train evs = capped ms_train (length (items (train_dataloader pass))) ∧
    (succeeds ms_train (train_dataloader pass) →
     succeeds ms_test (test_dataloader pass) → r = Ok ()).
Proof.
  intros Hne1 Hne2. unfold run_pass.
  destruct (train_run base fc criterion adam (train_dataloader pass) ms_train w Hne1)
    as (r1 & w1 & evs1 & Htrain & Htr1 & Hit1 & _ & Hent1 & _).
  pose proof (fun H => train_succeeds (train_dataloader pass) ms_train w Hne1 H) as Hs1.
  rewrite Htrain in Hs1. simpl in Hs1.
  unfold mbind at 1, M_bind at 1. rewrite Htrain.
  destruct r1 as [train_loss|e].
  2:{ exists (Raise e), w1, (EvEnter Train ms_train :: evs1).
      split_and!; [done|done| | |].
      - change (EvEnter Train ms_train :: evs1) with ([EvEnter Train ms_train] ++ evs1).
        by rewrite train_entries_app, Hent1.
      - by rewrite iterations_enter.
      - intros H1 _. by destruct (Hs1 H1). }
  destruct (test_run base fc criterion (test_dataloader pass) ms_test w1 Hne2)
    as (r2 & evs2 & Htest & _ & Hit2 & Hent2 & _).
  pose proof (fun H => test_succeeds (test_dataloader pass) ms_test w1 Hne2 H) as Hs2.
  rewrite Htest in Hs2. simpl in Hs2.
  unfold mbind at 1, M_bind at 1. rewrite Htest.
  set (w2 := logged _ evs2) in *.
  assert (Htr2 : ∃ evs2', trace w2 = trace w1 ++ evs2' ∧ train_entries evs2' = []
                          ∧ iterations Train evs2' = 0) .
  { subst w2. destruct (active ms_test); simpl.
    - exists (EvEnter Test ms_test :: evs2). rewrite <-app_assoc. split; [done|].
      change (EvEnter Test ms_test :: evs2) with ([EvEnter Test ms_test] ++ evs2).
      by rewrite train_entries_app, iterations_app, Hent2, Hit2.
    - exists (EvEnter Test ms_test :: evs2). rewrite <-app_assoc. split; [done|].
      change (EvEnter Test ms_test :: evs2) with ([EvEnter Test ms_test] ++ evs2).
      by rewrite train_entries_app, iterations_app, Hent2, Hit2. }
  destruct Htr2 as (evs2' & Htr2 & Hent2' & Hit2').
  assert (Hall : ∀ evs3, train_entries evs3 = [] → iterations Train evs3 = 0 →
            trace w ++ (EvEnter Train ms_train :: evs1) ++ evs2' ++ evs3
            = trace w ++ (EvEnter Train ms_train :: evs1) ++ evs2' ++ evs3 ∧
            train_entries ((EvEnter Train ms_train :: evs1) ++ evs2' ++ evs3)
            = [EvEnter Train ms_train] ∧
            iterations Train ((EvEnter Train ms_train :: evs1) ++ evs2' ++ evs3)
            = capped ms_train (length (items (train_dataloader pass)))).
  { intros evs3 He3 Hi3. split; [done|].
    change (EvEnter Train ms_train :: evs1) with ([EvEnter Train ms_train] ++ evs1).
    rewrite !train_entries_app, !iterations_app, Hent1, Hent2', He3, Hit1, Hit2', Hi3.
    split; [done|]. unfold iterations. simpl. lia. }
  destruct r2 as [[[test_loss test_accuracy]|]|e]; simpl.
  - destruct train_loss as [train_loss|]; simpl.
    + eexists (Ok ()), _,
        ((EvEnter Train ms_train :: evs1) ++ evs2'
         ++ [EvPrint (MsgEpoch epoch train_loss test_loss test_accuracy)]).
      split; [done|].
      destruct (Hall [EvPrint (MsgEpoch epoch train_loss test_loss test_accuracy)])
        as (_ & ? & ?); [done..|].
      split_and!; [|done..]. cbn [trace]. rewrite Htr2, Htr1.
      by rewrite <-!app_assoc.
    + exists (Raise TypeError), w2, ((EvEnter Train ms_train :: evs1) ++ evs2' ++ []).
      destruct (Hall []) as (_ & ? & ?); [done..|].
      split_and!; [done| |done|done|].
      * rewrite Htr2, Htr1, app_nil_r. by rewrite <-!app_assoc.
      * intros H1 _. by destruct (Hs1 H1).
  - exists (Raise TypeError), w2, ((EvEnter Train ms_train :: evs1) ++ evs2' ++ []).
    destruct (Hall []) as (_ & ? & ?); [done..|].
    split_and!; [done| |done|done|].
    + rewrite Htr2, Htr1, app_nil_r. by rewrite <-!app_assoc.
    + intros _ H2. by destruct (Hs2 H2) as (? & ? & ?).
  - exists (Raise e), w2, ((EvEnter Train ms_train :: evs1) ++ evs2' ++ []).
    destruct (Hall []) as (_ & ? & ?); [done..|].
    split_and!; [done| |done|done|].
    + rewrite Htr2, Htr1, app_nil_r. by rewrite <-!app_assoc.
    + intros _ H2. by destruct (Hs2 H2) as (? & ? & ?).
Qed.
(** The whole epochs, when every pass succeeds. *)
Lemma for_epochs_run (first n : nat) (ms_test : option Q) w :
  (∀ k, nonempty_batches (train_dataloader k)) →
  (∀ k, nonempty_batches (test_dataloader k)) →
  (∀ k, succeeds None (train_dataloader k)) →
  (∀ k, succeeds ms_test (test_dataloader k)) →
  ∃ w' evs,
    for_epochs (seq first n) (fun epoch => run_pass' epoch epoch None ms_test) w
    = (Ok (), w') ∧
    trace w' = trace w ++ evs ∧
    train_entries evs = replicate n (EvEnter Train None) ∧
    iterations Train evs
    = sum_list ((fun k => length (items (train_dataloader k))) <$> seq first n).
Proof.
  intros Hne1 Hne2 Hs1 Hs2. revert first w.
  induction n as [|n IH]; intros first w.
  - exists w, []. simpl. by rewrite app_nil_r.
  - cbn [seq for_epochs]. unfold mbind at 1, M_bind at 1.
    destruct (run_pass_run first first None ms_test w (Hne1 first) (Hne2 first))
      as (r & w1 & evs1 & -> & Htr1 & Hent1 & Hit1 & Hok).
    rewrite (Hok (Hs1 first) (Hs2 first)).
    destruct (IH (S first) w1) as (w' & evs & -> & Htr & Hent & Hit).
    exists w', (evs1 ++ evs). split; [done|].
    rewrite Htr, Htr1, <-app_assoc, train_entries_app, iterations_app.
    rewrite Hent1, Hent, Hit1, Hit, fmap_cons. done.
Qed.

Lemma for_epochs_raise (epoch : nat) (epochs : list nat)
    (body : nat → M Params OptState unit) (e : exn) w :
  (body epoch w).1 = Raise e → (for_epochs (epoch :: epochs) body w).1 = Raise e.
Proof.
  cbn [for_epochs]. unfold mbind, M_bind.
  destruct (body epoch w) as [[[]|e'] w']; simpl; [done|]. by intros [= ->].
Qed.

(** A pass whose test cap is not positive fails. *)
Lemma run_pass_zero_cap (epoch pass : nat) (ms_train : option Q) (q : Q) w :
  (q <= 0)%Q →
  ∃ e, (run_pass' epoch pass ms_train (Some q) w).1 = Raise e ∧
       (is_ok (train base fc criterion adam (train_dataloader pass) ms_train w).1
        = true → e = TypeError).
Proof.
  intros Hq. unfold run_pass, mbind, M_bind.
  destruct (train _ _ _ _ _ _ _) as [[train_loss|e] w1]; simpl.
  - rewrite test_inactive by done. simpl. by exists TypeError.
  - by exists e.
Qed.

Variables NUM_EPOCHS FRACTION_TEST : spec_float.
Variables TRAIN_BATCH_SIZE TEST_BATCH_SIZE : Z.

Local Notation fit' :=
  (fit base fc criterion adam NUM_EPOCHS FRACTION_TEST TRAIN_BATCH_SIZE
     TEST_BATCH_SIZE train_dataloader test_dataloader).

(** The cell once its schedule is computed. *)
Lemma fit_unfold w (whole_epochs : Z) (remainder : spec_float)
    (test_steps : option spec_float) :
  Float.to_int NUM_EPOCHS = Ok whole_epochs →
  remainder_train_steps NUM_EPOCHS TRAIN_BATCH_SIZE whole_epochs = Ok remainder →
  max_test_steps FRACTION_TEST TEST_BATCH_SIZE = Ok test_steps →
  let n := Z.to_nat whole_epochs in
  let test_cap := test_steps ≫= Float.as_cap in
  fit' w
  = match for_epochs (seq 0 n)
            (fun epoch => run_pass' epoch epoch None test_cap) w with
    | (Ok _, w') =>
        if Float.is_zero remainder then (Ok (), w')
        else run_pass' (pred n) n (Float.as_cap remainder) test_cap w'
    | (Raise e, w') => (Raise e, w')
    end.
Proof.
  intros Hwhole Hrem Htest. cbv zeta. unfold fit.
  unfold mbind at 1, M_bind at 1, lift at 1. rewrite Hwhole.
  unfold mbind at 1, M_bind at 1, lift at 1. rewrite Hrem.
  unfold mbind at 1, M_bind at 1, lift at 1. rewrite Htest.
  unfold mbind at 1, M_bind at 1.
  destruct (for_epochs _ _ w) as [[[]|e] w']; [|done].
  unfold Float.truthy. by destruct (Float.is_zero remainder).
Qed.

(** The schedule raises before any pass. *)
Lemma fit_schedule_raises w (e : exn) :
  (whole_epochs ← Float.to_int NUM_EPOCHS;
   remainder ← remainder_train_steps NUM_EPOCHS TRAIN_BATCH_SIZE whole_epochs;
   test_steps ← max_test_steps FRACTION_TEST TEST_BATCH_SIZE;
   Ok (whole_epochs, remainder, test_steps)) = Raise e →
  fit' w = (Raise e, w).
Proof.
  unfold fit. unfold mbind at 4, M_bind at 1, lift at 1.
  destruct (Float.to_int NUM_EPOCHS) as [whole_epochs|e1]; simpl;
    [|by intros [= ->]].
  unfold mbind at 3, M_bind at 1, lift at 1.
  destruct (remainder_train_steps _ _ _) as [remainder|e2]; simpl;
    [|by intros [= ->]].
  unfold mbind at 2, M_bind at 1, lift at 1.
  destruct (max_test_steps _ _) as [test_steps|e3]; simpl; [done|by intros [= ->]].
Qed.
End driver_facts.

(** An evaluation fraction of zero gives a test cap of zero. *)
Lemma max_test_steps_zero (FRACTION_TEST : spec_float) (TEST_BATCH_SIZE : Z)
    (test_steps : option spec_float) :
  Float.is_zero FRACTION_TEST = true →
  max_test_steps FRACTION_TEST TEST_BATCH_SIZE = Ok test_steps →
  ∃ x, test_steps = Some x ∧ Float.is_zero x = true ∧
       Float.as_cap x = Some 0%Q.
Proof.
  destruct FRACTION_TEST as [s| | |]; try done. intros _.
  unfold max_test_steps, Float.mul_int, Float.div_int.
  assert (Float.of_int NUM_TEST_SAMPLES
          = Ok (S754_finite false 7093499266596864 (-35))) as ->
    by (vm_compute; reflexivity).
  cbn [Float.ne SFeqb SFcompare Float.one negb mbind result_bind SFmul].
  destruct (Float.of_int TEST_BATCH_SIZE) as [b|e] eqn:Hb; [|done].
  cbn [mbind result_bind].
  destruct (of_int_sign _ _ Hb) as (Hfin & _).
  destruct b as [sb|sb| |sb mb eb]; try done.
  simpl. intros [= <-]. by eexists.
Qed.

(** C9. With a step cap that is zero or negative, [train] and [test] return
    [None] instead of a mean loss or a (mean loss, accuracy) pair.  So when
    the test cap computed by the driver is zero or negative, as it is for an
    evaluation fraction of 0, and the driver attempts a pass, the run
    fails; it fails with the [TypeError] of unpacking [None] as soon as the
    first training pass has returned. *)
Theorem nonpositive_cap_returns_none {Params OptState} base fc criterion adam
    (NUM_EPOCHS FRACTION_TEST : spec_float)
    (TRAIN_BATCH_SIZE TEST_BATCH_SIZE : Z)
    (train_dataloader test_dataloader : Loader) (dl : iterator Batch) (q : Q)
    (w : World Params OptState) :
  let ran :=
    fit base fc criterion adam NUM_EPOCHS FRACTION_TEST TRAIN_BATCH_SIZE
      TEST_BATCH_SIZE train_dataloader test_dataloader w in
  ((q <= 0)%Q →
   train base fc criterion adam dl (Some q) w
   = (Ok None, logged w [EvEnter Train (Some q)]) ∧
   test base fc criterion dl (Some q) w
   = (Ok None, logged w [EvEnter Test (Some q)])) ∧
  (∀ (whole_epochs : Z) (remainder max_test_steps' : spec_float) (cap : Q),
     let first_cap :=
       if decide (1 ≤ whole_epochs)%Z then None else Float.as_cap remainder in
     Float.to_int NUM_EPOCHS = Ok whole_epochs →
     remainder_train_steps NUM_EPOCHS TRAIN_BATCH_SIZE whole_epochs
     = Ok remainder →
     max_test_steps FRACTION_TEST TEST_BATCH_SIZE = Ok (Some max_test_steps') →
     Float.as_cap max_test_steps' = Some cap → (cap <= 0)%Q →
     (1 ≤ whole_epochs)%Z ∨ Float.is_zero remainder = false →
     ∃ e, ran.1 = Raise e ∧
          (is_ok (train base fc criterion adam (train_dataloader 0) first_cap w).1
           = true → e = TypeError)) ∧
  (Float.is_zero FRACTION_TEST = true →
   ∀ test_steps,
     max_test_steps FRACTION_TEST TEST_BATCH_SIZE = Ok test_steps →
     ∃ x, test_steps = Some x ∧ Float.as_cap x = Some 0%Q).
Proof.
  cbv zeta. split; [|split].
  - intros Hq. split; [by apply train_inactive|by apply test_inactive].
  - intros whole_epochs remainder test_steps cap Hwhole Hrem Htest Hcap Hle Hpass.
    rewrite (fit_unfold _ _ _ _ _ _ _ _ _ _ _ _ _ _ Hwhole Hrem Htest).
    cbv zeta. cbn [mbind option_bind]. rewrite Hcap.
    destruct (decide (1 ≤ whole_epochs)%Z) as [Hone|Hone].
    + destruct (Z.to_nat whole_epochs) as [|n] eqn:Hn; [lia|].
      cbn [seq].
      destruct (run_pass_zero_cap base fc criterion adam train_dataloader
                  test_dataloader 0 0 None _ w Hle) as (e & He & Hty).
      exists e. split; [|done].
      pose proof (for_epochs_raise 0 (seq 1 n)
        (fun epoch => run_pass base fc criterion adam train_dataloader
                        test_dataloader epoch epoch None _) e w He) as Hfor.
      destruct (for_epochs _ _ w) as [[[]|e'] w']; simpl in Hfor; [done|].
      by simplify_eq.
    + destruct Hpass as [?|Hnz]; [done|].
      replace (Z.to_nat whole_epochs) with 0 by lia. simpl. rewrite Hnz.
      apply run_pass_zero_cap. done.
  - intros Hzero test_steps Htest.
    destruct (max_test_steps_zero _ _ _ Hzero Htest) as (x & -> & _ & Hx).
    by exists x.
Qed.

(** An evaluation fraction of 0 with two epochs: the run stops with
    [TypeError] in its first epoch. *)
Lemma nonpositive_cap_returns_none_witness :
  (fit demo_base demo_fc demo_criterion demo_adam
     (S754_finite false 4503599627370496 (-51)) (S754_zero false) 128 128
     (fun _ => of_list [demo_batch]) (fun _ => of_list [demo_batch])
     demo_world).1
  = Raise TypeError.
Proof.
  destruct (nonpositive_cap_returns_none demo_base demo_fc demo_criterion demo_adam
              (S754_finite false 4503599627370496 (-51)) (S754_zero false)
              128 128 (fun _ => of_list [demo_batch])
              (fun _ => of_list [demo_batch]) Stop 0 demo_world)
    as (_ & Hfit & _).
  destruct (Hfit 2%Z (S754_zero false) (S754_zero false) 0%Q) as (e & He & Hty).
  - vm_compute. reflexivity.
  - vm_compute. reflexivity.
  - vm_compute. reflexivity.
  - reflexivity.
  - discriminate.
  - left. lia.
  - rewrite He. f_equal. apply Hty. vm_compute. reflexivity.
Defined.

(** ** Fractional epochs *)

Lemma to_int_finite (x : spec_float) :
  Float.isfinite x = true → Float.to_int x = Ok (py_int (Float.value x)).
Proof. by destruct x. Qed.

(** The sign of the remainder cap follows the sign of the epoch count, and
    a whole number of epochs leaves a remainder of zero. *)
Lemma remainder_sign (NUM_EPOCHS : spec_float) (TRAIN_BATCH_SIZE : Z)
    (remainder : spec_float) :
  Float.valid NUM_EPOCHS = true → Float.isfinite NUM_EPOCHS = true →
  (0 < TRAIN_BATCH_SIZE)%Z →
  let E := Float.value NUM_EPOCHS in
  remainder_train_steps NUM_EPOCHS TRAIN_BATCH_SIZE (py_int E) = Ok remainder →
  ((E <= 0)%Q → float_nonpos remainder = true) ∧
  ((0 <= E)%Q → float_nonneg remainder = true) ∧
  ((E == inject_Z (py_int E))%Q → Float.is_zero remainder = true).
Proof.
  intros Hvalid Hfin HB. cbv zeta.
  unfold remainder_train_steps, Float.sub_int, Float.mul_int, Float.div_int.
  destruct (of_int_to_int NUM_EPOCHS Hvalid Hfin) as (y & -> & Hy & Hvy).
  set (E := Float.value NUM_EPOCHS) in *.
  assert (Float.of_int NUM_TRAIN_SAMPLES
          = Ok (S754_finite false 6988358467190784 (-35))) as ->
    by (vm_compute; reflexivity).
  cbn [mbind result_bind].
  destruct (Float.of_int TRAIN_BATCH_SIZE) as [b|e] eqn:Hb; [|done].
  cbn [mbind result_bind].
  destruct (of_int_sign _ _ Hb) as (Hfb & Hnb & _). specialize (Hnb ltac:(lia)).
  destruct b as [sb|sb| |sb mb eb]; try done. destruct sb; [done|].
  cbn [Float.is_zero]. intros [= <-].
  destruct (SFsub_sign NUM_EPOCHS y Hfin Hy) as [Hsub_np Hsub_nn].
  destruct (py_int_toward_zero E) as [Hpos Hneg].
  set (fraction := SFsub _ _ NUM_EPOCHS y) in *.
  pose proof (SFmul_sign fraction 6988358467190784 (-35)) as (Hm_nn & Hm_np & _).
  set (scaled := SFmul _ _ fraction _) in *.
  pose proof (SFdiv_sign scaled mb eb) as (Hd_nn & Hd_np & _).
  assert ((E <= 0)%Q → float_nonpos fraction = true) as Hnp.
  { intros HE. apply Hsub_np. rewrite Hvy. by apply Hneg. }
  assert ((0 <= E)%Q → float_nonneg fraction = true) as Hnn.
  { intros HE. apply Hsub_nn. rewrite Hvy. by apply Hpos. }
  split_and!; [by auto|by auto|].
  intros Hwhole. apply both_signs_zero.
  - apply Hd_nn, Hm_nn, Hsub_nn. rewrite Hvy, <-Hwhole. apply Qle_refl.
  - apply Hd_np, Hm_np, Hsub_np. rewrite Hvy, <-Hwhole. apply Qle_refl.
Qed.

Lemma remainder_defined (NUM_EPOCHS : spec_float) (TRAIN_BATCH_SIZE : Z) :
  Float.valid NUM_EPOCHS = true → Float.isfinite NUM_EPOCHS = true →
  (0 < TRAIN_BATCH_SIZE < 2 ^ 53)%Z →
  ∃ remainder,
    remainder_train_steps NUM_EPOCHS TRAIN_BATCH_SIZE
      (py_int (Float.value NUM_EPOCHS)) = Ok remainder.
Proof.
  intros Hvalid Hfin HB.
  unfold remainder_train_steps, Float.sub_int, Float.mul_int, Float.div_int.
  destruct (of_int_to_int NUM_EPOCHS Hvalid Hfin) as (y & -> & _).
  assert (Float.of_int NUM_TRAIN_SAMPLES
          = Ok (S754_finite false 6988358467190784 (-35))) as ->
    by (vm_compute; reflexivity).
  destruct (of_int_small TRAIN_BATCH_SIZE ltac:(lia)) as (b & -> & _ & _ & Hnz).
  cbn [mbind result_bind]. rewrite Hnz by lia. by eexists.
Qed.

(** The remainder cap of an epoch count that is not negative, with a
    fractional part of at least 2^-900, is the stated quotient up to three
    roundings: a relative error of at most 2^-51. *)
Lemma remainder_accuracy (NUM_EPOCHS : spec_float) (TRAIN_BATCH_SIZE : Z)
    (remainder : spec_float) :
  Float.valid NUM_EPOCHS = true → Float.isfinite NUM_EPOCHS = true →
  (0 < TRAIN_BATCH_SIZE < 2 ^ 53)%Z →
  let E := Float.value NUM_EPOCHS in
  let fraction := (E - inject_Z (py_int E))%Q in
  remainder_train_steps NUM_EPOCHS TRAIN_BATCH_SIZE (py_int E) = Ok remainder →
  (0 <= E)%Q → (2 ^ (-900) <= fraction)%Q →
  ∃ m e,
    remainder = S754_finite false m e ∧
    within (1 # 2251799813685248)
      (Float.value remainder)
      (fraction * inject_Z NUM_TRAIN_SAMPLES / inject_Z TRAIN_BATCH_SIZE).
Proof.
  intros Hvalid Hfin HB. cbv zeta. set (E := Float.value NUM_EPOCHS).
  set (f := (E - inject_Z (py_int E))%Q). intros Hrem HE Hf.
  unfold remainder_train_steps, Float.sub_int, Float.mul_int, Float.div_int in Hrem.
  destruct (of_int_to_int NUM_EPOCHS Hvalid Hfin) as (y & Hy & Hfy & Hvy).
  fold E in Hy, Hvy. rewrite Hy in Hrem.
  assert (Float.of_int NUM_TRAIN_SAMPLES
          = Ok (S754_finite false 6988358467190784 (-35))) as HN
    by (vm_compute; reflexivity).
  rewrite HN in Hrem.
  destruct (of_int_small TRAIN_BATCH_SIZE ltac:(lia)) as (b & Hb & Hfb & Hvb & Hnz).
  rewrite Hb in Hrem. cbn [mbind result_bind] in Hrem.
  rewrite Hnz in Hrem by lia. injection Hrem as Hrem.
  pose proof (two_power_pos (-900)) as HP.
  destruct (py_int_toward_zero E) as [Hwhole _].
  destruct (Hwhole HE) as (_ & _ & Hlt1).
  assert (f < 1)%Q as Hf1 by (unfold f; lra).
  (* the fraction *)
  destruct NUM_EPOCHS as [s|s| |s m e]; try done.
  destruct (SFsub_close s m e y (valid_mantissa s m e Hvalid) Hfy)
    as (mf & ef & Hsub & Hmf & Hw1).
  { fold E. rewrite Hvy. fold f.
    apply Qle_trans with (2 ^ (-900))%Q; [|done].
    apply Qpower_le_compat_l; [lia|done]. }
  { fold E. rewrite Hvy. fold f.
    apply Qlt_le_trans with 1%Q; [done|].
    change 1%Q with (2 ^ 0)%Q. apply Qpower_le_compat_l; [lia|done]. }
  fold E in Hw1. rewrite Hsub in Hrem.
  assert (within unit_roundoff (inject_Z (Z.pos mf) * 2 ^ ef) f) as Hw1'.
  { unfold within in *. by rewrite Hvy in Hw1. }
  clear Hw1. set (vf := (inject_Z (Z.pos mf) * 2 ^ ef)%Q) in *.
  (* times the number of samples *)
  set (mN := 6988358467190784%positive) in *.
  assert (inject_Z (Z.pos mN) * 2 ^ (-35) == 203388)%Q as HvN
    by (vm_compute; reflexivity).
  pose proof (product_value mf mN ef (-35)) as Hprod. fold vf in Hprod.
  rewrite HvN in Hprod.
  assert (vf * 203388 < 2 ^ 19)%Q as Hhi2.
  { assert (2 ^ 19 == 524288)%Q as -> by (vm_compute; reflexivity).
    destruct Hw1' as [_ Hhi]. unfold unit_roundoff in Hhi. lra. }
  assert (2 ^ (-900) <= vf * 203388)%Q as Hlo2.
  { destruct Hw1' as [Hlo _]. unfold unit_roundoff in Hlo. lra. }
  destruct (magnitude_bounds (mf * mN) (ef + -35) (-900)) as [Hmlo _].
  destruct (magnitude_bounds (mf * mN) (ef + -35) 19) as [_ Hmhi].
  cbv zeta in Hmlo, Hmhi. rewrite Hprod in Hmlo, Hmhi.
  specialize (Hmlo Hlo2). specialize (Hmhi Hhi2).
  destruct (SFmul_close mf mN ef (-35)) as (ms & es & Hmul & Hms & Hw2).
  { apply (digits_ge (mf * mN) 52). rewrite Pos2Z.inj_mul. unfold mN. lia. }
  { lia. }
  rewrite Hmul in Hrem.
  assert (within unit_roundoff (inject_Z (Z.pos ms) * 2 ^ es) (vf * 203388)) as Hw2'.
  { unfold within in *. by rewrite Hprod in Hw2. }
  clear Hw2. set (vs := (inject_Z (Z.pos ms) * 2 ^ es)%Q) in *.
  (* divided by the batch size *)
  specialize (Hnz ltac:(lia)).
  destruct b as [sb|sb| |sb mb eb]; try done.
  destruct sb.
  { exfalso. pose proof (value_finite_neg mb eb) as Hneg. rewrite Hvb in Hneg.
    rewrite <-(Zlt_Qlt _ 0) in Hneg. lia. }
  change (Float.value (S754_finite false mb eb))
    with (inject_Z (Z.pos mb) * 2 ^ eb)%Q in Hvb.
  assert (2 ^ (-900) <= vs)%Q as Hlo3.
  { destruct Hw1' as [Hlo1 _], Hw2' as [Hlo _]. unfold unit_roundoff in Hlo1, Hlo.
    lra. }
  assert (vs < 2 ^ 20)%Q as Hhi3.
  { assert (2 ^ 20 == 1048576)%Q as -> by (vm_compute; reflexivity).
    assert (2 ^ 19 == 524288)%Q as HH by (vm_compute; reflexivity).
    rewrite HH in Hhi2.
    destruct Hw2' as [_ Hhi]. unfold unit_roundoff in Hhi. lra. }
  destruct (magnitude_bounds ms es (-900)) as [Hslo _].
  destruct (magnitude_bounds ms es 20) as [_ Hshi].
  specialize (Hslo Hlo3). specialize (Hshi Hhi3).
  destruct (magnitude_bounds mb eb 0) as [Hblo _].
  destruct (magnitude_bounds mb eb 53) as [_ Hbhi].
  cbv zeta in Hblo, Hbhi. rewrite Hvb in Hblo, Hbhi.
  specialize (Hblo ltac:(change (2 ^ 0)%Q with (inject_Z 1); rewrite <-Zle_Qle; lia)).
  specialize (Hbhi ltac:(change (2 ^ 53)%Q with (inject_Z (2 ^ 53));
                         rewrite <-Zlt_Qlt; lia)).
  destruct (SFdiv_close ms mb es eb Hms ltac:(lia)) as (mc & ec & Hdiv & Hmc & Hw3).
  rewrite Hdiv in Hrem. subst remainder. exists mc, ec. split; [done|].
  fold vs in Hw3. rewrite Hvb in Hw3 || (unfold within in Hw3; rewrite Hvb in Hw3).
  change (Float.value (S754_finite false mc ec)) with (inject_Z (Z.pos mc) * 2 ^ ec)%Q.
  set (vc := (inject_Z (Z.pos mc) * 2 ^ ec)%Q) in *.
  set (B := inject_Z TRAIN_BATCH_SIZE) in *.
  assert (0 < B)%Q as HBq by (unfold B; rewrite <-(Zlt_Qlt 0); lia).
  assert (0 <= / B)%Q as HBinv by (apply Qlt_le_weak, Qinv_lt_0_compat; done).
  change (inject_Z NUM_TRAIN_SAMPLES) with 203388%Q.
  assert (0 <= f)%Q as Hf0 by lra.
  pose proof (within_scale _ _ _ 203388 ltac:(done) Hw1') as Hs1.
  assert (within (5 # 18014398509481984) vs (f * 203388)) as Ht2.
  { apply (within_trans unit_roundoff unit_roundoff _ (vf * 203388)); try done.
    lra. }
  pose proof (within_scale _ _ _ (/ B) HBinv Ht2) as Hs2.
  apply (within_trans (5 # 18014398509481984) unit_roundoff _ (vs * / B));
    try done.
  apply Qmult_le_0_compat; [lra|done].
Qed.

(** C5 (amended). For every finite epoch count [E], with a positive batch
    size below 2^53 and loaders whose passes succeed: the run enters [train]
    without a cap int(E) times, where [int] truncates toward zero (floor(E)
    when [E >= 0]; the integer in [E, E + 1) when [E < 0], so no time),
    each time running every batch of the loader.  The cap
    (E - int(E)) * NUM_TRAIN_SAMPLES / TRAIN_BATCH_SIZE is computed in
    floating point, each operation rounded to the nearest float.  When it
    is zero, as it is for a whole number [E], there is no further pass and
    the run ends normally.  When it is not zero the run then enters [train]
    once more with that cap, after all whole epochs have completed, and
    that pass runs min(floor(cap), batches) steps when the cap is positive
    and no step otherwise.  The cap is not negative when [E >= 0], and for
    [E < 0] it is zero or negative: such a run takes no training step.
    When [E >= 0] has a fractional part of at least 2^-900, the cap is
    positive and differs from the quotient of exact arithmetic by a
    relative error of at most 2^-51. *)
Theorem fractional_epochs {Params OptState} base fc criterion adam
    (NUM_EPOCHS FRACTION_TEST : spec_float)
    (TRAIN_BATCH_SIZE TEST_BATCH_SIZE : Z)
    (train_dataloader test_dataloader : Loader) (w : World Params OptState)
    (test_steps : option spec_float) :
  Float.valid NUM_EPOCHS = true → Float.isfinite NUM_EPOCHS = true →
  (0 < TRAIN_BATCH_SIZE < 2 ^ 53)%Z →
  max_test_steps FRACTION_TEST TEST_BATCH_SIZE = Ok test_steps →
  reaches_a_step (test_steps ≫= Float.as_cap) →
  (∀ k, nonempty_batches (train_dataloader k) ∧
        ending (train_dataloader k) = None ∧ items (train_dataloader k) ≠ []) →
  (∀ k, nonempty_batches (test_dataloader k) ∧
        ending (test_dataloader k) = None ∧ items (test_dataloader k) ≠ []) →
  let E := Float.value NUM_EPOCHS in
  let whole_epochs := py_int E in
  let whole := Z.to_nat whole_epochs in
  let batches k := length (items (train_dataloader k)) in
  let ran :=
    fit base fc criterion adam NUM_EPOCHS FRACTION_TEST TRAIN_BATCH_SIZE
      TEST_BATCH_SIZE train_dataloader test_dataloader w in
  ((0 <= E)%Q → whole_epochs = Qfloor E) ∧
  ((E < 0)%Q →
   (E <= inject_Z whole_epochs)%Q ∧ (inject_Z whole_epochs < E + 1)%Q ∧
   whole = 0) ∧
  ∃ remainder,
    remainder_train_steps NUM_EPOCHS TRAIN_BATCH_SIZE whole_epochs
    = Ok remainder ∧
    ((E == inject_Z whole_epochs)%Q → Float.is_zero remainder = true) ∧
    ((0 <= E)%Q → ∀ q, Float.as_cap remainder = Some q → (0 <= q)%Q) ∧
    ((E < 0)%Q →
     Float.is_zero remainder = true ∨
     ∃ q, Float.as_cap remainder = Some q ∧ (q < 0)%Q) ∧
    ((0 <= E)%Q → (2 ^ (-900) <= E - inject_Z whole_epochs)%Q →
     Float.is_zero remainder = false ∧
     ∃ cap, Float.as_cap remainder = Some cap ∧ (0 < cap)%Q ∧
            within (1 # 2251799813685248) cap
              ((E - inject_Z whole_epochs) * inject_Z NUM_TRAIN_SAMPLES
               / inject_Z TRAIN_BATCH_SIZE)) ∧
    (Float.is_zero remainder = true →
     ran.1 = Ok () ∧
     train_entries (trace ran.2)
     = train_entries (trace w) ++ replicate whole (EvEnter Train None) ∧
     iterations Train (trace ran.2)
     = iterations Train (trace w) + sum_list (batches <$> seq 0 whole)) ∧
    (Float.is_zero remainder = false →
     train_entries (trace ran.2)
     = train_entries (trace w) ++ replicate whole (EvEnter Train None)
       ++ [EvEnter Train (Float.as_cap remainder)] ∧
     iterations Train (trace ran.2)
     = iterations Train (trace w) + sum_list (batches <$> seq 0 whole)
       + match Float.as_cap remainder with
         | None => batches whole
         | Some cap =>
             if Qle_bool cap 0 then 0
             else Nat.min (whole_steps cap) (batches whole)
         end) ∧
    ((E < 0)%Q → iterations Train (trace ran.2) = iterations Train (trace w)).
Proof.
  intros Hvalid Hfin HB Htest Hcap Htrain_dl Htest_dl. cbv zeta.
  set (E := Float.value NUM_EPOCHS).
  pose proof (to_int_finite NUM_EPOCHS Hfin) as Hwhole. fold E in Hwhole.
  destruct (py_int_toward_zero E) as [Hpos Hneg].
  split; [intros HE; by apply py_int_floor|].
  assert ((E < 0)%Q → Z.to_nat (py_int E) = 0) as Hnone.
  { intros HE. destruct (Hneg (Qlt_le_weak _ _ HE)) as (H0 & _). lia. }
  split.
  { intros HE. destruct (Hneg (Qlt_le_weak _ _ HE)) as (H0 & Hge & Hlt).
    split_and!; [done| |by apply Hnone].
    apply (Qplus_lt_l _ _ (- (1))). ring_simplify.
    eapply Qle_lt_trans; [|exact Hlt]. apply Qle_lteq. right. ring. }
  destruct (remainder_defined NUM_EPOCHS TRAIN_BATCH_SIZE Hvalid Hfin HB)
    as [remainder Hrem]. fold E in Hrem.
  destruct (remainder_sign NUM_EPOCHS TRAIN_BATCH_SIZE remainder Hvalid Hfin
              ltac:(lia) Hrem) as (Hnp & Hnn & Hzero). fold E in Hnp, Hnn, Hzero.
  exists remainder. split; [done|].
  rewrite (fit_unfold _ _ _ _ _ _ _ _ _ _ _ _ _ _ Hwhole Hrem Htest). cbv zeta.
  destruct (for_epochs_run base fc criterion adam train_dataloader test_dataloader
              0 (Z.to_nat (py_int E)) (test_steps ≫= Float.as_cap) w)
    as (w1 & evs1 & -> & Htr1 & Hent1 & Hit1).
  { intros k. apply Htrain_dl. }
  { intros k. apply Htest_dl. }
  { intros k. destruct (Htrain_dl k) as (? & ? & ?).
    apply good_loader_succeeds; auto. }
  { intros k. destruct (Htest_dl k) as (? & ? & ?).
    by apply good_loader_succeeds. }
  split; [done|]. split; [intros HE q; by apply as_cap_nonneg, Hnn|].
  split; [intros HE; by apply as_cap_nonpos, Hnp, Qlt_le_weak|].
  split.
  { intros HE Hfrac.
    destruct (remainder_accuracy NUM_EPOCHS TRAIN_BATCH_SIZE remainder Hvalid Hfin
                HB Hrem HE Hfrac) as (m & e & -> & Hw).
    split; [done|]. eexists. split; [done|].
    split; [apply value_finite_pos|exact Hw]. }
  destruct (Float.is_zero remainder) eqn:Hz.
  - split; [|split; [done|]].
    + intros _. simpl.
      by rewrite Htr1, train_entries_app, iterations_app, Hent1, Hit1.
    + intros HE. simpl. rewrite Htr1, iterations_app, Hit1, (Hnone HE). simpl. lia.
  - destruct (run_pass_run base fc criterion adam train_dataloader test_dataloader
                (pred (Z.to_nat (py_int E))) (Z.to_nat (py_int E))
                (Float.as_cap remainder) (test_steps ≫= Float.as_cap) w1)
      as (r & w2 & evs2 & -> & Htr2 & Hent2 & Hit2 & _).
    { apply Htrain_dl. }
    { apply Htest_dl. }
    simpl. rewrite Htr2, Htr1, !train_entries_app, !iterations_app.
    rewrite Hent1, Hent2, Hit1, Hit2, <-app_assoc.
    split; [done|]. split; [intros _; split; [done|]|].
    + unfold capped. by destruct (Float.as_cap remainder).
    + intros HE. rewrite (Hnone HE). simpl.
      destruct (as_cap_nonpos remainder (Hnp (Qlt_le_weak _ _ HE)))
        as [Hz'|(q & -> & Hq)]; [congruence|].
      rewrite (proj1 (capped_nonpositive q _ (Qlt_le_weak _ _ Hq))). lia.
Qed.

(** One and a half epochs over a loader of 900 batches at batch size 128:
    one whole pass, then a pass capped at 794.484375 that runs 794
    steps. *)
Lemma fractional_epochs_witness :
  let loader : Loader := fun _ => of_list (replicate 900 demo_batch) in
  let ran :=
    fit demo_base demo_fc demo_criterion demo_adam
      (S754_finite false 6755399441055744 (-52)) Float.one 128 128
      loader loader demo_world in
  train_entries (trace ran.2)
  = [EvEnter Train None;
     EvEnter Train
       (Float.as_cap (S754_finite false 6988358467190784 (-43)))] ∧
  iterations Train (trace ran.2) = 900 + 794.
Proof.
  intros loader ran.
  assert (Hloader : ∀ k : nat, nonempty_batches (loader k) ∧
                       ending (loader k) = None ∧ items (loader k) ≠ []).
  { intros k. unfold loader, nonempty_batches.
    rewrite items_of_list, ending_of_list. split_and!; [|done|done].
    apply Forall_replicate. vm_compute. repeat constructor. }
  destruct (fractional_epochs demo_base demo_fc demo_criterion demo_adam
              (S754_finite false 6755399441055744 (-52)) Float.one 128 128
              loader loader demo_world None)
    as (_ & _ & remainder & Hrem & _ & _ & _ & _ & _ & Hextra & _).
  - reflexivity.
  - reflexivity.
  - lia.
  - reflexivity.
  - by left.
  - exact Hloader.
  - exact Hloader.
  - assert (remainder = S754_finite false 6988358467190784 (-43)) as ->.
    { vm_compute in Hrem. by injection Hrem. }
    destruct (Hextra eq_refl) as (Hent & Hit).
    split; [exact Hent|]. unfold ran. rewrite Hit. vm_compute. reflexivity.
Defined.

(** C5 as worded fails at two epoch counts.  For -0.5, floor(E) is -1 and
    the stated cap of the extra pass is 1/2 * NUM_TRAIN_SAMPLES / 128,
    about 794 steps, but the run enters [train] with a negative cap and
    runs no step of the 900 batches.  For 0.010698762955533266 the stated
    cap, E * NUM_TRAIN_SAMPLES / 128 in exact arithmetic, is just below 17
    and allows 16 steps, but the floating-point cap is 17.0 and the run
    takes 17 steps of the 20 batches. *)
Lemma fractional_epochs_counterexample :
  let stated_cap (E : Q) :=
    ((E - inject_Z (Qfloor E)) * inject_Z NUM_TRAIN_SAMPLES / inject_Z 128)%Q in
  let ran (NUM_EPOCHS : spec_float) (n : nat) :=
    fit demo_base demo_fc demo_criterion demo_adam NUM_EPOCHS Float.one 128 128
      (fun _ => of_list (replicate n demo_batch))
      (fun _ => of_list (replicate n demo_batch)) demo_world in
  let minus_half := S754_finite true 4503599627370496 (-53) in
  let small := S754_finite false 6167416942062705 (-59) in
  (Qfloor (Float.value minus_half) = (-1)%Z ∧
   whole_steps (stated_cap (Float.value minus_half)) = 794 ∧
   (∃ cap, train_entries (trace (ran minus_half 900).2)
           = [EvEnter Train (Some cap)] ∧
           (cap < 0)%Q ∧ ¬ (cap == stated_cap (Float.value minus_half))%Q) ∧
   iterations Train (trace (ran minus_half 900).2) = 0) ∧
  (Qfloor (Float.value small) = 0%Z ∧
   whole_steps (stated_cap (Float.value small)) = 16 ∧
   (∃ cap, train_entries (trace (ran small 20).2)
           = [EvEnter Train (Some cap)] ∧ (cap == 17)%Q) ∧
   iterations Train (trace (ran small 20).2) = 17).
Proof.
  cbv zeta. split; split_and!.
  - vm_compute. reflexivity.
  - vm_compute. reflexivity.
  - eexists. split; [vm_compute; reflexivity|]. split; [reflexivity|discriminate].
  - vm_compute. reflexivity.
  - vm_compute. reflexivity.
  - vm_compute. reflexivity.
  - eexists. split; [vm_compute; reflexivity|]. reflexivity.
  - vm_compute. reflexivity.
Qed.

(** * Further properties of the notebook's code *)

(** ** Failures of the label space and of the map function *)

Lemma set_ending `{Countable A} (it : iterator A) :
  match ending it with
  | Some e => set it = Raise e
  | None => ∃ s, set it = Ok s
  end.
Proof.
  induction it as [|e|x rest IH]; simpl; [by eexists|done|].
  destruct (ending rest) as [e|].
  - by rewrite IH.
  - destruct IH as [s ->]. by eexists.
Qed.

Lemma gen_map_all_ok {A B} (f : A → result B) (it : iterator A) :
  Forall (fun x => is_ok (f x) = true) (items it) →
  ending (gen_map f it) = ending it.
Proof.
  induction it as [|e|x rest IH]; simpl; [done..|].
  intros [Hx Hrest]%Forall_cons. destruct (f x); [|done]. simpl. by apply IH.
Qed.

Lemma gen_map_first_failure {A B} (f : A → result B) (it : iterator A)
    (pre post : list A) (x : A) (e : exn) :
  items it = pre ++ x :: post →
  Forall (fun a => is_ok (f a) = true) pre →
  f x = Raise e →
  ending (gen_map f it) = Some e.
Proof.
  intros Hit Hpre Hx. revert it Hit.
  induction pre as [|a pre IH]; intros it Hit.
  - destruct it as [| |y rest]; simpl in Hit; [done..|]. simplify_eq.
    simpl. by rewrite Hx.
  - apply Forall_cons in Hpre as [Ha Hpre].
    destruct it as [| |y rest]; simpl in Hit; [done..|]. simplify_eq.
    simpl. destruct (f a); [|done]. simpl. by apply IH.
Qed.

(** X1. [classes_to_int] is defined exactly when the training sequence ends
    normally and every record carries a language.  A sequence that raises
    after records that all carry a language makes it raise the same
    exception; the first record without a language makes it raise
    [KeyError("language")]; an empty training sequence gives the empty
    mapping. *)
Theorem classes_to_int_failures (train : iterator Record) :
  (is_ok (classes_to_int train) = true ↔
   ending train = None ∧ Forall (fun x => is_Some (x !! "language")) (items train)) ∧
  (∀ e, ending train = Some e →
        Forall (fun x => is_Some (x !! "language")) (items train) →
        classes_to_int train = Raise e) ∧
  (∀ pre x post,
     items train = pre ++ x :: post →
     Forall (fun x => is_Some (x !! "language")) pre →
     x !! "language" = None →
     classes_to_int train = Raise (KeyError "language")) ∧
  (items train = [] → ending train = None → classes_to_int train = Ok ∅).
Proof.
  assert (Hok : ∀ l : list Record,
            Forall (fun x => is_Some (x !! "language")) l →
            Forall (fun x => is_ok (language_of x) = true) l).
  { intros l Hl. eapply Forall_impl; [exact Hl|].
    intros x. by rewrite language_of_is_ok. }
  split_and!.
  - split.
    + unfold classes_to_int.
      destruct (set (gen_map language_of train)) as [s|e] eqn:Hs; [|done].
      intros _. destruct (set_gen_map_ok _ _ _ Hs) as (Hend & Hall & _).
      split; [done|]. eapply Forall_impl; [exact Hall|].
      intros x. by rewrite language_of_is_ok.
    + intros [Hend Hall].
      destruct (set_gen_map_total language_of train Hend (Hok _ Hall)) as [s Hs].
      unfold classes_to_int. by rewrite Hs.
  - intros e Hend Hall. unfold classes_to_int.
    pose proof (set_ending (gen_map language_of train)) as Hset.
    rewrite (gen_map_all_ok _ _ (Hok _ Hall)), Hend in Hset. by rewrite Hset.
  - intros pre x post Hit Hpre Hx. unfold classes_to_int.
    pose proof (set_ending (gen_map language_of train)) as Hset.
    rewrite (gen_map_first_failure language_of train pre post x
               (KeyError "language") Hit (Hok _ Hpre)) in Hset.
    + by rewrite Hset.
    + unfold language_of, getitem. by rewrite Hx.
  - intros Hitems Hend. destruct train as [| |x rest]; done.
Qed.

(** The second of three records has no language. *)
Lemma classes_to_int_failures_witness :
  classes_to_int
    (of_list [labelled "a" "x"; {[ "translation" := "y" ]}; labelled "b" "z"])
  = Raise (KeyError "language").
Proof.
  apply (classes_to_int_failures
           (of_list [labelled "a" "x"; {[ "translation" := "y" ]}; labelled "b" "z"]))
    with (pre := [labelled "a" "x"]) (x := {[ "translation" := "y" ]})
         (post := [labelled "b" "z"]).
  - reflexivity.
  - repeat constructor. by eexists.
  - reflexivity.
Defined.

(** X2. [unpack_row] raises exactly in three cases, tried in this order:
    the record has no translation ([KeyError("translation")]); it has no
    language ([KeyError("language")]); its language is not a key of
    [classes_to_int] ([KeyError] of that language). *)
Theorem unpack_row_errors tokenizer (MAX_LENGTH : Z) (c2i : gmap string nat)
    (x : Record) (e : exn) :
  unpack_row tokenizer MAX_LENGTH c2i x = Raise e ↔
  (x !! "translation" = None ∧ e = KeyError "translation") ∨
  (is_Some (x !! "translation") ∧ x !! "language" = None ∧
   e = KeyError "language") ∨
  (is_Some (x !! "translation") ∧
   ∃ lang, x !! "language" = Some lang ∧ c2i !! lang = None ∧ e = KeyError lang).
Proof.
  unfold unpack_row, getitem.
  destruct (x !! "translation") as [text|]; simpl.
  - destruct (x !! "language") as [lang|]; simpl.
    + destruct (c2i !! lang) as [i|] eqn:Hi; simpl.
      * split; [done|]. intros [[? _]|[(_ & ? & _)|(_ & lang' & ? & ? & _)]];
          [done|done|]. simplify_eq.
      * split.
        -- intros [= <-]. right. right. split; [by eexists|]. by exists lang.
        -- intros [[? _]|[(_ & ? & _)|(_ & lang' & ? & ? & ->)]]; [done|done|].
           by simplify_eq.
    + split.
      * intros [= <-]. right. left. split; [by eexists|done].
      * intros [[? _]|[(_ & _ & ->)|(_ & lang' & ? & _)]]; done.
  - split.
    + intros [= <-]. by left.
    + intros [[_ ->]|[([? ?] & _)|([? ?] & _)]]; done.
Qed.

(** A test record in a language that training never saw. *)
Lemma unpack_row_errors_witness :
  unpack_row demo_tokenizer 4 {[ "a" := 0 ]} (labelled "zz" "y")
  = Raise (KeyError "zz").
Proof.
  apply unpack_row_errors. right. right. split; [by eexists|].
  exists "zz". by split_and!.
Defined.

(** X3. With the label space built from the training sequence, [unpack_row]
    succeeds on every training record that has a translation, and decoding
    the target of its row with [int_to_classes] gives back the language of
    the record. *)
Theorem training_label_round_trip tokenizer (MAX_LENGTH : Z)
    (train : iterator Record) (c2i : gmap string nat) (x : Record) :
  classes_to_int train = Ok c2i →
  x ∈ items train →
  is_Some (x !! "translation") →
  ∃ row lang,
    unpack_row tokenizer MAX_LENGTH c2i x = Ok row ∧
    x !! "language" = Some lang ∧
    c2i !! lang = Some (targets row) ∧
    int_to_classes c2i !! targets row = Some lang.
Proof.
  intros Hc2i Hx [text Htext].
  destruct (classes_to_int_inv _ _ Hc2i) as (labels & Hlabels & ->).
  destruct (set_gen_map_ok _ _ _ Hlabels) as (_ & Hall & Hmem).
  rewrite Forall_forall in Hall. specialize (Hall x Hx).
  apply language_of_is_ok in Hall as [lang Hlang].
  assert (lang ∈ sorted labels) as [i Hi]%list_elem_of_lookup_1.
  { apply sorted_elem_of, Hmem. exists x. by rewrite language_of_Ok. }
  pose proof (sorted_NoDup labels) as Hnd.
  pose proof (proj2 (label_index_lookup _ lang i Hnd) Hi) as Hlk.
  eexists _, lang. unfold unpack_row, getitem. rewrite Htext, Hlang. simpl.
  rewrite Hlk. simpl. split_and!; [done..|].
  apply int_to_classes_lookup; [|done].
  intros y1 y2 j H1 H2. apply label_index_lookup in H1, H2; [|done..]. congruence.
Qed.

(** The record of language b among the labels a, b. *)
Lemma training_label_round_trip_witness :
  let train := of_list [labelled "a" "x"; labelled "b" "bonjour"; labelled "a" "z"] in
  ∃ row lang,
    unpack_row demo_tokenizer 6 {[ "a" := 0; "b" := 1 ]} (labelled "b" "bonjour")
    = Ok row ∧
    labelled "b" "bonjour" !! "language" = Some lang ∧
    ({[ "a" := 0; "b" := 1 ]} : gmap string nat) !! lang = Some (targets row) ∧
    int_to_classes {[ "a" := 0; "b" := 1 ]} !! targets row = Some lang.
Proof.
  intros train.
  apply (training_label_round_trip demo_tokenizer 6 train).
  - vm_compute. reflexivity.
  - right. left.
  - by eexists.
Defined.

(** ** Inference *)

Lemma argmax_lt (row : list Q) : row ≠ [] → argmax row < length row.
Proof.
  intros Hrow. destruct (argmax_spec row Hrow) as (v & Hv & _).
  by eapply lookup_lt_Some.
Qed.

(** X4. When the classification head has one output per training label and
    there is at least one label, the inference loop never raises: it prints
    one line per sample case, and every predicted language is a key of
    [classes_to_int], the language of some training record. *)
Theorem predictions_are_training_labels {Params}
    (base : Params → bool → list Z * list Z * list Z → list Q)
    (fc : Params → list Q → list Q)
    (tokenize : string → list Z * list Z * list Z)
    (train : iterator Record) (c2i : gmap string nat)
    (θ : Params) (mode : bool) (sample_cases : list string) :
  classes_to_int train = Ok c2i →
  0 < size c2i →
  (∀ θ' pooled, length (fc θ' pooled) = size c2i) →
  let printed :=
    predict_cases base fc tokenize (int_to_classes c2i) θ mode sample_cases in
  ending printed = None ∧
  (items printed).*1 = sample_cases ∧
  Forall (fun line =>
            line.2 ∈ dom c2i ∧
            ∃ x, x ∈ items train ∧ x !! "language" = Some line.2)
         (items printed).
Proof.
  intros Hc2i Hsize Hfc.
  destruct (classes_to_int_inv _ _ Hc2i) as (labels & Hlabels & Hdict).
  destruct (set_gen_map_ok _ _ _ Hlabels) as (_ & _ & Hmem).
  pose proof (sorted_NoDup labels) as Hnd.
  assert (Hpred : ∀ case, ∃ lang,
            predict_language base fc tokenize (int_to_classes c2i) θ mode case
            = Ok lang ∧ lang ∈ dom c2i ∧
            ∃ x, x ∈ items train ∧ x !! "language" = Some lang).
  { intros case. unfold predict_language, forward. simpl.
    set (row := fc θ _).
    assert (length row = size c2i) as Hrow by apply Hfc.
    assert (argmax row < size c2i) as Hlt.
    { rewrite <-Hrow. apply argmax_lt. intros Hnil. rewrite Hnil in Hrow.
      simpl in Hrow. lia. }
    rewrite Hdict, label_index_size in Hlt by done.
    destruct (lookup_lt_is_Some_2 _ _ Hlt) as [lang Hlang].
    pose proof (proj2 (label_index_lookup _ lang _ Hnd) Hlang) as Hlk.
    rewrite <-Hdict in Hlk.
    assert (int_to_classes c2i !! argmax row = Some lang) as Hinv.
    { apply int_to_classes_lookup; [|done]. rewrite Hdict.
      intros y1 y2 j H1 H2. apply label_index_lookup in H1, H2; [|done..].
      congruence. }
    exists lang. unfold getitem. rewrite Hinv. split_and!; [done| |].
    - apply elem_of_dom. by eexists.
    - apply list_elem_of_lookup_2, sorted_elem_of, Hmem in Hlang.
      destruct Hlang as (x & Hx & Hf). exists x. by rewrite <-language_of_Ok. }
  cbv zeta. unfold predict_cases.
  induction sample_cases as [|case cases IH]; simpl; [done|].
  destruct (Hpred case) as (lang & -> & Hdom & Hrec). simpl.
  destruct IH as (Hend & Hcases & Hall). split_and!; [done| |].
  - f_equal. exact Hcases.
  - apply Forall_cons. by split.
Qed.

(** Labels a and b, a head with two outputs, two sample cases. *)
Lemma predictions_are_training_labels_witness :
  let train := of_list [labelled "a" "x"; labelled "b" "y"; labelled "a" "z"] in
  let c2i : gmap string nat := {[ "a" := 0; "b" := 1 ]} in
  let printed :=
    predict_cases demo_base (fun (θ : Z) pooled => take 2 (pooled ++ [0; 0]%Q))
      (fun case => ([Z.of_nat (String.length case); 4%Z], [1; 1]%Z, [0; 0]%Z))
      (int_to_classes c2i) 0%Z false ["hello"; "hi"] in
  ending printed = None ∧ (items printed).*1 = ["hello"; "hi"].
Proof.
  intros train c2i printed.
  destruct (predictions_are_training_labels demo_base
              (fun (θ : Z) pooled => take 2 (pooled ++ [0; 0]%Q))
              (fun case => ([Z.of_nat (String.length case); 4%Z], [1; 1]%Z, [0; 0]%Z))
              train c2i 0%Z false ["hello"; "hi"])
    as (Hend & Hcases & _).
  - vm_compute. reflexivity.
  - vm_compute. repeat constructor.
  - intros θ' pooled. replace (size c2i) with 2 by (vm_compute; reflexivity).
    rewrite length_take, length_app. cbn [length]. lia.
  - split; [exact Hend|exact Hcases].
Defined.

(** ** More on the loops *)

Lemma steps_taken_app (tr1 tr2 : list event) :
  steps_taken (tr1 ++ tr2) = steps_taken tr1 + steps_taken tr2.
Proof. unfold steps_taken. by rewrite filter_app, length_app. Qed.

Lemma progress_lines_app (fn : loop_name) (tr1 tr2 : list event) :
  progress_lines fn (tr1 ++ tr2) = progress_lines fn tr1 + progress_lines fn tr2.
Proof. unfold progress_lines. by rewrite filter_app, length_app. Qed.

Lemma cadence_hits_0 (i : nat) : cadence_hits i 0 = 0.
Proof.
  unfold cadence_hits. replace (i + 0 - 1) with (i - 1) by lia. lia.
Qed.

Lemma cadence_hits_S (i k : nat) :
  1 ≤ i →
  cadence_hits i (S k)
  = (if decide (i mod 100 = 0) then 1 else 0) + cadence_hits (S i) k.
Proof.
  intros Hi. unfold cadence_hits.
  replace (i + S k - 1) with (i + k) by lia.
  replace (S i + k - 1) with (i + k) by lia.
  replace (S i - 1) with i by lia.
  pose proof (Nat.div_mod_eq i 100) as H1.
  pose proof (Nat.div_mod_eq (i - 1) 100) as H2.
  pose proof (Nat.mod_upper_bound i 100) as H3.
  pose proof (Nat.mod_upper_bound (i - 1) 100) as H4.
  pose proof (Nat.Div0.div_le_mono i (i + k) 100) as H5.
  pose proof (Nat.Div0.div_le_mono (i - 1) i 100) as H6.
  case_decide; lia.
Qed.

Lemma cadence_hits_from_1 (k : nat) : cadence_hits 1 k = k / 100.
Proof.
  unfold cadence_hits. replace (1 + k - 1) with k by lia.
  change ((1 - 1) / 100) with 0. lia.
Qed.

Section more_loop_facts.
Context {Params OptState : Type}.
Variable base : Params → bool → list Z * list Z * list Z → list Q.
Variable fc : Params → list Q → list Q.
Variable criterion : list (list Q) → list nat → Q.
Variable adam : OptState → Params → Batch → OptState * Params.
Implicit Types (w : World Params OptState) (dl : iterator Batch) (t : totals).

Local Opaque Nat.modulo Nat.div.

Lemma train_cadence_count (i : nat) t w :
  0 < total_samples t →
  ∃ evs,
    (if decide (i mod 100 = 0) then train_report i t else mret ()) w
    = (Ok (), logged w evs) ∧
    steps_taken evs = 0 ∧
    progress_lines Train evs = (if decide (i mod 100 = 0) then 1 else 0) ∧
    progress_lines Test evs = 0 ∧
    printed_epochs evs = [].
Proof.
  intros Ht. case_decide as Hmod.
  - destruct (train_report_run i t w Ht) as [msg ->]. by eexists.
  - exists []. by rewrite logged_nil.
Qed.

Lemma test_cadence_count (i : nat) t w :
  0 < total_samples t →
  ∃ evs,
    (if decide (i mod 100 = 0) then test_report i t else mret ()) w
    = (Ok (), logged w evs) ∧
    steps_taken evs = 0 ∧
    progress_lines Test evs = (if decide (i mod 100 = 0) then 1 else 0) ∧
    progress_lines Train evs = 0 ∧
    printed_epochs evs = [].
Proof.
  intros Ht. case_decide as Hmod.
  - destruct (test_report_run i t w Ht) as [msg ->]. by eexists.
  - exists []. by rewrite logged_nil.
Qed.

(** The optimizer steps and the progress lines of a run of the loop of
    [train] over a loader without empty batches. *)
Lemma train_loop_steps (b : bound) (i : nat) dl t w :
  1 ≤ i → nonempty_batches dl →
  ∃ r w' evs,
    train_loop base fc criterion adam b i dl t w = (r, w') ∧
    trace w' = trace w ++ evs ∧
    steps_taken evs = run_length b i dl ∧
    progress_lines Train evs = cadence_hits i (run_length b i dl) ∧
    progress_lines Test evs = 0 ∧
    printed_epochs evs = [] ∧
    (opt_state w', params w')
    = apply_steps adam (opt_state w, params w) (take (run_length b i dl) (items dl)).
Proof.
  intros Hi Hne. revert i t w Hi.
  induction dl as [|e|data rest IH]; intros i t w Hi.
  - eexists _, w, []. simpl. rewrite app_nil_r, cadence_hits_0. by split_and!.
  - eexists _, w, []. simpl. rewrite app_nil_r, cadence_hits_0. by split_and!.
  - apply Forall_cons in Hne as [Hdata Hne]. specialize (IH Hne).
    cbn [train_loop run_length]. destruct (exceeds i b) eqn:Hex.
    { eexists _, w, []. simpl. rewrite app_nil_r, cadence_hits_0. by split_and!. }
    unfold mbind at 1, M_bind at 1. rewrite call_model_run, length_forward.
    set (t1 := {| total_loss := _ |}).
    unfold mbind at 1, M_bind at 1.
    destruct (train_cadence_count i t1 (logged w [EvForward Train i (samples data)]))
      as (evs1 & -> & Hst1 & Hpr1 & Hpt1 & Hpe1); [simpl; lia|].
    rewrite logged_logged.
    unfold mbind at 1, M_bind at 1, optimizer_step.
    cbn [opt_state params logged training trace].
    destruct (adam (opt_state w) (params w) data) as [o θ] eqn:Hadam.
    match goal with |- context [train_loop _ _ _ _ _ _ _ _ ?w1] =>
      destruct (IH (S i) t1 w1)
        as (r & w' & evs & -> & Htrace & Hst & Hpr & Hpt & Hpe & Hfold);
        [lia|]
    end.
    cbn [opt_state params trace] in Htrace, Hfold.
    exists r, w', (([EvForward Train i (samples data)] ++ evs1) ++ EvStep i :: evs).
    split_and!.
    + done.
    + rewrite Htrace. by rewrite <-!app_assoc.
    + change (EvStep i :: evs) with ([EvStep i] ++ evs).
      rewrite !steps_taken_app, Hst1, Hst. done.
    + change (EvStep i :: evs) with ([EvStep i] ++ evs).
      rewrite !progress_lines_app, Hpr1, Hpr, cadence_hits_S by done.
      unfold progress_lines. simpl. lia.
    + change (EvStep i :: evs) with ([EvStep i] ++ evs).
      rewrite !progress_lines_app, Hpt1, Hpt. done.
    + change (EvStep i :: evs) with ([EvStep i] ++ evs).
      unfold printed_epochs in *. rewrite !omap_app, Hpe1, Hpe. done.
    + rewrite Hfold. cbn [items firstn]. unfold apply_steps. simpl.
      by rewrite Hadam.
Qed.

(** The progress lines of a run of the loop of [test]. *)
Lemma test_loop_count (b : bound) (i : nat) dl t w :
  1 ≤ i → nonempty_batches dl →
  ∃ r evs,
    test_loop base fc criterion b i dl t w = (r, logged w evs) ∧
    steps_taken evs = 0 ∧
    progress_lines Test evs = cadence_hits i (run_length b i dl) ∧
    progress_lines Train evs = 0 ∧
    printed_epochs evs = [].
Proof.
  intros Hi Hne. revert i t w Hi.
  induction dl as [|e|data rest IH]; intros i t w Hi.
  - eexists _, []. simpl. rewrite logged_nil, cadence_hits_0. by split_and!.
  - eexists _, []. simpl. rewrite logged_nil, cadence_hits_0. by split_and!.
  - apply Forall_cons in Hne as [Hdata Hne]. specialize (IH Hne).
    cbn [test_loop run_length]. destruct (exceeds i b) eqn:Hex.
    { eexists _, []. simpl. rewrite logged_nil, cadence_hits_0. by split_and!. }
    unfold mbind at 1, M_bind at 1. rewrite call_model_run, length_forward.
    set (t1 := {| total_loss := _ |}).
    unfold mbind at 1, M_bind at 1.
    destruct (test_cadence_count i t1 (logged w [EvForward Test i (samples data)]))
      as (evs1 & -> & Hst1 & Hpr1 & Hpt1 & Hpe1); [simpl; lia|].
    rewrite logged_logged.
    destruct (IH (S i) t1 (logged w ([EvForward Test i (samples data)] ++ evs1)))
      as (r & evs & -> & Hst & Hpr & Hpt & Hpe); [lia|].
    rewrite logged_logged.
    exists r, (([EvForward Test i (samples data)] ++ evs1) ++ evs).
    split_and!.
    + done.
    + rewrite !steps_taken_app, Hst1, Hst. done.
    + rewrite !progress_lines_app, Hpr1, Hpr, cadence_hits_S by done.
      unfold progress_lines. simpl. lia.
    + rewrite !progress_lines_app, Hpt1, Hpt. done.
    + unfold printed_epochs in *. rewrite !omap_app, Hpe1, Hpe. done.
Qed.

(** The loop of [train] keeps the mode, however it ends. *)
Lemma train_report_mode (i : nat) t w :
  training (train_report i t w).2 = training w.
Proof.
  unfold train_report, mbind, M_bind, lift, emit, py_div.
  repeat case_decide; done.
Qed.

Lemma train_loop_mode (b : bound) (i : nat) dl t w :
  training (train_loop base fc criterion adam b i dl t w).2 = training w.
Proof.
  revert i t w. induction dl as [|e|data rest IH]; intros i t w; [done..|].
  cbn [train_loop]. destruct (exceeds i b); [done|].
  unfold mbind at 1, M_bind at 1. rewrite call_model_run, length_forward.
  set (t1 := {| total_loss := _ |}).
  unfold mbind at 1, M_bind at 1.
  set (w1 := logged w [EvForward Train i (samples data)]).
  assert (training ((if decide (i mod 100 = 0) then train_report i t1
                     else mret ()) w1).2 = training w) as Hmode.
  { case_decide; [by rewrite train_report_mode|done]. }
  destruct ((if decide (i mod 100 = 0) then train_report i t1 else mret ()) w1)
    as [[[]|e] w2]; [|done].
  unfold mbind at 1, M_bind at 1, optimizer_step.
  destruct (adam _ _ data) as [o θ]. rewrite IH. exact Hmode.
Qed.

(** The outcome of the loop of [test] depends on the world only through its
    parameters and its mode. *)
Lemma test_report_outcome (i : nat) t w w' :
  (test_report i t w).1 = (test_report i t w').1.
Proof.
  unfold test_report, mbind, M_bind, lift, emit, py_div.
  repeat case_decide; done.
Qed.

Lemma test_loop_outcome (b : bound) (i : nat) dl t w w' :
  params w = params w' → training w = training w' →
  (test_loop base fc criterion b i dl t w).1
  = (test_loop base fc criterion b i dl t w').1.
Proof.
  revert i t w w'. induction dl as [|e|data rest IH]; intros i t w w' Hp Hm;
    [done..|].
  cbn [test_loop]. destruct (exceeds i b); [done|].
  unfold mbind at 1 3, M_bind at 1 3. rewrite !call_model_run, !length_forward.
  rewrite <-Hp, <-Hm.
  set (t1 := {| total_loss := _ |}).
  unfold mbind at 1 2, M_bind at 1 2.
  set (w1 := logged w [EvForward Test i (samples data)]).
  set (w1' := logged w' [EvForward Test i (samples data)]).
  destruct (test_loop_frame_cadence i t1 w1) as [evs Hw2].
  destruct (test_loop_frame_cadence i t1 w1') as [evs' Hw2'].
  assert (((if decide (i mod 100 = 0) then test_report i t1 else mret ()) w1).1
          = ((if decide (i mod 100 = 0) then test_report i t1 else mret ()) w1').1)
    as Hout.
  { case_decide; [apply test_report_outcome|done]. }
  destruct ((if decide (i mod 100 = 0) then test_report i t1 else mret ()) w1)
    as [r2 w2].
  destruct ((if decide (i mod 100 = 0) then test_report i t1 else mret ()) w1')
    as [r2' w2'].
  simpl in Hw2, Hw2', Hout. subst r2' w2 w2'.
  destruct r2 as [[]|e]; [|done]. by apply IH.
Qed.
End more_loop_facts.

(** ** What [test] returns *)

Lemma count_equal_le (preds targets : list nat) :
  count_equal preds targets ≤ length preds.
Proof.
  unfold count_equal. etrans; [apply length_filter|].
  rewrite length_zip_with. lia.
Qed.

Lemma batch_correct_le {Params} base fc (θ : Params) (mode : bool)
    (batches : list Batch) :
  sum_list (batch_correct base fc θ mode <$> batches)
  ≤ sum_list (samples <$> batches).
Proof.
  induction batches as [|data batches IH]; [done|].
  rewrite !fmap_cons. cbn [sum_list sum_list_with].
  pose proof (count_equal_le (argmax <$> batch_outputs base fc θ mode data)
                (b_targets data)) as Hle.
  rewrite length_fmap in Hle. unfold batch_outputs in Hle.
  rewrite length_forward in Hle. apply Nat.add_le_mono; [exact Hle|exact IH].
Qed.

Section test_results.
Context {Params OptState : Type}.
Variable base : Params → bool → list Z * list Z * list Z → list Q.
Variable fc : Params → list Q → list Q.
Variable criterion : list (list Q) → list nat → Q.
Implicit Types (w : World Params OptState) (dl : iterator Batch).

(** X5. Whenever [test] returns a pair, its accuracy is a fraction between
    0 and 1: the correct predictions counted in a batch never exceed the
    samples counted for it. *)
Theorem test_accuracy_is_a_fraction dl (max_steps : option Q) w
    (mean_loss accuracy : Q) :
  (test base fc criterion dl max_steps w).1 = Ok (Some (mean_loss, accuracy)) →
  (0 <= accuracy)%Q ∧ (accuracy <= 1)%Q.
Proof.
  intros Htest.
  destruct (test_returns_pair base fc criterion dl max_steps w _ _ Htest)
    as (Hn & -> & _).
  set (done_ := take _ _) in *.
  pose proof (batch_correct_le base fc (params w) false done_) as Hle.
  set (c := sum_list (batch_correct _ _ _ _ <$> _)) in *.
  set (n := sum_list (samples <$> _)) in *.
  assert (0 < Q_of_nat n)%Q as HnQ.
  { unfold Q_of_nat. rewrite <-(Zlt_Qlt 0). lia. }
  split.
  - apply Qle_shift_div_l; [done|]. rewrite Qmult_0_l.
    unfold Q_of_nat. rewrite <-(Zle_Qle 0). lia.
  - apply Qle_shift_div_r; [done|]. rewrite Qmult_1_l.
    unfold Q_of_nat. rewrite <-Zle_Qle. lia.
Qed.

(** X6. What [test] returns depends on the state it is called in only
    through the parameters of the model: not on the mode the model was
    left in (the call switches to evaluation itself), not on the state of
    the optimizer, not on what was printed before.  So evaluating a second
    time over the same batches returns the same losses and accuracy. *)
Theorem test_result_depends_on_parameters_only dl (max_steps : option Q) w w' :
  params w = params w' →
  (test base fc criterion dl max_steps w).1
  = (test base fc criterion dl max_steps w').1 ∧
  (test base fc criterion dl max_steps
     (test base fc criterion dl max_steps w).2).1
  = (test base fc criterion dl max_steps w).1.
Proof.
  assert (∀ v v' : World Params OptState, params v = params v' →
            (test base fc criterion dl max_steps v).1
            = (test base fc criterion dl max_steps v').1) as Hdep.
  { intros v v' Hp. destruct (active max_steps) as [b|] eqn:Hact.
    - rewrite !(test_active base fc criterion dl max_steps b _ Hact).
      pose proof (test_loop_outcome base fc criterion b 1 dl zero_totals
                    (entered Test max_steps false v)
                    (entered Test max_steps false v') Hp eq_refl) as Hout.
      destruct (test_loop _ _ _ _ _ _ _ (entered Test max_steps false v))
        as [r1 w1].
      destruct (test_loop _ _ _ _ _ _ _ (entered Test max_steps false v'))
        as [r2 w2].
      simpl in Hout. subst r2. by destruct r1.
    - destruct max_steps as [q|]; [|done]. simpl in Hact.
      destruct (Qle_bool q 0) eqn:Hq; [|done]. apply Qle_bool_iff in Hq.
      by rewrite !test_inactive. }
  intros Hp. split; [by apply Hdep|].
  apply Hdep. by destruct (test_frame base fc criterion dl max_steps w) as [-> _].
Qed.

(** [test] leaves the model in evaluation mode whenever it enters its
    loop. *)
Lemma test_mode dl (max_steps : option Q) w :
  training (test base fc criterion dl max_steps w).2
  = (if active max_steps then false else training w).
Proof.
  destruct (active max_steps) as [b|] eqn:Hact.
  - rewrite (test_active base fc criterion dl max_steps b w Hact).
    destruct (test_loop_frame base fc criterion b 1 dl zero_totals
                (entered Test max_steps false w)) as (evs & Hw' & _).
    destruct (test_loop _ _ _ _ _ _ _ _) as [[t'|e] w']; simpl in *; by subst w'.
  - destruct max_steps as [q|]; [|done]. simpl in Hact.
    destruct (Qle_bool q 0) eqn:Hq; [|done]. apply Qle_bool_iff in Hq.
    by rewrite test_inactive.
Qed.

Lemma test_pair_active dl (max_steps : option Q) w (p : Q * Q) :
  (test base fc criterion dl max_steps w).1 = Ok (Some p) →
  is_Some (active max_steps).
Proof.
  destruct (active max_steps) as [b|] eqn:Hact; [by eexists|].
  destruct max_steps as [q|]; [|done]. simpl in Hact.
  destruct (Qle_bool q 0) eqn:Hq; [|done]. apply Qle_bool_iff in Hq.
  by rewrite test_inactive.
Qed.
End test_results.

(** X5 and X6 on two batches of the small instance. *)
Lemma test_accuracy_is_a_fraction_witness :
  let dl := of_list [demo_batch; demo_batch] in
  (test demo_base demo_fc demo_criterion dl None demo_world).1
  = Ok (Some (4 # 4, 2 # 4)%Q) ∧
  (0 <= 2 # 4)%Q ∧ (2 # 4 <= 1)%Q.
Proof.
  intros dl. split; [vm_compute; reflexivity|].
  apply (test_accuracy_is_a_fraction demo_base demo_fc demo_criterion dl None
           demo_world (4 # 4) (2 # 4)).
  vm_compute. reflexivity.
Defined.

Lemma test_result_depends_on_parameters_only_witness :
  let dl := of_list [demo_batch; demo_batch] in
  let trained :=
    (train demo_base demo_fc demo_criterion demo_adam dl (Some (1 # 2)) demo_world).2 in
  training trained = true ∧ training demo_world = false ∧
  (test demo_base demo_fc demo_criterion dl None demo_world).1
  = (test demo_base demo_fc demo_criterion dl None trained).1.
Proof.
  intros dl trained. split; [vm_compute; reflexivity|]. split; [reflexivity|].
  apply (test_result_depends_on_parameters_only demo_base demo_fc demo_criterion
           dl None demo_world trained).
  vm_compute. reflexivity.
Defined.

(** ** What [train] does to the model *)

Section train_results.
Context {Params OptState : Type}.
Variable base : Params → bool → list Z * list Z * list Z → list Q.
Variable fc : Params → list Q → list Q.
Variable criterion : list (list Q) → list nat → Q.
Variable adam : OptState → Params → Batch → OptState * Params.
Implicit Types (w : World Params OptState) (dl : iterator Batch).

Local Opaque Nat.div.

Lemma capped_inactive (max_steps : option Q) (n : nat) :
  active max_steps = None → capped max_steps n = 0.
Proof.
  unfold active, capped. destruct max_steps as [q|]; [|done].
  by destruct (Qle_bool q 0).
Qed.

Lemma train_steps dl (max_steps : option Q) w :
  nonempty_batches dl →
  let k := capped max_steps (length (items dl)) in
  ∃ r w' evs,
    train base fc criterion adam dl max_steps w = (r, w') ∧
    trace w' = trace w ++ EvEnter Train max_steps :: evs ∧
    steps_taken evs = k ∧
    progress_lines Train evs = k / 100 ∧
    progress_lines Test evs = 0 ∧
    printed_epochs evs = [] ∧
    (opt_state w', params w')
    = apply_steps adam (opt_state w, params w) (take k (items dl)).
Proof.
  intros Hne k. subst k. destruct (active max_steps) as [b|] eqn:Hact.
  - rewrite (train_active base fc criterion adam dl max_steps b w Hact).
    destruct (train_loop_steps base fc criterion adam b 1 dl zero_totals
                (entered Train max_steps true w))
      as (r & w' & evs & -> & Htrace & Hst & Hpr & Hpt & Hpe & Hfold); [lia|done|].
    rewrite (active_run_length _ _ _ Hact) in Hst, Hpr, Hfold.
    rewrite cadence_hits_from_1 in Hpr. simpl in Htrace, Hfold.
    rewrite <-app_assoc in Htrace.
    destruct r as [t'|e]; eexists _, w', evs; by split_and!.
  - rewrite (capped_inactive _ _ Hact).
    destruct max_steps as [q|]; [|done]. simpl in Hact.
    destruct (Qle_bool q 0) eqn:Hq; [|done]. apply Qle_bool_iff in Hq.
    rewrite train_inactive by done. by eexists (Ok None), _, [].
Qed.

(** X7. On a loader without empty batches, [train] makes exactly one
    optimizer step per iteration it runs, in the order of the batches: the
    parameters and the optimizer state it leaves are those obtained by
    folding the step over the batches the cap allows, whether the call
    then returns or raises. *)
Theorem train_steps_once_per_batch dl (max_steps : option Q) w :
  nonempty_batches dl →
  let k := capped max_steps (length (items dl)) in
  let trained := (train base fc criterion adam dl max_steps w).2 in
  (∃ evs, trace trained = trace w ++ evs ∧ steps_taken evs = k) ∧
  (opt_state trained, params trained)
  = apply_steps adam (opt_state w, params w) (take k (items dl)).
Proof.
  intros Hne k trained.
  destruct (train_steps dl max_steps w Hne)
    as (r & w' & evs & Hrun & Htrace & Hst & _ & _ & _ & Hfold).
  subst trained. rewrite Hrun. simpl. split; [|done].
  exists (EvEnter Train max_steps :: evs). split; [done|].
  change (EvEnter Train max_steps :: evs) with ([EvEnter Train max_steps] ++ evs).
  by rewrite steps_taken_app.
Qed.

Lemma zero_iterations dl (max_steps : option Q) (b : bound) w :
  active max_steps = Some b → run_length b 1 dl = 0 → (∀ e, dl ≠ Throw e) →
  train base fc criterion adam dl max_steps w
  = (Raise ZeroDivisionError, entered Train max_steps true w) ∧
  test base fc criterion dl max_steps w
  = (Raise ZeroDivisionError, entered Test max_steps false w).
Proof.
  intros Hact Hk Hdl.
  rewrite (train_active base fc criterion adam dl max_steps b w Hact).
  rewrite (test_active base fc criterion dl max_steps b w Hact).
  destruct dl as [|e|data rest].
  - done.
  - by destruct (Hdl e).
  - cbn [run_length] in Hk. cbn [train_loop test_loop].
    destruct (exceeds 1 b); [done|lia].
Qed.

(** X8. A call of [train] or [test] that enters its loop and leaves it
    before the first iteration (the loader is exhausted at once, or the
    cap is positive and below 1) does not return: the mean after the loop
    divides by a sample count of zero.  The model has been switched to the
    mode of the call and nothing else has changed. *)
Theorem no_iteration_divides_by_zero dl (max_steps : option Q) w :
  is_Some (active max_steps) →
  capped max_steps (length (items dl)) = 0 →
  (∀ e, dl ≠ Throw e) →
  train base fc criterion adam dl max_steps w
  = (Raise ZeroDivisionError, entered Train max_steps true w) ∧
  test base fc criterion dl max_steps w
  = (Raise ZeroDivisionError, entered Test max_steps false w).
Proof.
  intros [b Hact] Hk Hdl.
  rewrite <-(active_run_length _ b dl Hact) in Hk.
  by apply (zero_iterations dl max_steps b w).
Qed.

(** X9. On a loader without empty batches, [train] and [test] print one
    progress line per full hundred of iterations they run: the number of
    iterations the cap allows, divided by 100 and rounded down. *)
Theorem progress_line_count dl (max_steps : option Q) w :
  nonempty_batches dl →
  let k := capped max_steps (length (items dl)) in
  (∃ evs, trace (train base fc criterion adam dl max_steps w).2 = trace w ++ evs ∧
          progress_lines Train evs = k / 100 ∧ progress_lines Test evs = 0) ∧
  (∃ evs, trace (test base fc criterion dl max_steps w).2 = trace w ++ evs ∧
          progress_lines Test evs = k / 100 ∧ progress_lines Train evs = 0).
Proof.
  intros Hne k. split.
  - destruct (train_steps dl max_steps w Hne)
      as (r & w' & evs & Hrun & Htrace & _ & Hpr & Hpt & _ & _).
    rewrite Hrun. exists (EvEnter Train max_steps :: evs). split; [done|].
    change (EvEnter Train max_steps :: evs) with ([EvEnter Train max_steps] ++ evs).
    by rewrite !progress_lines_app.
  - subst k. destruct (active max_steps) as [b|] eqn:Hact.
    + rewrite (test_active base fc criterion dl max_steps b w Hact).
      destruct (test_loop_count base fc criterion b 1 dl zero_totals
                  (entered Test max_steps false w))
        as (r & evs & -> & _ & Hpr & Hpt & _); [lia|done|].
      rewrite (active_run_length _ _ _ Hact), cadence_hits_from_1 in Hpr.
      exists (EvEnter Test max_steps :: evs). split.
      * destruct r as [t'|e]; simpl; by rewrite <-app_assoc.
      * change (EvEnter Test max_steps :: evs)
          with ([EvEnter Test max_steps] ++ evs).
        by rewrite !progress_lines_app.
    + rewrite (capped_inactive _ _ Hact).
      destruct max_steps as [q|]; [|done]. simpl in Hact.
      destruct (Qle_bool q 0) eqn:Hq; [|done]. apply Qle_bool_iff in Hq.
      rewrite test_inactive by done. by eexists.
Qed.

(** [train] leaves the model in training mode whenever it enters its
    loop. *)
Lemma train_mode dl (max_steps : option Q) w :
  training (train base fc criterion adam dl max_steps w).2
  = (if active max_steps then true else training w).
Proof.
  destruct (active max_steps) as [b|] eqn:Hact.
  - rewrite (train_active base fc criterion adam dl max_steps b w Hact).
    pose proof (train_loop_mode base fc criterion adam b 1 dl zero_totals
                  (entered Train max_steps true w)) as Hmode.
    by destruct (train_loop _ _ _ _ _ _ _ _ _) as [[t'|e] w'].
  - destruct max_steps as [q|]; [|done]. simpl in Hact.
    destruct (Qle_bool q 0) eqn:Hq; [|done]. apply Qle_bool_iff in Hq.
    by rewrite train_inactive.
Qed.

Lemma test_prints_nothing dl (max_steps : option Q) w :
  nonempty_batches dl →
  ∃ r w' evs,
    test base fc criterion dl max_steps w = (r, w') ∧
    trace w' = trace w ++ evs ∧ printed_epochs evs = [].
Proof.
  intros Hne. destruct (active max_steps) as [b|] eqn:Hact.
  - rewrite (test_active base fc criterion dl max_steps b w Hact).
    destruct (test_loop_count base fc criterion b 1 dl zero_totals
                (entered Test max_steps false w))
      as (r & evs & -> & _ & _ & _ & Hpe); [lia|done|].
    destruct r as [t'|e]; eexists _, _, (EvEnter Test max_steps :: evs);
      (split; [done|]); simpl; by rewrite <-app_assoc.
  - destruct max_steps as [q|]; [|done]. simpl in Hact.
    destruct (Qle_bool q 0) eqn:Hq; [|done]. apply Qle_bool_iff in Hq.
    rewrite test_inactive by done. by eexists _, _, _.
Qed.
End train_results.

(** X7 on three batches under a cap of two and a half steps: two steps. *)
Lemma train_steps_once_per_batch_witness :
  let dl := of_list [demo_batch; demo_batch; demo_batch] in
  let trained :=
    (train demo_base demo_fc demo_criterion demo_adam dl (Some (5 # 2)) demo_world).2 in
  nonempty_batches dl ∧ params trained = 2%Z ∧
  ∃ evs, trace trained = trace demo_world ++ evs ∧ steps_taken evs = 2.
Proof.
  intros dl trained.
  assert (nonempty_batches dl) as Hne.
  { vm_compute. repeat constructor. }
  split; [exact Hne|].
  destruct (train_steps_once_per_batch demo_base demo_fc demo_criterion demo_adam
              dl (Some (5 # 2)) demo_world Hne) as [Hsteps Hfold].
  split; [|exact Hsteps].
  exact (f_equal snd Hfold).
Defined.

(** X8 on one batch under a cap of half a step. *)
Lemma no_iteration_divides_by_zero_witness :
  let dl := of_list [demo_batch] in
  is_Some (active (Some (1 # 2))) ∧
  capped (Some (1 # 2)) (length (items dl)) = 0 ∧
  (train demo_base demo_fc demo_criterion demo_adam dl (Some (1 # 2)) demo_world).1
  = Raise ZeroDivisionError.
Proof.
  intros dl.
  assert (is_Some (active (Some (1 # 2)))) as Hact by (by eexists).
  assert (capped (Some (1 # 2)) (length (items dl)) = 0) as Hk
    by (vm_compute; reflexivity).
  split; [exact Hact|]. split; [exact Hk|].
  destruct (no_iteration_divides_by_zero demo_base demo_fc demo_criterion demo_adam
              dl (Some (1 # 2)) demo_world Hact Hk) as [-> _]; [|reflexivity].
  intros e. discriminate.
Defined.

(** X9 on 250 batches: two progress lines. *)
Lemma progress_line_count_witness :
  let dl := of_list (replicate 250 demo_batch) in
  nonempty_batches dl ∧
  ∃ evs,
    trace (train demo_base demo_fc demo_criterion demo_adam dl None demo_world).2
    = trace demo_world ++ evs ∧
    progress_lines Train evs = 2.
Proof.
  intros dl.
  assert (nonempty_batches dl) as Hne.
  { unfold nonempty_batches, dl. rewrite items_of_list.
    apply Forall_replicate. vm_compute. lia. }
  split; [exact Hne|].
  destruct (progress_line_count demo_base demo_fc demo_criterion demo_adam
              dl None demo_world Hne) as [(evs & Htrace & Hpr & _) _].
  exists evs. split; [exact Htrace|]. rewrite Hpr.
  unfold dl. rewrite items_of_list. vm_compute. reflexivity.
Defined.

(** ** The mode the training cell leaves the model in *)

Section driver_mode.
Context {Params OptState : Type}.
Variable base : Params → bool → list Z * list Z * list Z → list Q.
Variable fc : Params → list Q → list Q.
Variable criterion : list (list Q) → list nat → Q.
Variable adam : OptState → Params → Batch → OptState * Params.
Variables train_dataloader test_dataloader : Loader.
Implicit Types (w : World Params OptState).

(** A pass that completes has evaluated last. *)
Lemma run_pass_mode (epoch pass : nat) (ms_train ms_test : option Q) w w' :
  run_pass base fc criterion adam train_dataloader test_dataloader epoch pass
    ms_train ms_test w = (Ok (), w') →
  training w' = false.
Proof.
  unfold run_pass, mbind, M_bind.
  destruct (train _ _ _ _ _ _ _) as [[train_loss|e] w1]; [|done].
  pose proof (test_mode base fc criterion (test_dataloader pass) ms_test w1) as Hmode.
  pose proof (test_pair_active base fc criterion (test_dataloader pass) ms_test w1)
    as Hact.
  destruct (test _ _ _ _ _ _) as [[r|e] w2]; [|done].
  destruct r as [[test_loss test_accuracy]|]; simpl; [|done].
  destruct train_loss as [v|]; simpl; [|done].
  intros [= <-]. simpl in *.
  destruct (Hact _ eq_refl) as [b Hb]. by rewrite Hb in Hmode.
Qed.

Lemma for_epochs_mode (epochs : list nat) (body : nat → M Params OptState unit)
    w w' :
  (∀ epoch v v', body epoch v = (Ok (), v') → training v' = false) →
  for_epochs epochs body w = (Ok (), w') →
  training w' = (if epochs is [] then training w else false).
Proof.
  intros Hbody. revert w. induction epochs as [|epoch epochs IH]; intros w.
  - by intros [= <-].
  - cbn [for_epochs]. unfold mbind at 1, M_bind at 1.
    destruct (body epoch w) as [[[]|e] w1] eqn:Hfirst; [|done].
    intros Hrest. rewrite (IH _ Hrest).
    destruct epochs; [by eapply Hbody|done].
Qed.

Variables NUM_EPOCHS FRACTION_TEST : spec_float.
Variables TRAIN_BATCH_SIZE TEST_BATCH_SIZE : Z.

(** X10. If the training cell runs to completion after at least one pass,
    it leaves the model in evaluation mode: every pass ends with a call of
    [test] that entered its loop, and nothing after it switches the mode
    back.  There is a pass when the epoch count is at least 1 and when the
    remainder cap is not zero, which is so for every epoch count from 2^-900
    up with a positive batch size below 2^53.  The inference cell, which
    never sets the mode, so calls the model in evaluation mode. *)
Theorem fit_leaves_evaluation_mode w w' :
  fit base fc criterion adam NUM_EPOCHS FRACTION_TEST TRAIN_BATCH_SIZE
    TEST_BATCH_SIZE train_dataloader test_dataloader w = (Ok (), w') →
  (1 <= Float.value NUM_EPOCHS)%Q ∨
  (∃ whole_epochs remainder,
     Float.to_int NUM_EPOCHS = Ok whole_epochs ∧
     remainder_train_steps NUM_EPOCHS TRAIN_BATCH_SIZE whole_epochs
     = Ok remainder ∧
     Float.is_zero remainder = false) ∨
  (Float.valid NUM_EPOCHS = true ∧ (0 < TRAIN_BATCH_SIZE < 2 ^ 53)%Z ∧
   (2 ^ (-900) <= Float.value NUM_EPOCHS)%Q) →
  training w' = false.
Proof.
  unfold fit. unfold mbind at 1, M_bind at 1, lift at 1.
  destruct (Float.to_int NUM_EPOCHS) as [whole_epochs|e] eqn:Hwhole; [|done].
  unfold mbind at 1, M_bind at 1, lift at 1.
  destruct (remainder_train_steps _ _ _) as [remainder|e] eqn:Hrem; [|done].
  unfold mbind at 1, M_bind at 1, lift at 1.
  destruct (max_test_steps _ _) as [test_steps|e]; [|done].
  unfold mbind at 1, M_bind at 1.
  destruct (for_epochs _ _ w) as [[[]|e] w1] eqn:Hloop; [|done].
  apply for_epochs_mode in Hloop; [|intros ???; apply run_pass_mode].
  unfold Float.truthy.
  destruct (Float.is_zero remainder) eqn:Hz; cbn [negb];
    [|intros ? _; by eapply run_pass_mode].
  assert (Float.isfinite NUM_EPOCHS = true) as Hfin by (by destruct NUM_EPOCHS).
  rewrite (to_int_finite _ Hfin) in Hwhole. injection Hwhole as <-.
  set (E := Float.value NUM_EPOCHS) in *.
  assert ((1 <= E)%Q → training w1 = false) as Hpass.
  { intros Hone. rewrite Hloop.
    destruct (Z.to_nat (py_int E)) as [|n] eqn:Hn; [|done]. exfalso.
    assert (0 <= E)%Q as Hpos by (eapply Qle_trans; [|exact Hone]; done).
    rewrite (py_int_floor _ Hpos) in Hn.
    apply Qfloor_resp_le in Hone. change (Qfloor 1) with 1%Z in Hone. lia. }
  intros [= <-] [Hone|[(whole_epochs' & remainder' & Hwhole' & Hrem' & Hnz)|
                       (Hvalid & HB & Hsmall)]].
  - by apply Hpass.
  - simplify_eq. congruence.
  - destruct (Qlt_le_dec E 1) as [Hlt|Hone]; [exfalso|by apply Hpass].
    pose proof (two_power_pos (-900)) as Hpos. fold E in Hsmall.
    assert (0 <= E)%Q as HE by lra.
    destruct (py_int_toward_zero E) as [Htrunc _].
    destruct (Htrunc HE) as (H0 & Hle & _).
    assert (py_int E = 0%Z) as Hnone.
    { assert (inject_Z (py_int E) < inject_Z 1)%Q as Hlt'
        by (change (inject_Z 1) with 1%Q; lra).
      rewrite <-Zlt_Qlt in Hlt'. lia. }
    destruct (remainder_accuracy NUM_EPOCHS TRAIN_BATCH_SIZE remainder Hvalid Hfin
                HB Hrem HE) as (m & e & -> & _); [|done].
    fold E. rewrite Hnone. change (inject_Z 0) with 0%Q. lra.
Qed.
End driver_mode.

(** X10 on one epoch over one batch, from a model in training mode. *)
Lemma fit_leaves_evaluation_mode_witness :
  let loader : Loader := fun _ => of_list [demo_batch] in
  let w : World Z unit :=
    {| params := 0%Z; training := true; opt_state := (); trace := [] |} in
  let ran :=
    fit demo_base demo_fc demo_criterion demo_adam Float.one Float.one 128 128
      loader loader w in
  ran.1 = Ok () ∧ training ran.2 = false.
Proof.
  intros loader w ran. split; [vm_compute; reflexivity|].
  apply (fit_leaves_evaluation_mode demo_base demo_fc demo_criterion demo_adam
           loader loader Float.one Float.one 128 128 w ran.2).
  - vm_compute. reflexivity.
  - left. vm_compute. discriminate.
Defined.

(** A positive epoch count alone does not give a pass: with the smallest
    positive float as epoch count and a batch size of a million the
    remainder cap rounds to zero, no pass runs, and the model stays in the
    mode it was in. *)
Lemma tiny_epoch_count_runs_no_pass :
  let loader : Loader := fun _ => of_list [demo_batch] in
  let w : World Z unit :=
    {| params := 0%Z; training := true; opt_state := (); trace := [] |} in
  let tiny := S754_finite false 1 (-1074) in
  Float.valid tiny = true ∧ (0 < Float.value tiny)%Q ∧
  fit demo_base demo_fc demo_criterion demo_adam tiny Float.one 1000000 128
    loader loader w = (Ok (), w).
Proof.
  cbv zeta. split_and!; vm_compute; reflexivity.
Qed.

(** ** The summary lines of the training cell *)

Section driver_lines.
Context {Params OptState : Type}.
Variable base : Params → bool → list Z * list Z * list Z → list Q.
Variable fc : Params → list Q → list Q.
Variable criterion : list (list Q) → list nat → Q.
Variable adam : OptState → Params → Batch → OptState * Params.
Variables train_dataloader test_dataloader : Loader.
Implicit Types (w : World Params OptState).

Local Notation run_pass' :=
  (run_pass base fc criterion adam train_dataloader test_dataloader).

(** A pass that succeeds prints one summary line, with the epoch number it
    is given. *)
Lemma run_pass_lines (epoch pass : nat) (ms_train ms_test : option Q) w :
  nonempty_batches (train_dataloader pass) →
  nonempty_batches (test_dataloader pass) →
  succeeds ms_train (train_dataloader pass) →
  succeeds ms_test (test_dataloader pass) →
  ∃ w', run_pass' epoch pass ms_train ms_test w = (Ok (), w') ∧
        printed_epochs (trace w') = printed_epochs (trace w) ++ [epoch].
Proof.
  intros Hne1 Hne2 Hs1 Hs2. unfold run_pass.
  destruct (train_steps base fc criterion adam (train_dataloader pass) ms_train w Hne1)
    as (r1 & w1 & evs1 & Htrain & Htr1 & _ & _ & _ & Hpe1 & _).
  destruct (train_succeeds base fc criterion adam (train_dataloader pass) ms_train w
              Hne1 Hs1) as [train_loss Hr1].
  rewrite Htrain in Hr1. simpl in Hr1. subst r1.
  unfold mbind at 1, M_bind at 1. rewrite Htrain.
  destruct (test_prints_nothing base fc criterion (test_dataloader pass) ms_test w1 Hne2)
    as (r2 & w2 & evs2 & Htest & Htr2 & Hpe2).
  destruct (test_succeeds base fc criterion (test_dataloader pass) ms_test w1
              Hne2 Hs2) as (test_loss & test_accuracy & Hr2).
  rewrite Htest in Hr2. simpl in Hr2. subst r2.
  unfold mbind at 1, M_bind at 1. rewrite Htest. simpl.
  eexists. split; [done|]. simpl. rewrite Htr2, Htr1.
  change (EvEnter Train ms_train :: evs1) with ([EvEnter Train ms_train] ++ evs1).
  unfold printed_epochs in *. rewrite !omap_app, Hpe1, Hpe2. simpl.
  by rewrite !app_nil_r.
Qed.

Lemma for_epochs_lines (first n : nat) (ms_test : option Q) w :
  (∀ k, nonempty_batches (train_dataloader k)) →
  (∀ k, nonempty_batches (test_dataloader k)) →
  (∀ k, succeeds None (train_dataloader k)) →
  (∀ k, succeeds ms_test (test_dataloader k)) →
  ∃ w',
    for_epochs (seq first n) (fun epoch => run_pass' epoch epoch None ms_test) w
    = (Ok (), w') ∧
    printed_epochs (trace w') = printed_epochs (trace w) ++ seq first n.
Proof.
  intros Hne1 Hne2 Hs1 Hs2. revert first w.
  induction n as [|n IH]; intros first w.
  - exists w. simpl. by rewrite app_nil_r.
  - cbn [seq for_epochs]. unfold mbind at 1, M_bind at 1.
    destruct (run_pass_lines first first None ms_test w (Hne1 first) (Hne2 first)
                (Hs1 first) (Hs2 first)) as (w1 & -> & Hpe1).
    destruct (IH (S first) w1) as (w' & -> & Hpe).
    exists w'. split; [done|]. by rewrite Hpe, Hpe1, <-app_assoc.
Qed.

(** A remainder pass whose cap does not reach one step fails in [train],
    before any evaluation. *)
Lemma run_pass_short (epoch pass : nat) (q : Q) (ms_test : option Q) w :
  (0 < q)%Q → (q < 1)%Q → (∀ e, train_dataloader pass ≠ Throw e) →
  run_pass' epoch pass (Some q) ms_test w
  = (Raise ZeroDivisionError, entered Train (Some q) true w).
Proof.
  intros Hq0 Hq1 Hdl. unfold run_pass, mbind, M_bind.
  destruct (capped_positive q (length (items (train_dataloader pass))) Hq0)
    as [Hcap Hact].
  destruct (zero_iterations base fc criterion adam (train_dataloader pass)
              (Some q) (finite q) w Hact) as [-> _]; [|done|done].
  rewrite (active_run_length _ _ _ Hact), Hcap.
  pose proof (whole_steps_lt q 1 (Qlt_le_weak _ _ Hq0) Hq1). lia.
Qed.

Variables NUM_EPOCHS FRACTION_TEST : spec_float.
Variables TRAIN_BATCH_SIZE TEST_BATCH_SIZE : Z.
Variable test_steps : option spec_float.

Hypothesis epoch_count_valid : Float.valid NUM_EPOCHS = true.
Hypothesis epoch_count_finite : Float.isfinite NUM_EPOCHS = true.
Hypothesis train_batch_size_positive : (0 < TRAIN_BATCH_SIZE < 2 ^ 53)%Z.
Hypothesis test_cap_computed :
  max_test_steps FRACTION_TEST TEST_BATCH_SIZE = Ok test_steps.
Hypothesis test_cap_reaches_a_step : reaches_a_step (test_steps ≫= Float.as_cap).
Hypothesis train_passes_succeed :
  ∀ k, nonempty_batches (train_dataloader k) ∧
       ending (train_dataloader k) = None ∧ items (train_dataloader k) ≠ [].
Hypothesis test_passes_succeed :
  ∀ k, nonempty_batches (test_dataloader k) ∧
       ending (test_dataloader k) = None ∧ items (test_dataloader k) ≠ [].

Local Notation E := (Float.value NUM_EPOCHS).
Local Notation whole := (Z.to_nat (py_int E)).
Local Notation test_cap := (test_steps ≫= Float.as_cap).
Local Notation ran w :=
  (fit base fc criterion adam NUM_EPOCHS FRACTION_TEST TRAIN_BATCH_SIZE
     TEST_BATCH_SIZE train_dataloader test_dataloader w).

Lemma test_cap_succeeds (k : nat) : succeeds test_cap (test_dataloader k).
Proof.
  destruct (test_passes_succeed k) as (? & ? & ?).
  by apply good_loader_succeeds.
Qed.

Lemma whole_epochs_lines w :
  ∃ w1,
    for_epochs (seq 0 whole)
      (fun epoch => run_pass' epoch epoch None test_cap) w = (Ok (), w1) ∧
    printed_epochs (trace w1) = printed_epochs (trace w) ++ seq 0 whole.
Proof.
  apply for_epochs_lines.
  - intros k. apply train_passes_succeed.
  - intros k. apply test_passes_succeed.
  - intros k. destruct (train_passes_succeed k) as (? & ? & ?).
    apply good_loader_succeeds; auto.
  - apply test_cap_succeeds.
Qed.

(** X11. For a finite epoch count, with a positive training batch size
    below 2^53, a test cap that allows a step and loaders whose passes
    succeed, the training cell prints one summary line per pass.  The whole
    epochs are numbered from 0; the line of the extra pass of a fractional
    epoch count, run when the remainder cap allows a step, repeats the
    number of the last whole epoch (0 when there is none) instead of the
    next number.  An epoch count that is a whole number leaves a remainder
    cap of zero, and there is no extra line. *)
Theorem summary_line_numbers w :
  ∃ remainder,
    remainder_train_steps NUM_EPOCHS TRAIN_BATCH_SIZE (py_int E) = Ok remainder ∧
    ((E == inject_Z (py_int E))%Q →
     (ran w).1 = Ok () ∧
     printed_epochs (trace (ran w).2) = printed_epochs (trace w) ++ seq 0 whole) ∧
    (Float.is_zero remainder = true →
     (ran w).1 = Ok () ∧
     printed_epochs (trace (ran w).2) = printed_epochs (trace w) ++ seq 0 whole) ∧
    (reaches_a_step (Float.as_cap remainder) →
     (ran w).1 = Ok () ∧
     printed_epochs (trace (ran w).2)
     = printed_epochs (trace w) ++ seq 0 whole ++ [pred whole]).
Proof.
  destruct (remainder_defined NUM_EPOCHS TRAIN_BATCH_SIZE epoch_count_valid
              epoch_count_finite train_batch_size_positive) as [remainder Hrem].
  destruct (remainder_sign NUM_EPOCHS TRAIN_BATCH_SIZE remainder epoch_count_valid
              epoch_count_finite ltac:(lia) Hrem) as (_ & _ & Hzero).
  exists remainder. split; [done|].
  rewrite (fit_unfold _ _ _ _ _ _ _ _ _ _ _ _ _ _
             (to_int_finite _ epoch_count_finite) Hrem test_cap_computed).
  cbv zeta. destruct (whole_epochs_lines w) as (w1 & -> & Hpe1).
  assert (Float.is_zero remainder = true →
          (if Float.is_zero remainder
           then (Ok (), w1)
           else run_pass' (pred whole) whole (Float.as_cap remainder) test_cap w1).1
          = Ok () ∧
          printed_epochs
            (trace (if Float.is_zero remainder
                    then (Ok (), w1)
                    else run_pass' (pred whole) whole (Float.as_cap remainder)
                           test_cap w1).2)
          = printed_epochs (trace w) ++ seq 0 whole) as Hnone
    by (by intros ->).
  split_and!.
  - intros Hwhole. by apply Hnone, Hzero.
  - exact Hnone.
  - intros Hcap.
    assert (Float.is_zero remainder = false) as ->.
    { destruct remainder as [s| | |]; try done.
      destruct Hcap as [?|(q & [= <-] & Hq)]; done. }
    destruct (run_pass_lines (pred whole) whole (Float.as_cap remainder) test_cap w1)
      as (w2 & -> & Hpe2).
    + apply train_passes_succeed.
    + apply test_passes_succeed.
    + destruct (train_passes_succeed whole) as (? & ? & ?).
      by apply good_loader_succeeds.
    + apply test_cap_succeeds.
    + simpl. by rewrite Hpe2, Hpe1, <-app_assoc.
Qed.

(** X12. For a finite epoch count, with a test cap that allows a step and
    loaders whose passes succeed: when the remainder cap that the cell
    computes, a float, is positive but below one step, the training cell
    fails with [ZeroDivisionError], after all whole epochs have been
    trained, evaluated and reported and before the extra pass is
    evaluated. *)
Theorem short_remainder_fails w (remainder : spec_float) (cap : Q) :
  remainder_train_steps NUM_EPOCHS TRAIN_BATCH_SIZE (py_int E) = Ok remainder →
  Float.as_cap remainder = Some cap → (0 < cap)%Q → (cap < 1)%Q →
  (ran w).1 = Raise ZeroDivisionError ∧
  printed_epochs (trace (ran w).2) = printed_epochs (trace w) ++ seq 0 whole.
Proof.
  intros Hrem Hcap Hcap0 Hcap1.
  rewrite (fit_unfold _ _ _ _ _ _ _ _ _ _ _ _ _ _
             (to_int_finite _ epoch_count_finite) Hrem test_cap_computed).
  cbv zeta. destruct (whole_epochs_lines w) as (w1 & -> & Hpe1).
  assert (Float.is_zero remainder = false) as ->.
  { destruct remainder as [s| | |]; try done. simpl in Hcap.
    injection Hcap as <-. by destruct (Qlt_irrefl 0). }
  rewrite Hcap, run_pass_short; [|done|done|].
  - split; [done|]. simpl. unfold printed_epochs in *.
    by rewrite omap_app, Hpe1, app_nil_r.
  - intros e He. destruct (train_passes_succeed whole) as (_ & Hend & _).
    by rewrite He in Hend.
Qed.
End driver_lines.

Lemma single_batch_passes :
  let loader : Loader := fun _ => of_list [demo_batch] in
  ∀ k, nonempty_batches (loader k) ∧ ending (loader k) = None ∧
       items (loader k) ≠ [].
Proof.
  intros loader k. split; [vm_compute; repeat constructor|].
  split; [reflexivity|discriminate].
Qed.

(** X11 on one and a half epochs: two lines, both numbered 0. *)
Lemma summary_line_numbers_witness :
  let loader : Loader := fun _ => of_list [demo_batch] in
  let ran :=
    fit demo_base demo_fc demo_criterion demo_adam
      (S754_finite false 6755399441055744 (-52)) Float.one 128 128
      loader loader demo_world in
  ran.1 = Ok () ∧ printed_epochs (trace ran.2) = [0; 0].
Proof.
  intros loader ran.
  destruct (summary_line_numbers demo_base demo_fc demo_criterion demo_adam
              loader loader (S754_finite false 6755399441055744 (-52)) Float.one
              128 128 None)
    with (w := demo_world) as (remainder & Hrem & _ & _ & Hextra).
  - reflexivity.
  - reflexivity.
  - lia.
  - reflexivity.
  - by left.
  - exact single_batch_passes.
  - exact single_batch_passes.
  - assert (remainder = S754_finite false 6988358467190784 (-43)) as ->.
    { vm_compute in Hrem. by injection Hrem. }
    apply Hextra. right. eexists. split; [reflexivity|]. vm_compute. discriminate.
Defined.

(** X12 on one epoch and a millionth: the cap is about 0.0016. *)
Lemma short_remainder_fails_witness :
  let loader : Loader := fun _ => of_list [demo_batch] in
  let ran :=
    fit demo_base demo_fc demo_criterion demo_adam
      (S754_finite false 4503604130970123 (-52)) Float.one 128 128
      loader loader demo_world in
  ran.1 = Raise ZeroDivisionError ∧ printed_epochs (trace ran.2) = [0].
Proof.
  intros loader ran.
  apply (short_remainder_fails demo_base demo_fc demo_criterion demo_adam
           loader loader (S754_finite false 4503604130970123 (-52)) Float.one
           128 128 None)
    with (remainder := S754_finite false 7327824967490208 (-62))
         (cap := Float.value (S754_finite false 7327824967490208 (-62))).
  - reflexivity.
  - reflexivity.
  - by left.
  - exact single_batch_passes.
  - exact single_batch_passes.
  - vm_compute. reflexivity.
  - reflexivity.
  - vm_compute. reflexivity.
  - vm_compute. reflexivity.
Defined.

(** ** Passes over the datasets *)

Lemma gen_map_items_ok {A B} (f : A → result B) (it : iterator A) :
  Forall (fun x => is_ok (f x) = true) (items it) →
  Ok <$> items (gen_map f it) = f <$> items it.
Proof.
  induction it as [|e|x rest IH]; simpl; [done..|].
  intros [Hx Hrest]%Forall_cons. destruct (f x) as [y|e] eqn:Hy; [|done].
  cbn [items]. rewrite fmap_cons. f_equal. exact (IH Hrest).
Qed.

Lemma batches_from_ends (batch_size : nat) (pending : list Row)
    (it : iterator Row) :
  ending it = None → ending (batches_from batch_size pending it) = None.
Proof.
  revert pending. induction it as [|e|r rest IH]; intros pending Hend.
  - simpl. by destruct pending.
  - done.
  - simpl in *. case_decide; simpl; by apply IH.
Qed.

Lemma batches_from_samples (batch_size : nat) (pending : list Row)
    (it : iterator Row) :
  ending it = None →
  sum_list (samples <$> items (batches_from batch_size pending it))
  = length pending + length (items it).
Proof.
  revert pending. induction it as [|e|r rest IH]; intros pending Hend.
  - simpl. destruct pending as [|p pending]; [done|].
    cbn [items fmap list_fmap sum_list sum_list_with].
    rewrite samples_collate. simpl. lia.
  - done.
  - simpl in *. case_decide as Hfull.
    + cbn [items]. rewrite fmap_cons. cbn [sum_list sum_list_with].
      rewrite (IH [] Hend), samples_collate, length_app. simpl. lia.
    + rewrite (IH _ Hend), length_app. simpl. lia.
Qed.

Lemma seen_everything (dl : iterator Batch) :
  seen None dl = sum_list (samples <$> items dl).
Proof. unfold seen, capped. by rewrite firstn_all. Qed.

(** The map stage of both datasets succeeds on the training records. *)
Lemma unpack_row_training_records tokenizer (MAX_LENGTH : Z)
    (records : list Record) (c2i : gmap string nat) :
  classes_to_int (of_list records) = Ok c2i →
  Forall (fun x => is_Some (x !! "translation")) records →
  Forall (fun x => is_ok (unpack_row tokenizer MAX_LENGTH c2i x) = true) records.
Proof.
  intros Hc2i Htext.
  destruct (classes_to_int_inv _ _ Hc2i) as (labels & Hlabels & ->).
  destruct (set_gen_map_ok _ _ _ Hlabels) as (_ & Hall & Hmem).
  rewrite items_of_list in Hall, Hmem.
  rewrite Forall_forall in Hall, Htext. apply Forall_forall. intros x Hx.
  destruct (Htext x Hx) as [text Hx_text].
  destruct (proj1 (language_of_is_ok x) (Hall x Hx)) as [lang Hlang].
  assert (lang ∈ sorted labels) as [i Hi]%list_elem_of_lookup_1.
  { apply sorted_elem_of, Hmem. exists x. by rewrite language_of_Ok. }
  pose proof (sorted_NoDup labels) as Hnd.
  pose proof (proj2 (label_index_lookup _ lang i Hnd) Hi) as Hlk.
  unfold unpack_row, getitem. rewrite Hx_text, Hlang. simpl. by rewrite Hlk.
Qed.

(** X13. With the label space built from the training records, one pass
    over the training dataset in the loading process (no workers) ends
    normally and delivers the row of every training record exactly once,
    in some order; so a whole epoch of the training loader sees as many
    samples as there are training records. *)
Theorem training_pass_covers_every_record tokenizer (MAX_LENGTH : Z)
    (train_data_pipe : DataPipe Record) (records : list Record)
    (c2i : gmap string nat) (draws : nat → nat → nat) (batch_size : Z)
    (loader : Loader) :
  (∀ env, iter env train_data_pipe = of_list records) →
  classes_to_int (of_list records) = Ok c2i →
  Forall (fun x => is_Some (x !! "translation")) records →
  let train_dataset := get_train_dataset tokenizer MAX_LENGTH c2i train_data_pipe in
  (∀ env, num_of_instances env ≤ 1 →
     ending (iter env train_dataset) = None ∧
     Ok <$> items (iter env train_dataset)
     ≡ₚ unpack_row tokenizer MAX_LENGTH c2i <$> records) ∧
  (DataLoader draws train_dataset batch_size NUM_TRAIN_WORKERS = Ok loader →
   ∀ k, ending (loader k) = None ∧ seen None (loader k) = length records).
Proof.
  intros Hsource Hc2i Htext train_dataset.
  pose proof (unpack_row_training_records tokenizer MAX_LENGTH records c2i
                Hc2i Htext) as Hrows.
  assert (∀ env, num_of_instances env ≤ 1 →
            ending (iter env train_dataset) = None ∧
            Ok <$> items (iter env train_dataset)
            ≡ₚ unpack_row tokenizer MAX_LENGTH c2i <$> records) as Hpass.
  { intros env Hone. unfold train_dataset, get_train_dataset, map,
      sharding_filter, shuffle. cbn [iter]. unfold shard_filter.
    rewrite decide_True by done. rewrite Hsource.
    destruct (shuffle_from_items 10000 (rng env) 0 [] records) as [Hperm Hend].
    simpl in Hperm.
    assert (Forall (fun x => is_ok (unpack_row tokenizer MAX_LENGTH c2i x) = true)
              (items (shuffle_from 10000 (rng env) 0 [] (of_list records))))
      as Hall by (by rewrite Hperm).
    split.
    - by rewrite gen_map_all_ok.
    - rewrite gen_map_items_ok by done. by rewrite Hperm. }
  split; [exact Hpass|].
  unfold DataLoader. case_decide; [done|]. intros [= <-] k.
  destruct (Hpass {| num_of_instances := NUM_TRAIN_WORKERS; instance_id := 0;
                     route := round_robin NUM_TRAIN_WORKERS; rng := draws k |})
    as [Hend Hperm]; [unfold NUM_TRAIN_WORKERS; simpl; lia|].
  split; [by apply batches_from_ends|].
  rewrite seen_everything, batches_from_samples by done. simpl.
  apply Permutation_length in Hperm. by rewrite !length_fmap in Hperm.
Qed.

(** X14. One pass over the test dataset in the loading process delivers
    the rows of the test records in the order of the records, as long as
    [unpack_row] succeeds on them: nothing reorders the evaluation data. *)
Theorem test_pass_keeps_order tokenizer (MAX_LENGTH : Z)
    (test_data_pipe : DataPipe Record) (records : list Record)
    (c2i : gmap string nat) (env : IterEnv) :
  iter env test_data_pipe = of_list records →
  num_of_instances env ≤ 1 →
  Forall (fun x => is_ok (unpack_row tokenizer MAX_LENGTH c2i x) = true) records →
  let test_dataset := get_test_dataset tokenizer MAX_LENGTH c2i test_data_pipe in
  ending (iter env test_dataset) = None ∧
  Ok <$> items (iter env test_dataset)
  = unpack_row tokenizer MAX_LENGTH c2i <$> records.
Proof.
  intros Hsource Hone Hrows test_dataset.
  unfold test_dataset, get_test_dataset, map, sharding_filter. cbn [iter].
  unfold shard_filter. rewrite decide_True by done. rewrite Hsource.
  split.
  - rewrite gen_map_all_ok; [apply ending_of_list|by rewrite items_of_list].
  - rewrite gen_map_items_ok by (by rewrite items_of_list).
    by rewrite items_of_list.
Qed.

(** X13 on three records in two languages. *)
Lemma training_pass_covers_every_record_witness :
  let records := [labelled "a" "x"; labelled "b" "bonjour"; labelled "a" "z"] in
  let c2i : gmap string nat := {[ "a" := 0; "b" := 1 ]} in
  let train_dataset :=
    get_train_dataset demo_tokenizer 6 c2i (IterableWrapper (of_list records)) in
  ending (iter demo_env train_dataset) = None ∧
  Ok <$> items (iter demo_env train_dataset)
  ≡ₚ unpack_row demo_tokenizer 6 c2i <$> records.
Proof.
  intros records c2i train_dataset.
  apply (training_pass_covers_every_record demo_tokenizer 6
           (IterableWrapper (of_list records)) records c2i (fun _ _ => 0) 2
           (fun _ => Stop)).
  - reflexivity.
  - vm_compute. reflexivity.
  - repeat constructor; by eexists.
  - vm_compute. lia.
Defined.

(** X14 on two records of known languages. *)
Lemma test_pass_keeps_order_witness :
  let records := [labelled "b" "bonjour"; labelled "a" "x"] in
  let c2i : gmap string nat := {[ "a" := 0; "b" := 1 ]} in
  let test_dataset :=
    get_test_dataset demo_tokenizer 6 c2i (IterableWrapper (of_list records)) in
  ending (iter demo_env test_dataset) = None ∧
  Ok <$> items (iter demo_env test_dataset)
  = unpack_row demo_tokenizer 6 c2i <$> records.
Proof.
  intros records c2i test_dataset.
  apply (test_pass_keeps_order demo_tokenizer 6
           (IterableWrapper (of_list records)) records c2i demo_env).
  - reflexivity.
  - vm_compute. lia.
  - repeat constructor.
Defined.

(** ** What [train] returns *)

Section train_returns.
Context {Params OptState : Type}.
Variable base : Params → bool → list Z * list Z * list Z → list Q.
Variable fc : Params → list Q → list Q.
Variable criterion : list (list Q) → list nat → Q.
Variable adam : OptState → Params → Batch → OptState * Params.
Implicit Types (w : World Params OptState) (dl : iterator Batch) (t : totals).

Local Opaque Nat.modulo.

Lemma train_loop_frame_cadence (i : nat) t w :
  ∃ evs, ((if decide (i mod 100 = 0) then train_report i t else mret ()) w).2
         = logged w evs.
Proof.
  case_decide.
  - unfold train_report, mbind, M_bind, lift, emit, py_div.
    repeat case_decide; simpl;
      solve [ exists []; by rewrite logged_nil | by eexists ].
  - exists []. by rewrite logged_nil.
Qed.

(** The totals of a loop of [train] that ends normally. *)
Lemma train_loop_totals (b : bound) (i : nat) dl t w t' w' :
  train_loop base fc criterion adam b i dl t w = (Ok t', w') →
  let done_ := take (run_length b i dl) (items dl) in
  total_samples t' = total_samples t + sum_list (samples <$> done_) ∧
  (total_loss t'
   == total_loss t
      + sumQ (running_losses base fc criterion adam (training w)
                (opt_state w, params w) done_))%Q.
Proof.
  revert i t w. induction dl as [|e|data rest IH]; intros i t w.
  - simpl. intros [= <- <-]. split; [lia|unfold Q_of_nat; simpl; ring].
  - done.
  - cbn [train_loop run_length items]. destruct (exceeds i b).
    { simpl. intros [= <- <-]. split; [lia|unfold Q_of_nat; simpl; ring]. }
    unfold mbind at 1, M_bind at 1. rewrite call_model_run, length_forward.
    set (t1 := {| total_loss := _ |}).
    unfold mbind at 1, M_bind at 1.
    set (w1 := logged w [EvForward Train i (samples data)]).
    destruct (train_loop_frame_cadence i t1 w1) as [evs1 Hw2].
    destruct ((if decide (i mod 100 = 0) then train_report i t1 else mret ()) w1)
      as [[[]|e] w2]; simpl in Hw2; subst w2; [|done].
    unfold mbind at 1, M_bind at 1, optimizer_step.
    cbn [opt_state params logged training trace]. subst w1.
    cbn [opt_state params logged training trace].
    destruct (adam (opt_state w) (params w) data) as [o θ] eqn:Hadam.
    intros Hrun. apply IH in Hrun as (Hs & Hl). cbn zeta.
    cbn [firstn running_losses fst snd]. rewrite Hadam, !fmap_cons.
    cbn [sum_list sum_list_with sumQ foldr id].
    subst t1. cbn [total_samples total_loss params training opt_state] in *.
    split.
    + lia.
    + rewrite Hl. unfold batch_loss, batch_outputs, sumQ. ring.
Qed.

(** X15. The mean loss that [train] returns is the sample-weighted mean of
    the losses of the batches it ran, each computed in training mode with
    the parameters as the earlier optimizer steps of the same call left
    them, not with the parameters the call ends with. *)
Theorem train_returns_running_mean dl (max_steps : option Q) w (mean_loss : Q) :
  (train base fc criterion adam dl max_steps w).1 = Ok (Some mean_loss) →
  let done_ := take (capped max_steps (length (items dl))) (items dl) in
  let n := sum_list (samples <$> done_) in
  0 < n ∧
  (mean_loss
   == sumQ (running_losses base fc criterion adam true (opt_state w, params w) done_)
      / Q_of_nat n)%Q.
Proof.
  destruct (active max_steps) as [b|] eqn:Hact.
  - rewrite (train_active base fc criterion adam dl max_steps b w Hact).
    destruct (train_loop _ _ _ _ _ _ _ _ _) as [[t'|e] w'] eqn:Hloop; [|done].
    apply train_loop_totals in Hloop as (Hs & Hl).
    rewrite (active_run_length _ _ _ Hact) in Hs, Hl. simpl in Hs, Hl.
    unfold py_div. case_decide as Hz; [done|]. simpl.
    intros [= <-]. cbv zeta. rewrite <-Hs. split; [lia|].
    change (inject_Z (Z.of_nat (total_samples t'))) with (Q_of_nat (total_samples t')).
    rewrite Hl. by rewrite Qplus_0_l.
  - destruct max_steps as [q|]; [|done]. simpl in Hact.
    destruct (Qle_bool q 0) eqn:Hq; [|done]. apply Qle_bool_iff in Hq.
    by rewrite train_inactive.
Qed.
End train_returns.

(** X15 on two batches of two samples. *)
Lemma train_returns_running_mean_witness :
  let dl := of_list [demo_batch; demo_batch] in
  (train demo_base demo_fc demo_criterion demo_adam dl None demo_world).1
  = Ok (Some (4 # 4)%Q) ∧
  (4 # 4
   == sumQ (running_losses demo_base demo_fc demo_criterion demo_adam true
              ((), 0%Z) [demo_batch; demo_batch])
      / Q_of_nat 4)%Q.
Proof.
  intros dl.
  assert ((train demo_base demo_fc demo_criterion demo_adam dl None demo_world).1
          = Ok (Some (4 # 4)%Q)) as Hrun by (vm_compute; reflexivity).
  split; [exact Hrun|].
  exact (proj2 (train_returns_running_mean demo_base demo_fc demo_criterion
                  demo_adam dl None demo_world (4 # 4) Hrun)).
Defined.

(** ** The mode after a call *)

(** X16. However a call of [train] ends, by returning or by raising, it
    leaves the model in training mode, and a call of [test] leaves it in
    evaluation mode; a call whose cap is zero or negative returns before
    switching and leaves the mode as it was. *)
Theorem mode_after_call {Params OptState}
    (base : Params → bool → list Z * list Z * list Z → list Q)
    (fc : Params → list Q → list Q)
    (criterion : list (list Q) → list nat → Q)
    (adam : OptState → Params → Batch → OptState * Params)
    (dl : iterator Batch) (max_steps : option Q) (w : World Params OptState) :
  let trained := (train base fc criterion adam dl max_steps w).2 in
  let tested := (test base fc criterion dl max_steps w).2 in
  match max_steps with
  | Some q =>
      if Qle_bool q 0
      then training trained = training w ∧ training tested = training w
      else training trained = true ∧ training tested = false
  | None => training trained = true ∧ training tested = false
  end.
Proof.
  intros trained tested. subst trained tested.
  rewrite train_mode, test_mode. unfold active.
  destruct max_steps as [q|]; [|done]. by destruct (Qle_bool q 0).
Qed.
